(** * remote_sync: the synchronization engine of [realtime_sync.py]

    A shallow embedding of the path filter, the remote tree scan, the
    reconciliation pass and the live event loop, with the properties of
    the design document stated and settled against the code. *)

From Stdlib Require Import ZArith QArith Ascii String List Lia Bool.
From stdpp Require Import base option list gmap strings sorting.

Local Open Scope string_scope.
Local Open Scope Z_scope.
Local Open Scope list_scope.

(** ** Strings

    Python [str] values are modelled as [string]: a sequence of bytes. All
    separators and extension characters the program looks at are ASCII. *)

Module Str.

Definition slash : ascii := "/"%char.
Definition dot : ascii := "."%char.

Fixpoint contains (c : ascii) (s : string) : bool :=
  match s with
  | EmptyString => false
  | String d r => if Ascii.eqb c d then true else contains c r
  end.

Definition startswith (p s : string) : bool := String.prefix p s.

Fixpoint endswith_char (c : ascii) (s : string) : bool :=
  match s with
  | EmptyString => false
  | String d EmptyString => Ascii.eqb c d
  | String _ r => endswith_char c r
  end.

(** [s.split(c)]: the pieces between the occurrences of [c]; never empty. *)
Fixpoint split_go (c : ascii) (cur : string) (s : string) : list string :=
  match s with
  | EmptyString => [String.rev cur]
  | String d r =>
      if Ascii.eqb c d then String.rev cur :: split_go c EmptyString r
      else split_go c (String d cur) r
  end.

Definition split (c : ascii) (s : string) : list string :=
  split_go c EmptyString s.

(** [sep.join(l)] *)
Fixpoint join (sep : string) (l : list string) : string :=
  match l with
  | [] => ""
  | [x] => x
  | x :: r => x +:+ sep +:+ join sep r
  end.

(** [s.lower()] on the ASCII letters; the other bytes are kept. No
    entry of the extension allow-list has a letter that a non-ASCII
    character lowercases to, so membership in that list is not affected. *)
Definition lower_char (c : ascii) : ascii :=
  let n := nat_of_ascii c in
  if ((65 <=? n)%nat && (n <=? 90)%nat)%bool then ascii_of_nat (n + 32) else c.

Fixpoint lower (s : string) : string :=
  match s with
  | EmptyString => EmptyString
  | String c r => String (lower_char c) (lower r)
  end.

End Str.

(** ** [os.path] on POSIX *)

Module posixpath.

(** [os.path.basename]: what follows the last slash. *)
Fixpoint basename_go (cur : string) (s : string) : string :=
  match s with
  | EmptyString => String.rev cur
  | String c r =>
      if Ascii.eqb c Str.slash then basename_go EmptyString r
      else basename_go (String c cur) r
  end.

Definition basename (p : string) : string := basename_go EmptyString p.

(** [os.path.splitext] on a name without a slash: the extension starts at
    the last dot, unless only dots come before it. [splitext_go seen s]
    returns the extension of [s]; [seen] tells whether a character other
    than a dot has been passed. *)
Fixpoint splitext_go (seen : bool) (s : string) : option string :=
  match s with
  | EmptyString => None
  | String c r =>
      match splitext_go (seen || negb (Ascii.eqb c Str.dot)) r with
      | Some e => Some e
      | None =>
          if (Ascii.eqb c Str.dot && seen)%bool then Some (String c r) else None
      end
  end.

Definition splitext_ext (name : string) : string :=
  match splitext_go false name with
  | Some e => e
  | None => ""
  end.

(** [os.path.join(a, b)] *)
Definition join (a b : string) : string :=
  if Str.startswith "/" b then b
  else if (String.eqb a "" || Str.endswith_char Str.slash a)%bool then a +:+ b
  else a +:+ "/" +:+ b.

Definition isabs (p : string) : bool := Str.startswith "/" p.

(** [os.path.normpath] *)
Definition initial_slashes (p : string) : nat :=
  if Str.startswith "/" p then
    if (Str.startswith "//" p && negb (Str.startswith "///" p))%bool
    then 2%nat else 1%nat
  else 0%nat.

(** The components are kept in reverse order while they are collected. *)
Fixpoint norm_comps (absolute : bool) (rev_new : list string) (comps : list string)
  : list string :=
  match comps with
  | [] => rev rev_new
  | comp :: rest =>
      if (String.eqb comp "" || String.eqb comp ".")%bool
      then norm_comps absolute rev_new rest
      else if negb (String.eqb comp "..")
      then norm_comps absolute (comp :: rev_new) rest
      else match rev_new with
           | [] => if absolute then norm_comps absolute rev_new rest
                   else norm_comps absolute (comp :: rev_new) rest
           | top :: below =>
               if String.eqb top ".."
               then norm_comps absolute (comp :: rev_new) rest
               else norm_comps absolute below rest
           end
  end.

Fixpoint slashes (n : nat) : string :=
  match n with O => "" | S k => "/" +:+ slashes k end.

Definition normpath (p : string) : string :=
  if String.eqb p "" then "."
  else
    let n := initial_slashes p in
    let comps := norm_comps (negb (Nat.eqb n 0)) [] (Str.split Str.slash p) in
    let r := slashes n +:+ Str.join "/" comps in
    if String.eqb r "" then "." else r.

(** [os.path.abspath], with the working directory of the process. *)
Definition abspath (cwd p : string) : string :=
  normpath (if isabs p then p else join cwd p).

Fixpoint common_prefix_len (l1 l2 : list string) : nat :=
  match l1, l2 with
  | x :: r1, y :: r2 => if String.eqb x y then S (common_prefix_len r1 r2) else 0%nat
  | _, _ => 0%nat
  end.

Definition nonempty_comps (p : string) : list string :=
  List.filter (fun x => negb (String.eqb x "")) (Str.split Str.slash p).

Definition join_all (l : list string) : string :=
  match l with
  | [] => ""
  | x :: r => fold_left join r x
  end.

(** [os.path.relpath(path, start)]; [None] is the [ValueError] raised on
    an empty path. *)
Definition relpath (cwd path start : string) : option string :=
  if String.eqb path "" then None
  else
    let start_list := nonempty_comps (abspath cwd start) in
    let path_list := nonempty_comps (abspath cwd path) in
    let i := common_prefix_len start_list path_list in
    let rel_list :=
      List.repeat ".." (length start_list - i) ++ List.skipn i path_list in
    match rel_list with
    | [] => Some "."
    | _ => Some (join_all rel_list)
    end.

End posixpath.

(** ** [fnmatch]

    [fnmatch.fnmatch(name, pat)] on POSIX, where [normcase] changes nothing:
    the pattern is read as the regular expression [fnmatch.translate]
    builds, and the whole name is matched against it. *)

Module fnmatch.

Inductive item :=
| Lit (c : ascii)
| Range (lo hi : ascii).

Inductive token :=
| Star
| AnyChar
| Char (c : ascii)
| Class (negated : bool) (items : list item).

(** The text up to the first closing bracket, and what follows it. *)
Fixpoint until_rbracket (s : string) : option (string * string) :=
  match s with
  | EmptyString => None
  | String c r =>
      if Ascii.eqb c "]" then Some (EmptyString, r)
      else match until_rbracket r with
           | Some (body, rest) => Some (String c body, rest)
           | None => None
           end
  end.

(** A closing bracket that comes first in the class is a member of it. *)
Definition class_body (s : string) : option (string * string) :=
  match s with
  | String "]" r =>
      match until_rbracket r with
      | Some (body, rest) => Some (String "]" body, rest)
      | None => None
      end
  | _ => until_rbracket s
  end.

(** A hyphen between two characters of the class makes a range; a class
    whose range is empty loses it, which is what a range no character
    belongs to does. *)
Fixpoint class_items (s : string) : list item :=
  match s with
  | EmptyString => []
  | String lo (String "-" (String hi r)) => Range lo hi :: class_items r
  | String c r => Lit c :: class_items r
  end.

(** [parse fuel pat]: the tokens of [pat]; [fuel] is the length of [pat],
    an upper bound for the number of tokens. *)
Fixpoint parse (fuel : nat) (pat : string) : list token :=
  match fuel with
  | O => []
  | S fuel' =>
      match pat with
      | EmptyString => []
      | String "*" r => Star :: parse fuel' r
      | String "?" r => AnyChar :: parse fuel' r
      | String "[" r =>
          let '(negated, r1) :=
            match r with
            | String "!" r1 => (true, r1)
            | _ => (false, r)
            end in
          match class_body r1 with
          | Some (body, rest) => Class negated (class_items body) :: parse fuel' rest
          | None => Char "[" :: parse fuel' r
          end
      | String c r => Char c :: parse fuel' r
      end
  end.

Definition item_matches (c : ascii) (i : item) : bool :=
  match i with
  | Lit d => Ascii.eqb c d
  | Range lo hi =>
      ((nat_of_ascii lo <=? nat_of_ascii c)%nat
       && (nat_of_ascii c <=? nat_of_ascii hi)%nat)%bool
  end.

Definition token_matches (t : token) (c : ascii) : bool :=
  match t with
  | Star | AnyChar => true
  | Char d => Ascii.eqb c d
  | Class negated items => xorb negated (existsb (item_matches c) items)
  end.

Fixpoint match_tokens (ts : list token) (s : string) : bool :=
  match ts with
  | [] => match s with EmptyString => true | _ => false end
  | Star :: ts' =>
      (fix star (s : string) : bool :=
         (match_tokens ts' s
          || match s with
             | EmptyString => false
             | String _ r => star r
             end)%bool) s
  | t :: ts' =>
      match s with
      | EmptyString => false
      | String c r => (token_matches t c && match_tokens ts' r)%bool
      end
  end.

Definition fnmatch (name pat : string) : bool :=
  match_tokens (parse (String.length pat) pat) name.

End fnmatch.

(** ** The local operating system, as the program queries it

    What [os.path.isdir], [os.path.exists], [os.listdir] and
    [os.path.expanduser] answer depends on the filesystem and on the working
    directory of the process; a value of [os_state] is one state of them.
    [listdir] is [None] when the call raises. *)

Record os_state := {
  cwd : string;
  isdir : string -> bool;
  exists_ : string -> bool;
  listdir : string -> option (list string);
  expanduser : string -> string
}.

(** ** PathFilter: [is_excluded] *)

Definition SOURCE_CODE_EXTENSIONS : list string :=
  [".py"; ".js"; ".html"; ".css"; ".scss"; ".java"; ".c"; ".cpp"; ".h";
   ".hpp"; ".go"; ".rs"; ".php"; ".rb"; ".ts"; ".tsx"; ".jsx"; ".json";
   ".yml"; ".yaml"; ".md"; ".sh"; ".xml"; ".sql"].

Definition in_list (x : string) (l : list string) : bool :=
  existsb (String.eqb x) l.

(** The loop over the patterns: the first pattern that matches the path or
    its base name returns [True]. *)
Definition matches_any (path : string) (exclude_patterns : list string) : bool :=
  let base_name := posixpath.basename path in
  existsb (fun pattern =>
             (fnmatch.fnmatch path pattern || fnmatch.fnmatch base_name pattern)%bool)
          exclude_patterns.

Definition is_excluded (os : os_state) (path : string)
    (exclude_patterns : list string) (source_code_only : bool) : bool :=
  let base_name := posixpath.basename path in
  if matches_any path exclude_patterns then true
  else if source_code_only then
    if isdir os path then false
    else
      let ext := posixpath.splitext_ext base_name in
      if negb (in_list (Str.lower ext) SOURCE_CODE_EXTENSIONS) then true
      else false
  else false.

(** ** Exceptions

    The exception classes the program tells apart. [FileNotFoundError] and
    [PermissionError] are subclasses of [OSError]; [KeyboardInterrupt] is
    the only one here that is not an [Exception]. *)

Inductive exn :=
| FileNotFoundError
| PermissionError
| OSError
| SSHException
| EOFError
| ValueError
| KeyboardInterrupt
| OtherException.

Definition is_OSError (e : exn) : bool :=
  match e with
  | FileNotFoundError | PermissionError | OSError => true
  | _ => false
  end.

Definition is_Exception (e : exn) : bool :=
  match e with
  | KeyboardInterrupt => false
  | _ => true
  end.

(** ** The transport: what a directory listing returns *)

Record SFTPAttributes := {
  filename : string;
  st_mode : Z;
  st_size : Z;
  st_mtime : Z
}.

(** [stat.S_ISDIR(mode)]: [(mode & 0o170000) == 0o040000] *)
Definition S_ISDIR (mode : Z) : bool := Z.land mode 61440 =? 16384.

(** [sftp.listdir_attr(path)] returns the entries or raises. *)
Definition listdir_attr_t := string -> list SFTPAttributes + exn.

(** [s.replace("\\", "/")] *)
Fixpoint replace_backslash (s : string) : string :=
  match s with
  | EmptyString => EmptyString
  | String c r =>
      String (if Ascii.eqb c "\" then "/"%char else c) (replace_backslash r)
  end.

(** ** RemoteTreeScanner: [walk_remote] *)

Section walk_remote.

Variable os : os_state.
Variable listdir_attr : listdir_attr_t.
Variable remote_path : string.
Variable exclude_patterns : list string.
Variable source_code_only : bool.

Definition current_remote_path (current_rel_path : string) : string :=
  replace_backslash (posixpath.join remote_path current_rel_path).

Definition rel_item_path (current_rel_path : string) (attr : SFTPAttributes) : string :=
  replace_backslash (posixpath.join current_rel_path (filename attr)).

(** The test of lines 101-103 of the source: is the entry skipped? *)
Definition remote_skipped (current_rel_path : string) (attr : SFTPAttributes) : bool :=
  let is_dir := S_ISDIR (st_mode attr) in
  let p := rel_item_path current_rel_path attr in
  let exclude_check_path := if is_dir then p +:+ "/" else p in
  is_excluded os exclude_check_path exclude_patterns
              (source_code_only && negb is_dir).

(** One turn of the [for] loop over a listing. The stack is a list whose
    head is the top: [append] conses, [pop] takes the head. *)
Definition visit_entry (current_rel_path : string)
    (st : gmap string SFTPAttributes * list string) (attr : SFTPAttributes)
  : gmap string SFTPAttributes * list string :=
  if remote_skipped current_rel_path attr then st
  else
    let p := rel_item_path current_rel_path attr in
    (<[p := attr]> (fst st),
     if S_ISDIR (st_mode attr) then p :: snd st else snd st).

(** The [while stack] loop; [fuel] bounds the number of directories
    popped. A [FileNotFoundError] of the listing is logged and the scan
    goes on; any other exception leaves the function. [None]: the fuel
    ran out. *)
Fixpoint walk_loop (fuel : nat) (stack : list string)
    (remote_map : gmap string SFTPAttributes)
  : option (gmap string SFTPAttributes + exn) :=
  match stack with
  | [] => Some (inl remote_map)
  | current_rel_path :: stack' =>
      match fuel with
      | O => None
      | S fuel' =>
          match listdir_attr (current_remote_path current_rel_path) with
          | inl entries =>
              let '(remote_map', stack'') :=
                fold_left (visit_entry current_rel_path) entries (remote_map, stack') in
              walk_loop fuel' stack'' remote_map'
          | inr FileNotFoundError => walk_loop fuel' stack' remote_map
          | inr e => Some (inr e)
          end
      end
  end.

Definition walk_remote (fuel : nat) : option (gmap string SFTPAttributes + exn) :=
  walk_loop fuel [""] ∅.

End walk_remote.

(** ** The remote tree as the scan meets it *)

(** The path of the entry [n] of the directory [q]. *)
Definition child (q n : string) : string :=
  if String.eqb q "" then n else q +:+ "/" +:+ n.

(** A relative path of the scan: no slash at its end, no backslash. *)
Definition clean (q : string) : Prop :=
  Str.endswith_char "/" q = false /\ Str.contains "\" q = false.

(** A name of a directory entry: not empty, without a separator. *)
Definition wf_name (n : string) : bool :=
  negb (String.eqb n "") && negb (Str.contains "/" n) && negb (Str.contains "\" n).

(** The names of a listing are entry names, and no name occurs twice. *)
Definition wf_listing (listdir_attr : listdir_attr_t) : Prop :=
  forall path entries,
    listdir_attr path = inl entries ->
    NoDup (filename <$> entries)
    /\ forall attr, attr ∈ entries -> wf_name (filename attr) = true.

Section remote_tree.

Variable os : os_state.
Variable listdir_attr : listdir_attr_t.
Variable remote_path : string.
Variable exclude_patterns : list string.
Variable source_code_only : bool.

(** The relative paths of the directories of the remote tree. *)
Inductive remote_directory : string -> Prop :=
| remote_root : remote_directory ""
| remote_subdir q entries attr :
    remote_directory q ->
    listdir_attr (current_remote_path remote_path q) = inl entries ->
    attr ∈ entries ->
    S_ISDIR (st_mode attr) = true ->
    remote_directory (rel_item_path q attr).

(** The directories the scan lists: the root, and the directories the
    filter keeps among the entries of a directory it lists. *)
Inductive visited : string -> Prop :=
| visited_root : visited ""
| visited_subdir q entries attr :
    visited q ->
    listdir_attr (current_remote_path remote_path q) = inl entries ->
    attr ∈ entries ->
    S_ISDIR (st_mode attr) = true ->
    remote_skipped os exclude_patterns source_code_only q attr = false ->
    visited (rel_item_path q attr).

(** The paths the scan records: the entries the filter keeps in a
    directory it lists. *)
Definition recorded (p : string) : Prop :=
  exists q entries attr,
    visited q
    /\ listdir_attr (current_remote_path remote_path q) = inl entries
    /\ attr ∈ entries
    /\ remote_skipped os exclude_patterns source_code_only q attr = false
    /\ p = rel_item_path q attr.

(** [height_le h q]: below the directory [q] the remote tree has at most
    [h] levels of directories. *)
Fixpoint height_le (h : nat) (q : string) : Prop :=
  match listdir_attr (current_remote_path remote_path q) with
  | inl entries =>
      forall attr, attr ∈ entries -> S_ISDIR (st_mode attr) = true ->
        match h with
        | O => False
        | S h' => height_le h' (rel_item_path q attr)
        end
  | inr _ => True
  end.

(** The number of directories at and below [q], down to [h] levels: the
    fuel the scan of [q] needs. *)
Fixpoint tree_size (h : nat) (q : string) : nat :=
  match h with
  | O => 1
  | S h' =>
      match listdir_attr (current_remote_path remote_path q) with
      | inl entries =>
          S (sum_list_with (fun attr =>
                              if S_ISDIR (st_mode attr)
                              then tree_size h' (rel_item_path q attr)
                              else O) entries)
      | inr _ => 1
      end
  end.

(** What the loop keeps true: the map holds recorded paths, the stack
    directories to list. *)
Definition scan_inv (st : gmap string SFTPAttributes * list string) : Prop :=
  (forall p, p ∈ dom (fst st) -> recorded p)
  /\ (forall q, q ∈ snd st -> visited q).

(** The entries of a listing the loop pushes on the stack. *)
Definition kept_dir (q : string) (attr : SFTPAttributes) : bool :=
  negb (remote_skipped os exclude_patterns source_code_only q attr) && S_ISDIR (st_mode attr).

(** The fuel a stack needs, each directory with a bound of its height. *)
Definition stack_size (annot : list (nat * string)) : nat :=
  sum_list_with (fun hq => tree_size (fst hq) (snd hq)) annot.

End remote_tree.

(** ** Target configuration *)

Record config := {
  name : string;
  local_path : string;
  remote_path : string;
  exclude_patterns : list string;
  source_code_only : bool;
  initial_sync_enabled : bool;
  initial_sync_delete : bool
}.

(** ** Reconciler: [perform_initial_sync] *)

(** An entry of [local_map]: [{'is_dir': True}] for a directory,
    [{'mtime': ..., 'size': ..., 'is_dir': False}] for a file. The
    modification time is the float [st_mtime], a rational number of
    seconds. *)
Inductive local_entry :=
| LocalDir
| LocalFile (mtime : Q) (size : Z).

Definition is_dir (e : local_entry) : bool :=
  match e with LocalDir => true | LocalFile _ _ => false end.

(** [int(x)] of a float: truncation toward zero. *)
Definition int_of_float (x : Q) : Z := Z.quot (Qnum x) (Z.pos (Qden x)).

(** A call made on the transport. The path is the relative path; the call
    is issued on [os.path.join(remote_base, rel_path).replace("\\", "/")],
    and [put] reads [os.path.join(local_base, rel_path)]. *)
Inductive action :=
| Mkdir (rel_path : string)
| Put (rel_path : string)
| Rmdir (rel_path : string)
| Remove (rel_path : string).

Definition action_path (a : action) : string :=
  match a with
  | Mkdir p | Put p | Rmdir p | Remove p => p
  end.

Definition remote_full_path (remote_base rel_path : string) : string :=
  replace_backslash (posixpath.join remote_base rel_path).

Definition local_full_path (local_base rel_path : string) : string :=
  posixpath.join local_base rel_path.

Section reconcile.

Variable local_map : gmap string local_entry.
Variable remote_map : gmap string SFTPAttributes.

Definition to_upload : gset string := dom local_map ∖ dom remote_map.
Definition to_delete : gset string := dom remote_map ∖ dom local_map.
Definition to_check : gset string := dom local_map ∩ dom remote_map.

(** [local_map[rel_path]['is_dir']]; the key is always present where the
    program looks it up. *)
Definition local_is_dir (rel_path : string) : bool :=
  match local_map !! rel_path with
  | Some e => is_dir e
  | None => false
  end.

Definition remote_is_dir (rel_path : string) : bool :=
  match remote_map !! rel_path with
  | Some attr => S_ISDIR (st_mode attr)
  | None => false
  end.

Definition create_action (rel_path : string) : action :=
  if local_is_dir rel_path then Mkdir rel_path else Put rel_path.

(** [sorted(list(to_upload))] *)
Definition create_actions : list action :=
  create_action <$> merge_sort String.le (elements to_upload).

(** The comparison of lines 187-188. *)
Definition modified (mtime : Q) (size : Z) (attr : SFTPAttributes) : bool :=
  (int_of_float mtime >? st_mtime attr + 1) || negb (size =? st_size attr).

Definition needs_update (rel_path : string) : bool :=
  match local_map !! rel_path, remote_map !! rel_path with
  | Some (LocalFile mtime size), Some attr => modified mtime size attr
  | _, _ => false
  end.

(** The loop over [to_check]; a Python set is iterated in an order of
    its own, here the one of [elements]. *)
Definition update_actions : list action :=
  Put <$> List.filter needs_update (elements to_check).

Definition delete_action (rel_path : string) : action :=
  if remote_is_dir rel_path then Rmdir rel_path else Remove rel_path.

(** [sorted(list(to_delete), reverse=True)] *)
Definition delete_actions (allow_delete : bool) : list action :=
  if allow_delete
  then delete_action <$> merge_sort (flip String.le) (elements to_delete)
  else [].

(** The count printed when deletion is disabled and something is extra. *)
Definition extra_report (allow_delete : bool) : option nat :=
  if allow_delete then None
  else if decide (to_delete = ∅) then None
  else Some (size to_delete).

(** The calls of step 4, in the order they are issued. *)
Definition initial_sync_actions (allow_delete : bool) : list action :=
  create_actions ++ update_actions ++ delete_actions allow_delete.

End reconcile.

(** What the program does that an observer sees: the calls on the
    transport, the lines it prints, and its waits. *)
Inductive log_line :=
| ActionError (a : action) (e : exn)
| ExtraRemoteItems (n : nat)
| InitialSyncCompleted
| InitialSyncSkipped
| ConnectionFailed
| NowMonitoring
| ConnectionLost (e : exn)
| ShuttingDown
| UnexpectedError (e : exn)
| LocalPathMissing.

Inductive output :=
| Call (a : action)
| Log (l : log_line)
| Sleep (seconds : Z).

(** The transport session as the calls see it: [None] when the call
    succeeds, the exception it raises otherwise. *)
Definition sftp_t := action -> option exn.

(** Each call of step 4 sits in its own [try ... except Exception]: a
    failure is printed and the loop goes on. An exception that is not an
    [Exception] leaves the function. *)
Fixpoint run_actions (sftp : sftp_t) (calls : list action) : list output * option exn :=
  match calls with
  | [] => ([], None)
  | a :: rest =>
      match sftp a with
      | None =>
          let '(out, r) := run_actions sftp rest in (Call a :: out, r)
      | Some e =>
          if is_Exception e then
            let '(out, r) := run_actions sftp rest in
            (Call a :: Log (ActionError a e) :: out, r)
          else ([Call a], Some e)
      end
  end.

Definition report_output (r : option nat) : list output :=
  match r with
  | Some n => [Log (ExtraRemoteItems n)]
  | None => []
  end.

(** [perform_initial_sync], from the local map built by step 1. [None]:
    the remote scan ran out of fuel. *)
Definition perform_initial_sync (os : os_state) (listdir_attr : listdir_attr_t)
    (sftp : sftp_t) (cfg : config) (local_map : gmap string local_entry)
    (fuel : nat) : option (list output * option exn) :=
  match walk_remote os listdir_attr (remote_path cfg) (exclude_patterns cfg)
                    (source_code_only cfg) fuel with
  | None => None
  | Some (inr e) => Some ([], Some e)
  | Some (inl remote_map) =>
      let allow_delete := initial_sync_delete cfg in
      let '(out, r) :=
        run_actions sftp (initial_sync_actions local_map remote_map allow_delete) in
      match r with
      | Some e => Some (out, Some e)
      | None =>
          Some (out ++ report_output (extra_report local_map remote_map allow_delete)
                    ++ [Log InitialSyncCompleted], None)
      end
  end.

(** ** The local event source *)

Module inotify.

(** [inotify_simple.flags] *)
Definition MODIFY : Z := 2.
Definition MOVED_FROM : Z := 64.
Definition MOVED_TO : Z := 128.
Definition CREATE : Z := 256.
Definition DELETE : Z := 512.
Definition DELETE_SELF : Z := 1024.
Definition MOVE_SELF : Z := 2048.
Definition ISDIR : Z := 1073741824.

Record event := {
  wd : Z;
  mask : Z;
  name : string
}.

(** The truth value of [event.mask & flag]. *)
Definition has (ev : event) (flag : Z) : bool := negb (Z.land (mask ev) flag =? 0).

(** [inotify.add_watch(path, watch_flags)]: the handle, or [None] when the
    call raises. *)
Definition add_watch_t := string -> option Z.

(** One [inotify.read(timeout=1)]: the events read, or an exception. *)
Inductive read_result :=
| Events (l : list event)
| ReadRaises (e : exn).

End inotify.

(** ** EventTranslator and ConnectionSupervisor: [sync_worker] *)

Definition RECONNECT_DELAY : Z := 30.

Section sync_worker.

Variable cfg : config.
Variable os : os_state.
Variable add_watch : inotify.add_watch_t.

(** The loop over [os.listdir(path)] inside [add_watch_recursively];
    [recurse] is the recursive call. An exception of a child call that
    is an [Exception] ends the loop and is caught by the [except] clause
    of the enclosing call. *)
Fixpoint watch_children
    (recurse : string -> gmap Z string -> option (gmap Z string * option exn))
    (path : string) (items : list string) (wd_map : gmap Z string)
  : option (gmap Z string * option exn) :=
  match items with
  | [] => Some (wd_map, None)
  | item :: rest =>
      let child_path := posixpath.join path item in
      if isdir os child_path then
        match recurse child_path wd_map with
        | None => None
        | Some (wd_map', None) => watch_children recurse path rest wd_map'
        | Some (wd_map', Some e) =>
            if is_Exception e then Some (wd_map', None)
            else Some (wd_map', Some e)
        end
      else watch_children recurse path rest wd_map
  end.

(** [add_watch_recursively]; [fuel] bounds the depth of the recursion.
    The result is the registry after the call and the exception that
    leaves it, if any: the registry is updated in place, so what was
    added before an exception stays. An exception of [inotify.add_watch]
    or of [os.listdir] is caught and printed. [None]: the fuel ran out. *)
Fixpoint add_watch_recursively (fuel : nat) (path : string) (wd_map : gmap Z string)
  : option (gmap Z string * option exn) :=
  match fuel with
  | O => None
  | S fuel' =>
      if negb (exists_ os path) then Some (wd_map, None)
      else
        match posixpath.relpath (cwd os) path (local_path cfg) with
        | None => Some (wd_map, Some ValueError)
        | Some rel =>
            let rel_path_from_base := if String.eqb rel "." then "" else rel in
            if is_excluded os (rel_path_from_base +:+ "/") (exclude_patterns cfg)
                           (negb (isdir os path) && source_code_only cfg)
            then Some (wd_map, None)
            else
              match add_watch path with
              | None => Some (wd_map, None)
              | Some w =>
                  let wd_map1 := <[w := path]> wd_map in
                  match listdir os path with
                  | None => Some (wd_map1, None)
                  | Some items =>
                      watch_children (add_watch_recursively fuel') path items wd_map1
                  end
              end
        end
  end.

Variable sftp : sftp_t.
Variable fuel : nat.

(** A call of the live loop: nothing catches its exception there. *)
Definition live_call (a : action) (wd_map : gmap Z string)
  : option (gmap Z string * list output * option exn) :=
  Some (wd_map, [Call a], sftp a).

(** The body of the [for event in inotify.read(...)] loop. *)
Definition process_event (local_path : string) (wd_map : gmap Z string)
    (ev : inotify.event) : option (gmap Z string * list output * option exn) :=
  match wd_map !! inotify.wd ev with
  | None => Some (wd_map, [], None)
  | Some parent_dir_path =>
      let event_path := posixpath.join parent_dir_path (inotify.name ev) in
      match posixpath.relpath (cwd os) event_path local_path with
      | None => Some (wd_map, [], Some ValueError)
      | Some rel_path =>
          let isdir_flag := inotify.has ev inotify.ISDIR in
          let exclude_path_check := rel_path +:+ (if isdir_flag then "/" else "") in
          if is_excluded os exclude_path_check (exclude_patterns cfg)
                         (source_code_only cfg)
          then Some (wd_map, [], None)
          else if inotify.has ev (Z.lor inotify.CREATE inotify.MOVED_TO) then
            if isdir_flag then
              match sftp (Mkdir rel_path) with
              | Some e => Some (wd_map, [Call (Mkdir rel_path)], Some e)
              | None =>
                  match add_watch_recursively fuel event_path wd_map with
                  | None => None
                  | Some (wd_map', r) => Some (wd_map', [Call (Mkdir rel_path)], r)
                  end
              end
            else live_call (Put rel_path) wd_map
          else if inotify.has ev inotify.MODIFY && negb isdir_flag then
            live_call (Put rel_path) wd_map
          else if inotify.has ev (Z.lor inotify.DELETE inotify.MOVED_FROM) then
            if isdir_flag then live_call (Rmdir rel_path) wd_map
            else live_call (Remove rel_path) wd_map
          else Some (wd_map, [], None)
      end
  end.

(** The [for] loop over one batch: the first exception ends it. *)
Fixpoint process_events (local_path : string) (events : list inotify.event)
    (wd_map : gmap Z string) : option (gmap Z string * list output * option exn) :=
  match events with
  | [] => Some (wd_map, [], None)
  | ev :: rest =>
      match process_event local_path wd_map ev with
      | None => None
      | Some (wd_map', out, Some e) => Some (wd_map', out, Some e)
      | Some (wd_map', out, None) =>
          match process_events local_path rest wd_map' with
          | None => None
          | Some (wd_map'', out', r) => Some (wd_map'', out ++ out', r)
          end
      end
  end.

(** The inner [while True] loop, on the reads the event source delivers;
    when they are used up without an exception the loop is still
    running. *)
Fixpoint watching (local_path : string) (reads : list inotify.read_result)
    (wd_map : gmap Z string) : option (gmap Z string * list output * option exn) :=
  match reads with
  | [] => Some (wd_map, [], None)
  | inotify.ReadRaises e :: _ => Some (wd_map, [], Some e)
  | inotify.Events events :: rest =>
      match process_events local_path events wd_map with
      | None => None
      | Some (wd_map', out, Some e) => Some (wd_map', out, Some e)
      | Some (wd_map', out, None) =>
          match watching local_path rest wd_map' with
          | None => None
          | Some (wd_map'', out', r) => Some (wd_map'', out ++ out', r)
          end
      end
  end.

End sync_worker.

(** What the worker is doing when the inputs given to the model are used
    up, or how it ended. *)
Inductive status :=
| Connecting               (* between sessions: about to connect again *)
| Watching                 (* in the inner loop, waiting for events *)
| Stopped                  (* the worker returned *)
| Died (e : exn).          (* an exception left the worker *)

(** What one turn of the outer [while True] loop meets: the local system,
    the event source, what connecting raises, if anything, the remote
    listing, the transport, the local map of step 1, the fuel of the
    recursions and the reads of the inner loop. *)
Record session_input := {
  s_os : os_state;
  s_add_watch : inotify.add_watch_t;
  s_connect : option exn;
  s_listdir_attr : listdir_attr_t;
  s_sftp : sftp_t;
  s_local_map : gmap string local_entry;
  s_fuel : nat;
  s_reads : list inotify.read_result
}.

(** The [except] clauses of the outer loop. *)
Definition handle_exception (e : exn) : list output * status :=
  match e with
  | SSHException | EOFError | FileNotFoundError | PermissionError | OSError =>
      ([Log (ConnectionLost e); Sleep RECONNECT_DELAY], Connecting)
  | KeyboardInterrupt => ([Log ShuttingDown], Stopped)
  | _ => ([Log (UnexpectedError e); Sleep RECONNECT_DELAY], Connecting)
  end.

(** The reconciliation of a session, when it is enabled. *)
Definition initial_phase (cfg : config) (i : session_input)
  : option (list output * option exn) :=
  if initial_sync_enabled cfg
  then perform_initial_sync (s_os i) (s_listdir_attr i) (s_sftp i) cfg
                            (s_local_map i) (s_fuel i)
  else Some ([Log InitialSyncSkipped], None).

(** ** The connection as a context manager

    [sftp_client] is a generator function under [contextlib.contextmanager].
    The generator is modelled by the points at which it can be suspended
    and by what resuming it there gives; [enter] and [exit_] are
    [__enter__] and [__exit__] of [contextlib] over it. Closing the
    session and the client in the [finally] clause is not modelled. *)

(** The lines [sftp_client] prints. *)
Inductive client_line :=
| ConnectingTo
| ConnectionEstablished
| SFTPConnectionError (e : exn).

(** [RuntimeError] is an [Exception] outside the classes the worker names. *)
Definition RuntimeError : exn := OtherException.

Module sftp_client.

Inductive point :=
| AtStart          (* not started *)
| AtYieldSftp      (* suspended at [yield sftp], inside the [try] *)
| AtYieldNone      (* suspended at [yield None], inside the [except] clause *)
| Finished.

Inductive resumption :=
| Yielded (p : point)
| StopIteration
| Raised (e : exn).

(** [next(gen)]; [connect] is what connecting and opening the session
    raises, if anything. *)
Definition next (connect : option exn) (p : point) : list client_line * resumption :=
  match p with
  | AtStart =>
      match connect with
      | None => ([ConnectingTo; ConnectionEstablished], Yielded AtYieldSftp)
      | Some e =>
          if is_Exception e
          then ([ConnectingTo; SFTPConnectionError e], Yielded AtYieldNone)
          else ([ConnectingTo], Raised e)
      end
  | AtYieldSftp | AtYieldNone | Finished => ([], StopIteration)
  end.

(** [gen.throw(e)]: at [yield sftp] the [except Exception] clause catches
    [e], prints it and yields again. *)
Definition throw (p : point) (e : exn) : list client_line * resumption :=
  match p with
  | AtYieldSftp =>
      if is_Exception e then ([SFTPConnectionError e], Yielded AtYieldNone)
      else ([], Raised e)
  | AtStart | AtYieldNone | Finished => ([], Raised e)
  end.

(** [__enter__]: the point whose value is bound by [as], or the exception. *)
Definition enter (connect : option exn) : list client_line * (point + exn) :=
  match next connect AtStart with
  | (out, Yielded p) => (out, inl p)
  | (out, StopIteration) => (out, inr RuntimeError)
  | (out, Raised e) => (out, inr e)
  end.

(** The value bound by [as sftp] is a session, not [None]. *)
Definition is_session (p : point) : bool :=
  match p with
  | AtYieldSftp => true
  | _ => false
  end.

(** [__exit__], given what left the body: what leaves the [with]
    statement. A generator that yields again makes [contextlib] raise
    [RuntimeError]. *)
Definition exit_ (connect : option exn) (p : point) (body : option exn)
  : list client_line * option exn :=
  match body with
  | None =>
      match next connect p with
      | (out, StopIteration) => (out, None)
      | (out, Yielded _) => (out, Some RuntimeError)
      | (out, Raised e) => (out, Some e)
      end
  | Some e =>
      match throw p e with
      | (out, StopIteration) => (out, None)
      | (out, Yielded _) => (out, Some RuntimeError)
      | (out, Raised e') => (out, Some e')
      end
  end.

End sftp_client.

(** What a turn of the outer loop prints and does, with the lines of the
    connection among it. *)
Inductive cm_output :=
| Worker (o : output)
| Client (l : client_line).

(** The [except] clauses of the outer loop on what leaves the [with]
    statement. *)
Definition leave (connect : option exn) (p : sftp_client.point)
    (wd_map : gmap Z string) (out : list cm_output) (body : option exn)
  : gmap Z string * list cm_output * status :=
  match sftp_client.exit_ connect p body with
  | (out_c, None) => (wd_map, out ++ map Client out_c, Connecting)
  | (out_c, Some e) =>
      let '(out3, st) := handle_exception e in
      (wd_map, out ++ map Client out_c ++ map Worker out3, st)
  end.

(** One turn of the outer loop: connect, reconcile if enabled, watch, all
    inside the [with] statement; [connect] is what connecting raises, if
    anything. *)
Definition session_cm (cfg : config) (local_path : string) (connect : option exn)
    (i : session_input) (wd_map : gmap Z string)
  : option (gmap Z string * list cm_output * status) :=
  match sftp_client.enter connect with
  | (out0, inr e) =>
      let '(out3, st) := handle_exception e in
      Some (wd_map, map Client out0 ++ map Worker out3, st)
  | (out0, inl p) =>
      if negb (sftp_client.is_session p)
      then Some (leave connect p wd_map
                   (map Client out0
                    ++ [Worker (Log ConnectionFailed); Worker (Sleep RECONNECT_DELAY)])
                   None)
      else
        match initial_phase cfg i with
        | None => None
        | Some (out1, Some e) =>
            Some (leave connect p wd_map (map Client out0 ++ map Worker out1) (Some e))
        | Some (out1, None) =>
            match watching cfg (s_os i) (s_add_watch i) (s_sftp i) (s_fuel i)
                           local_path (s_reads i) wd_map with
            | None => None
            | Some (wd_map', out2, Some e) =>
                Some (leave connect p wd_map'
                        (map Client out0 ++ map Worker (out1 ++ Log NowMonitoring :: out2))
                        (Some e))
            | Some (wd_map', out2, None) =>
                Some (wd_map',
                      map Client out0 ++ map Worker (out1 ++ Log NowMonitoring :: out2),
                      Watching)
            end
        end
  end.

(** One turn of the outer loop on the inputs it meets. *)
Definition session (cfg : config) (local_path : string) (i : session_input)
    (wd_map : gmap Z string) : option (gmap Z string * list cm_output * status) :=
  session_cm cfg local_path (s_connect i) i wd_map.

(** The outer [while True] loop over the sessions. *)
Fixpoint sessions (cfg : config) (local_path : string) (inputs : list session_input)
    (wd_map : gmap Z string) : option (gmap Z string * list cm_output * status) :=
  match inputs with
  | [] => Some (wd_map, [], Connecting)
  | i :: rest =>
      match session cfg local_path i wd_map with
      | None => None
      | Some (wd_map', out, Connecting) =>
          match sessions cfg local_path rest wd_map' with
          | None => None
          | Some (wd_map'', out', st) => Some (wd_map'', out ++ out', st)
          end
      | Some r => Some r
      end
  end.

(** [sync_worker]: the registry starts empty, the local root is watched
    recursively once, and the sessions follow. *)
Definition sync_worker (cfg : config) (os0 : os_state) (add_watch0 : inotify.add_watch_t)
    (fuel0 : nat) (inputs : list session_input)
  : option (gmap Z string * list cm_output * status) :=
  let local_path := expanduser os0 (local_path cfg) in
  if negb (isdir os0 local_path)
  then Some (∅, [Worker (Log LocalPathMissing)], Stopped)
  else
    match add_watch_recursively cfg os0 add_watch0 fuel0 local_path ∅ with
    | None => None
    | Some (wd_map, Some e) => Some (wd_map, [], Died e)
    | Some (wd_map, None) => sessions cfg local_path inputs wd_map
    end.

(** ** The remote snapshot after a pass

    What the calls of a pass leave on the remote side, as the next scan
    sees it. The transport is not part of the program; a call that raises
    changes nothing. *)

Section remote_after.

Variable made : string -> SFTPAttributes.
Variable uploaded : string -> SFTPAttributes.

(** What a successful call leaves at its path. *)
Definition outcome (a : action) : option SFTPAttributes :=
  match a with
  | Mkdir p => Some (made p)
  | Put p => Some (uploaded p)
  | Rmdir _ | Remove _ => None
  end.

(** The key under which the next scan records what a call on [rel_path]
    leaves: the call is made on
    [os.path.join(remote_base, rel_path).replace("\\", "/")], and the scan
    keys an entry by its path below the remote root, with [/]. *)
Definition landed (rel_path : string) : string := replace_backslash rel_path.

(** Modelled from the spec: the effect of a successful call of the
    transport collaborator (makeDirectory, upload, removeFile,
    removeDirectory). A [mkdir] or [put] leaves an entry at the path the
    call was made on, with the attributes the server reports for it
    ([made], [uploaded]); a [rmdir] or [remove] takes the entry away. *)
Definition effect (remote_map : gmap string SFTPAttributes) (a : action)
  : gmap string SFTPAttributes :=
  match a with
  | Mkdir p => <[landed p := made p]> remote_map
  | Put p => <[landed p := uploaded p]> remote_map
  | Rmdir p | Remove p => delete (landed p) remote_map
  end.

Definition attempt (sftp : sftp_t) (remote_map : gmap string SFTPAttributes)
    (a : action) : gmap string SFTPAttributes :=
  match sftp a with
  | None => effect remote_map a
  | Some _ => remote_map
  end.

Definition remote_after (sftp : sftp_t) (calls : list action)
    (remote_map : gmap string SFTPAttributes) : gmap string SFTPAttributes :=
  fold_left (attempt sftp) calls remote_map.

End remote_after.

(** The event source gives one handle to one directory: two paths with the
    same handle are the same path. *)
Definition one_handle_per_path (add_watch : inotify.add_watch_t) : Prop :=
  forall p1 p2 w, add_watch p1 = Some w -> add_watch p2 = Some w -> p1 = p2.

(** The registry agrees with the handles of the event source. *)
Definition agrees (add_watch : inotify.add_watch_t) (wd_map : gmap Z string) : Prop :=
  forall p w p', add_watch p = Some w -> wd_map !! w = Some p' -> p' = p.

(** [a] is a slash-delimited ancestor of [b]. *)
Definition is_ancestor (a b : string) : Prop :=
  exists rest, b = a +:+ "/" +:+ rest.

(** ** Concrete targets, filesystems and events

    The inputs at which the properties below are exercised. *)

Module Examples.

Definition file_attr (n : string) (size mtime : Z) : SFTPAttributes :=
  {| filename := n; st_mode := 33188; st_size := size; st_mtime := mtime |}.

Definition dir_attr (n : string) : SFTPAttributes :=
  {| filename := n; st_mode := 16877; st_size := 4096; st_mtime := 0 |}.

(** A local system without directories at the relative paths asked. *)
Definition os_plain : os_state :=
  {| cwd := "/"; isdir := fun _ => false; exists_ := fun _ => true;
     listdir := fun _ => Some []; expanduser := fun p => p |}.

(** The same system with a directory [build] in the working directory. *)
Definition os_build : os_state :=
  {| cwd := "/"; isdir := fun p => String.eqb p "build"; exists_ := fun _ => true;
     listdir := fun _ => Some []; expanduser := fun p => p |}.

(** A worker started in [/opt/sync] for the local root [/home/u/proj],
    in which the directory [new] has just been created. *)
Definition os_proj : os_state :=
  {| cwd := "/opt/sync";
     isdir := fun p => in_list p ["/home/u/proj"; "/home/u/proj/new"];
     exists_ := fun p => in_list p ["/home/u/proj"; "/home/u/proj/new"];
     listdir := fun p => Some [];
     expanduser := fun p => p |}.

Definition cfg_proj (sco : bool) : config :=
  {| name := "proj"; local_path := "/home/u/proj"; remote_path := "/srv/proj";
     exclude_patterns := []; source_code_only := sco;
     initial_sync_enabled := false; initial_sync_delete := false |}.

Definition add_watch_proj : inotify.add_watch_t :=
  fun p => if String.eqb p "/home/u/proj" then Some 1
           else if String.eqb p "/home/u/proj/new" then Some 2
           else None.

Definition wd_root : gmap Z string := {[ 1 := "/home/u/proj" ]}.

Definition created_dir (n : string) : inotify.event :=
  {| inotify.wd := 1; inotify.mask := Z.lor inotify.CREATE inotify.ISDIR;
     inotify.name := n |}.

Definition created_file (n : string) : inotify.event :=
  {| inotify.wd := 1; inotify.mask := inotify.CREATE; inotify.name := n |}.

Definition sftp_ok : sftp_t := fun _ => None.

(** A transport on which the upload of [a.py] is refused. *)
Definition sftp_deny : sftp_t :=
  fun a => match a with
           | Put "a.py" => Some PermissionError
           | _ => None
           end.

(** A session in which the directory [new] and then the file [a.py] are
    created in the local root. *)
Definition session_new_dir : session_input :=
  {| s_os := os_proj; s_add_watch := add_watch_proj; s_connect := None;
     s_listdir_attr := fun _ => inr FileNotFoundError; s_sftp := sftp_deny;
     s_local_map := ∅; s_fuel := 5%nat;
     s_reads := [inotify.Events [created_dir "new"; created_file "a.py"]] |}.

(** A remote root with the directories [a] and [node_modules] and the
    file [f.py]. *)
Definition listdir_tree : listdir_attr_t :=
  fun p => if String.eqb p "/srv/proj/"
           then inl [dir_attr "a"; dir_attr "node_modules"; file_attr "f.py" 7 100]
           else if String.eqb p "/srv/proj/a" then inl [file_attr "x.py" 5 100]
           else if String.eqb p "/srv/proj/node_modules"
           then inl [file_attr "z.py" 5 100]
           else inr FileNotFoundError.

Definition remote_tree_map : gmap string SFTPAttributes :=
  {[ "a" := dir_attr "a"; "a/x.py" := file_attr "x.py" 5 100;
     "f.py" := file_attr "f.py" 7 100 ]}.

(** A remote root with the directory [stale], which holds [x.log]. *)
Definition listdir_stale : listdir_attr_t :=
  fun p => if String.eqb p "/srv/proj/" then inl [dir_attr "stale"]
           else if String.eqb p "/srv/proj/stale" then inl [file_attr "x.log" 5 100]
           else inr FileNotFoundError.

Definition remote_stale_dir : gmap string SFTPAttributes :=
  {[ "stale" := dir_attr "stale" ]}.

(** What the server reports for a directory it created and for a file it
    received. *)
Definition made (p : string) : SFTPAttributes := dir_attr p.
Definition uploaded (p : string) : SFTPAttributes := file_attr p 10 100.

(** A transport on which [stale] cannot be removed: it is not empty. *)
Definition sftp_not_empty : sftp_t :=
  fun a => match a with
           | Rmdir "stale" => Some OSError
           | _ => None
           end.

(** A session in which two files are created in the local root. *)
Definition session_two_files (sftp : sftp_t) : session_input :=
  {| s_os := os_proj; s_add_watch := add_watch_proj; s_connect := None;
     s_listdir_attr := fun _ => inr FileNotFoundError; s_sftp := sftp;
     s_local_map := ∅; s_fuel := 5%nat;
     s_reads := [inotify.Events [created_file "a.py"; created_file "b.py"]] |}.

(** [f.txt] on both sides with the same size; the local copy was
    modified 1.5 seconds after the remote one. *)
Definition local_f (mtime : Q) : gmap string local_entry :=
  {[ "f.txt" := LocalFile mtime 10 ]}.

Definition remote_f : gmap string SFTPAttributes :=
  {[ "f.txt" := file_attr "f.txt" 10 11 ]}.

(** A remote root that holds the single file [old.log]. *)
Definition listdir_old_log : listdir_attr_t :=
  fun p => if String.eqb p "/srv/proj/" then inl [file_attr "old.log" 5 100]
           else inr FileNotFoundError.

(** Local [a/] and [a/x.py]; remote [stale/] and [stale/file]. *)
Definition local_a : gmap string local_entry :=
  {[ "a" := LocalDir; "a/x.py" := LocalFile 100 10 ]}.

Definition remote_stale : gmap string SFTPAttributes :=
  {[ "stale" := dir_attr "stale"; "stale/file" := file_attr "file" 5 100 ]}.

End Examples.

(** * Further parts of the program *)

(** ** PathFilter: what the callers pass *)

(** [n] dots. *)
Fixpoint dots (n : nat) : string :=
  match n with
  | O => EmptyString
  | S k => String "." (dots k)
  end.

(** ** RemoteTreeScanner: what the snapshot holds *)

(** The entry the scan stores at a path: an entry the filter keeps in a
    directory the scan lists, stored at its relative path. *)
Definition recorded_entry (os : os_state) (listdir_attr : listdir_attr_t)
    (remote_path : string) (exclude_patterns : list string)
    (source_code_only : bool) (p : string) (attr : SFTPAttributes) : Prop :=
  exists q entries,
    visited os listdir_attr remote_path exclude_patterns source_code_only q
    /\ listdir_attr (current_remote_path remote_path q) = inl entries
    /\ attr ∈ entries
    /\ remote_skipped os exclude_patterns source_code_only q attr = false
    /\ p = rel_item_path q attr.

(** What the loop keeps true of the stored attributes. *)
Definition entries_inv (os : os_state) (listdir_attr : listdir_attr_t)
    (remote_path : string) (exclude_patterns : list string)
    (source_code_only : bool)
    (st : gmap string SFTPAttributes * list string) : Prop :=
  (forall p attr, fst st !! p = Some attr ->
     recorded_entry os listdir_attr remote_path exclude_patterns source_code_only p attr)
  /\ (forall q, q ∈ snd st ->
        visited os listdir_attr remote_path exclude_patterns source_code_only q).

(** The same server, on which a directory that is missing is listed as an
    empty directory. *)
Definition missing_as_empty (listdir_attr : listdir_attr_t) : listdir_attr_t :=
  fun path =>
    match listdir_attr path with
    | inr FileNotFoundError => inl []
    | r => r
    end.

(** What the completed part of a scan has done: every entry the filter
    keeps in a directory of [done] is in the map, and when it is a
    directory it waits on the stack or is done itself. *)
Definition scan_done (os : os_state) (listdir_attr : listdir_attr_t)
    (remote_path : string) (exclude_patterns : list string)
    (source_code_only : bool)
    (st : gmap string SFTPAttributes * list string) (done : list string) : Prop :=
  ("" ∈ snd st \/ "" ∈ done)
  /\ forall q entries attr,
      q ∈ done ->
      listdir_attr (current_remote_path remote_path q) = inl entries ->
      attr ∈ entries ->
      remote_skipped os exclude_patterns source_code_only q attr = false ->
      rel_item_path q attr ∈ dom (fst st)
      /\ (S_ISDIR (st_mode attr) = true ->
          rel_item_path q attr ∈ snd st \/ rel_item_path q attr ∈ done).

(** ** LocalTreeScanner: step 1 of [perform_initial_sync] *)

(** What [os.walk] and [os.stat] read of the local filesystem. [scandir]
    gives the names of a directory, each with what [entry.is_dir()]
    answers, or [None] when the directory cannot be listed, which
    [os.walk] passes over in silence; [stat] gives [st_mtime] and
    [st_size], or raises. *)
Record local_fs := {
  scandir : string -> option (list (string * bool));
  islink : string -> bool;
  stat : string -> (Q * Z) + exn
}.

Section build_local_map.

Variable os : os_state.
Variable fs : local_fs.
Variable local_base : string.
Variable exclude_patterns : list string.
Variable source_code_only : bool.

(** [os.path.relpath(full_path, local_base)] *)
Definition rel_path_of (full_path : string) : string + exn :=
  match posixpath.relpath (cwd os) full_path local_base with
  | Some rel => inl rel
  | None => inr ValueError
  end.

(** [dirs[:] = [d for d in dirs if not is_excluded(... + os.sep, ..., False)]] *)
Fixpoint filter_dirs (root : string) (dirs : list string) : list string + exn :=
  match dirs with
  | [] => inl []
  | d :: rest =>
      match rel_path_of (posixpath.join root d) with
      | inr e => inr e
      | inl rel =>
          match filter_dirs root rest with
          | inr e => inr e
          | inl kept =>
              inl (if is_excluded os (rel +:+ "/") exclude_patterns false
                   then kept else d :: kept)
          end
      end
  end.

(** [for name in dirs: local_map[rel_path] = {'is_dir': True}] *)
Fixpoint record_dirs (root : string) (dirs : list string)
    (local_map : gmap string local_entry) : gmap string local_entry + exn :=
  match dirs with
  | [] => inl local_map
  | name :: rest =>
      match rel_path_of (posixpath.join root name) with
      | inr e => inr e
      | inl rel_path => record_dirs root rest (<[rel_path := LocalDir]> local_map)
      end
  end.

(** [for name in files: ...]: a file that is gone when it is stat'ed is
    passed over; another exception of [os.stat] leaves the function. *)
Fixpoint record_files (root : string) (files : list string)
    (local_map : gmap string local_entry) : gmap string local_entry + exn :=
  match files with
  | [] => inl local_map
  | name :: rest =>
      let full_path := posixpath.join root name in
      match rel_path_of full_path with
      | inr e => inr e
      | inl rel_path =>
          if negb (is_excluded os rel_path exclude_patterns source_code_only) then
            match stat fs full_path with
            | inl (mtime, size) =>
                record_files root rest (<[rel_path := LocalFile mtime size]> local_map)
            | inr FileNotFoundError => record_files root rest local_map
            | inr e => inr e
            end
          else record_files root rest local_map
      end
  end.

(** The descent of [os.walk] into the directories left in [dirs]; a
    symbolic link is not followed. [recurse] is the walk of a
    subdirectory. *)
Fixpoint walk_dirs
    (recurse : string -> gmap string local_entry
               -> option (gmap string local_entry + exn))
    (root : string) (dirs : list string) (local_map : gmap string local_entry)
  : option (gmap string local_entry + exn) :=
  match dirs with
  | [] => Some (inl local_map)
  | dirname :: rest =>
      let new_path := posixpath.join root dirname in
      if islink fs new_path then walk_dirs recurse root rest local_map
      else
        match recurse new_path local_map with
        | None => None
        | Some (inr e) => Some (inr e)
        | Some (inl local_map') => walk_dirs recurse root rest local_map'
        end
  end.

(** [for root, dirs, files in os.walk(local_base, topdown=True)], with the
    body of the loop run at each directory before the walk descends.
    [fuel] bounds the depth; [None]: it ran out. *)
Fixpoint walk_local (fuel : nat) (root : string) (local_map : gmap string local_entry)
  : option (gmap string local_entry + exn) :=
  match fuel with
  | O => None
  | S fuel' =>
      match scandir fs root with
      | None => Some (inl local_map)
      | Some entries =>
          let dirs := fst <$> List.filter snd entries in
          let files := fst <$> List.filter (fun e => negb (snd e)) entries in
          match filter_dirs root dirs with
          | inr e => Some (inr e)
          | inl dirs' =>
              match record_dirs root dirs' local_map with
              | inr e => Some (inr e)
              | inl local_map1 =>
                  match record_files root files local_map1 with
                  | inr e => Some (inr e)
                  | inl local_map2 =>
                      walk_dirs (walk_local fuel') root dirs' local_map2
                  end
              end
          end
      end
  end.

Definition build_local_map (fuel : nat) : option (gmap string local_entry + exn) :=
  walk_local fuel local_base ∅.

(** An entry of the local map and where it comes from. *)
Definition justified (rel_path : string) (e : local_entry) : Prop :=
  match e with
  | LocalDir =>
      exists full_path,
        rel_path_of full_path = inl rel_path
        /\ is_excluded os (rel_path +:+ "/") exclude_patterns false = false
  | LocalFile mtime size =>
      exists full_path,
        rel_path_of full_path = inl rel_path
        /\ stat fs full_path = inl (mtime, size)
        /\ is_excluded os rel_path exclude_patterns source_code_only = false
  end.

Definition all_justified (local_map : gmap string local_entry) : Prop :=
  forall rel_path e, local_map !! rel_path = Some e -> justified rel_path e.

End build_local_map.

(** [perform_initial_sync] with its step 1: the local map is built from
    the expanded local root, then the pass runs on it. An exception of
    step 1 leaves the function before anything is sent. *)
Definition perform_initial_sync_scan (os : os_state) (fs : local_fs)
    (listdir_attr : listdir_attr_t) (sftp : sftp_t) (cfg : config) (fuel : nat)
  : option (list output * option exn) :=
  match build_local_map os fs (expanduser os (local_path cfg))
                        (exclude_patterns cfg) (source_code_only cfg) fuel with
  | None => None
  | Some (inr e) => Some ([], Some e)
  | Some (inl local_map) =>
      perform_initial_sync os listdir_attr sftp cfg local_map fuel
  end.

(** The calls among the outputs, in order. *)
Definition calls_of (out : list output) : list action :=
  omap (fun o => match o with Call a => Some a | _ => None end) out.

Module MoreExamples.

(** The local root [/home/u/proj] with [main.py], [notes.txt] and the
    directories [src] (holding [app.py]) and [.git]. *)
Definition fs_proj : local_fs :=
  {| scandir := fun p =>
       if String.eqb p "/home/u/proj"
       then Some [("main.py", false); ("notes.txt", false); ("src", true); (".git", true)]
       else if String.eqb p "/home/u/proj/src" then Some [("app.py", false)]
       else if String.eqb p "/home/u/proj/.git" then Some [("config", false)]
       else None;
     islink := fun _ => false;
     stat := fun p =>
       if String.eqb p "/home/u/proj/main.py" then inl (100 # 1, 10)
       else if String.eqb p "/home/u/proj/src/app.py" then inl (101 # 1, 20)
       else inr FileNotFoundError |}.

Definition cfg_git : config :=
  {| name := "proj"; local_path := "/home/u/proj"; remote_path := "/srv/proj";
     exclude_patterns := [".git/"]; source_code_only := true;
     initial_sync_enabled := true; initial_sync_delete := false |}.

Definition local_proj_map : gmap string local_entry :=
  {[ "main.py" := LocalFile (100 # 1) 10; "src" := LocalDir;
     "src/app.py" := LocalFile (101 # 1) 20 ]}.

End MoreExamples.

(** ** The watch registry: what is registered *)

(** A path and the handle it can be registered under: the path exists,
    the filter of [add_watch_recursively] keeps it, and the event source
    gives the handle for it. *)
Definition watchable (cfg : config) (os : os_state) (add_watch : inotify.add_watch_t)
    (path : string) (w : Z) : Prop :=
  exists_ os path = true
  /\ add_watch path = Some w
  /\ exists rel,
      posixpath.relpath (cwd os) path (local_path cfg) = Some rel
      /\ is_excluded os ((if String.eqb rel "." then "" else rel) +:+ "/")
                     (exclude_patterns cfg)
                     (negb (isdir os path) && source_code_only cfg) = false.


(** Every entry of [m] is one of [base] or was registered. *)
Definition from_or_registered (cfg : config) (os : os_state)
    (add_watch : inotify.add_watch_t) (base m : gmap Z string) : Prop :=
  forall w p, m !! w = Some p -> base !! w = Some p \/ watchable cfg os add_watch p w.

(** A transport on which every [mkdir] is refused. *)
Definition sftp_no_mkdir : sftp_t :=
  fun a => match a with Mkdir _ => Some PermissionError | _ => None end.

(** The lines and effects of the worker itself among the outputs. *)
Definition worker_part (out : list cm_output) : list output :=
  omap (fun o => match o with Worker o => Some o | Client _ => None end) out.

Definition is_connection_lost (o : output) : bool :=
  match o with
  | Log (ConnectionLost _) => true
  | _ => false
  end.

(** ** Further examples *)

Module Cases.

(** A target that mirrors: reconciliation on, deletion permitted. *)
Definition cfg_mirror : config :=
  {| name := "proj"; local_path := "/home/u/proj"; remote_path := "/srv/proj";
     exclude_patterns := []; source_code_only := false;
     initial_sync_enabled := true; initial_sync_delete := true |}.

(** An empty remote root. *)
Definition listdir_empty : listdir_attr_t :=
  fun p => if String.eqb p "/srv/proj/" then inl [] else inr FileNotFoundError.

(** A remote root with the directory [stale], which holds [file]. *)
Definition listdir_stale_file : listdir_attr_t :=
  fun p => if String.eqb p "/srv/proj/" then inl [Examples.dir_attr "stale"]
           else if String.eqb p "/srv/proj/stale"
           then inl [Examples.file_attr "file" 5 100]
           else inr FileNotFoundError.

(** A remote root with the directory [node_modules] and, beside it, a file
    whose name is written with a backslash. *)
Definition backslash_attr : SFTPAttributes :=
  Examples.file_attr "node_modules\evil.js" 5 100.

Definition listdir_backslash : listdir_attr_t :=
  fun p => if String.eqb p "/srv/proj/"
           then inl [Examples.dir_attr "node_modules"; backslash_attr]
           else if String.eqb p "/srv/proj/node_modules"
           then inl [Examples.file_attr "z.js" 5 100]
           else inr FileNotFoundError.

(** A local root with the directory [a] and, beside it, a file whose name
    is written with a backslash. *)
Definition local_backslash : gmap string local_entry :=
  {[ "a" := LocalDir; "a\b" := LocalFile 100 10 ]}.

(** The directory [real] of the local root has been renamed to [moved]:
    the watch follows the directory, so the event source gives the handle
    of [real] for [moved]. *)
Definition os_renamed : os_state :=
  {| cwd := "/opt/sync";
     isdir := fun p => in_list p ["/home/u/proj"; "/home/u/proj/moved"];
     exists_ := fun p => in_list p ["/home/u/proj"; "/home/u/proj/moved"];
     listdir := fun p => Some [];
     expanduser := fun p => p |}.

Definition add_watch_renamed : inotify.add_watch_t :=
  fun p => if String.eqb p "/home/u/proj" then Some 1
           else if String.eqb p "/home/u/proj/moved" then Some 2
           else None.

Definition wd_real : gmap Z string :=
  {[ 1 := "/home/u/proj"; 2 := "/home/u/proj/real" ]}.

Definition moved_out_dir (n : string) : inotify.event :=
  {| inotify.wd := 1; inotify.mask := Z.lor inotify.MOVED_FROM inotify.ISDIR;
     inotify.name := n |}.

Definition moved_in_dir (n : string) : inotify.event :=
  {| inotify.wd := 1; inotify.mask := Z.lor inotify.MOVED_TO inotify.ISDIR;
     inotify.name := n |}.

Definition session_renamed : session_input :=
  {| s_os := os_renamed; s_add_watch := add_watch_renamed; s_connect := None;
     s_listdir_attr := fun _ => inr FileNotFoundError; s_sftp := Examples.sftp_ok;
     s_local_map := ∅; s_fuel := 5%nat;
     s_reads := [inotify.Events [moved_out_dir "real"; moved_in_dir "moved"]] |}.

End Cases.

(** * Properties *)

(** ** PathFilter *)

Section path_filter.

Lemma is_excluded_pattern os path pats sco :
  matches_any path pats = true -> is_excluded os path pats sco = true.
Proof. intros H. unfold is_excluded. now rewrite H. Qed.

Lemma is_excluded_flag_off os path pats :
  is_excluded os path pats false = matches_any path pats.
Proof. unfold is_excluded. now destruct (matches_any path pats). Qed.

Lemma is_excluded_flag_on os path pats :
  matches_any path pats = false ->
  is_excluded os path pats true =
    if isdir os path then false
    else negb (in_list (Str.lower (posixpath.splitext_ext (posixpath.basename path)))
                       SOURCE_CODE_EXTENSIONS).
Proof.
  intros H. unfold is_excluded. rewrite H.
  destruct (isdir os path); [reflexivity|]. now destruct (negb _).
Qed.

End path_filter.

(** C4, as stated, fails: with the flag on and no pattern matching, the
    answer for one and the same path, rule set and flag changes with the
    state of the local filesystem, which [os.path.isdir] reads. *)
Lemma is_excluded_reads_filesystem :
  ~ (forall (os1 os2 : os_state) path pats sco,
        is_excluded os1 path pats sco = is_excluded os2 path pats sco).
Proof.
  intros H.
  specialize (H Examples.os_plain Examples.os_build "build" [] true).
  vm_compute in H. discriminate H.
Qed.

(** C4, amended: the result is a function of the path, the rule set, the
    flag and, only when the flag is on and no pattern matches, of what the
    local filesystem answers to [os.path.isdir(path)]. *)
Theorem is_excluded_deterministic (os1 os2 : os_state) path pats sco :
  (sco = true -> matches_any path pats = false -> isdir os1 path = isdir os2 path) ->
  is_excluded os1 path pats sco = is_excluded os2 path pats sco.
Proof.
  intros H. destruct sco.
  - destruct (matches_any path pats) eqn:Hm.
    + now rewrite !is_excluded_pattern.
    + rewrite !is_excluded_flag_on by assumption. now rewrite H.
  - now rewrite !is_excluded_flag_off.
Qed.

Lemma is_excluded_deterministic_witness :
  is_excluded Examples.os_plain "notes.txt" ["*.log"] true
  = is_excluded Examples.os_build "notes.txt" ["*.log"] true.
Proof.
  apply (is_excluded_deterministic Examples.os_plain Examples.os_build
           "notes.txt" ["*.log"] true).
  intros _ _. reflexivity.
Defined.

(** C1, the code at the failing input: with source-code-only on, the
    creation event of the directory [new] is discarded by the extension
    rule (no call, no watch), while with the flag off the same event
    creates the remote directory and registers the watch. *)
Theorem directory_event_discarded_by_extension_rule :
  process_event (Examples.cfg_proj true) Examples.os_proj Examples.add_watch_proj
                Examples.sftp_ok 5 "/home/u/proj" Examples.wd_root
                (Examples.created_dir "new")
  = Some (Examples.wd_root, [], None)
  /\ process_event (Examples.cfg_proj false) Examples.os_proj Examples.add_watch_proj
                   Examples.sftp_ok 5 "/home/u/proj" Examples.wd_root
                   (Examples.created_dir "new")
     = Some (<[2 := "/home/u/proj/new"]> Examples.wd_root, [Call (Mkdir "new")], None)
  /\ is_excluded Examples.os_proj "new/" [] true = true
  /\ is_excluded Examples.os_proj "new/" [] false = false.
Proof. repeat split; vm_compute; reflexivity. Qed.

(** ** Reconciler *)

Section int_of_float.



End int_of_float.

Section reconcile_facts.

Variable local_map : gmap string local_entry.
Variable remote_map : gmap string SFTPAttributes.

Lemma elem_of_sorted (R : relation string) `{!RelDecision R} (l : list string) x :
  x ∈ merge_sort R l <-> x ∈ l.
Proof. now rewrite merge_sort_Permutation. Qed.

Lemma elem_of_create_actions a :
  a ∈ create_actions local_map remote_map <->
  action_path a ∈ to_upload local_map remote_map
  /\ a = create_action local_map (action_path a).
Proof.
  unfold create_actions. rewrite list_elem_of_fmap. split.
  - intros (p & -> & Hp). apply elem_of_sorted, elem_of_elements in Hp.
    assert (action_path (create_action local_map p) = p) as ->
        by (unfold create_action; now destruct (local_is_dir local_map p)).
    auto.
  - intros [Hp Ha]. exists (action_path a). split; [assumption|].
    now apply elem_of_sorted, elem_of_elements.
Qed.

Lemma elem_of_update_actions a :
  a ∈ update_actions local_map remote_map <->
  action_path a ∈ to_check local_map remote_map
  /\ needs_update local_map remote_map (action_path a) = true
  /\ a = Put (action_path a).
Proof.
  unfold update_actions. rewrite list_elem_of_fmap. split.
  - intros (p & -> & Hp). simpl.
    apply list_elem_of_In, filter_In in Hp. destruct Hp as [Hp Hn].
    apply list_elem_of_In, elem_of_elements in Hp. auto.
  - intros (Hp & Hn & Ha). exists (action_path a). split; [assumption|].
    apply list_elem_of_In, filter_In. split; [|assumption].
    now apply list_elem_of_In, elem_of_elements.
Qed.

Lemma elem_of_delete_actions allow a :
  a ∈ delete_actions local_map remote_map allow <->
  allow = true
  /\ action_path a ∈ to_delete local_map remote_map
  /\ a = delete_action remote_map (action_path a).
Proof.
  unfold delete_actions. destruct allow.
  - rewrite list_elem_of_fmap. split.
    + intros (p & -> & Hp). apply elem_of_sorted, elem_of_elements in Hp.
      assert (action_path (delete_action remote_map p) = p) as ->
          by (unfold delete_action; now destruct (remote_is_dir remote_map p)).
      auto.
    + intros (_ & Hp & Ha). exists (action_path a). split; [assumption|].
      now apply elem_of_sorted, elem_of_elements.
  - split; [intros H; inversion H | intros [H _]; discriminate H].
Qed.

Lemma elem_of_initial_sync_actions allow a :
  a ∈ initial_sync_actions local_map remote_map allow <->
  a ∈ create_actions local_map remote_map
  \/ a ∈ update_actions local_map remote_map
  \/ a ∈ delete_actions local_map remote_map allow.
Proof. unfold initial_sync_actions. now rewrite !elem_of_app. Qed.

(** On a path present on both sides the only call is the upload of a
    modified file. *)
Lemma action_on_common_path allow a :
  action_path a ∈ dom local_map -> action_path a ∈ dom remote_map ->
  a ∈ initial_sync_actions local_map remote_map allow <->
  a = Put (action_path a)
  /\ needs_update local_map remote_map (action_path a) = true.
Proof.
  intros Hl Hr. rewrite elem_of_initial_sync_actions,
    elem_of_create_actions, elem_of_update_actions, elem_of_delete_actions.
  unfold to_upload, to_check, to_delete. split.
  - intros [[H _] | [(_ & Hn & Ha) | (_ & H & _)]].
    + apply elem_of_difference in H. tauto.
    + auto.
    + apply elem_of_difference in H. tauto.
  - intros [Ha Hn]. right; left. repeat split; [|assumption..].
    apply elem_of_intersection. auto.
Qed.

End reconcile_facts.




Section run_actions_facts.

Lemma run_actions_calls sftp calls out r a :
  run_actions sftp calls = (out, r) -> Call a ∈ out -> a ∈ calls.
Proof.
  revert out r. induction calls as [|c calls IH]; intros out r; simpl.
  - intros [= <- <-] H. inversion H.
  - destruct (sftp c) as [e|].
    + destruct (is_Exception e).
      * destruct (run_actions sftp calls) as [out' r'] eqn:Hrun.
        intros [= <- <-] H.
        rewrite !elem_of_cons in H. destruct H as [[= ->] | [[=] | H]].
        -- left.
        -- right. eapply IH; [reflexivity | exact H].
      * intros [= <- <-] H. apply list_elem_of_singleton in H as [= ->]. left.
    + destruct (run_actions sftp calls) as [out' r'] eqn:Hrun.
      intros [= <- <-] H.
      rewrite elem_of_cons in H. destruct H as [[= ->] | H].
      * left.
      * right. eapply IH; [reflexivity | exact H].
Qed.

End run_actions_facts.



(** *** The order of the calls *)

Section sorted_order.

Lemma length_app (s t : string) :
  String.length (s +:+ t) = (String.length s + String.length t)%nat.
Proof. induction s as [|c s IH]; simpl; [reflexivity | now rewrite IH]. Qed.

Lemma compare_prefix (a s : string) : String.compare a (a +:+ s) <> Gt.
Proof.
  induction a as [|c a IH]; simpl.
  - now destruct s.
  - unfold Ascii.compare. rewrite N.compare_refl. exact IH.
Qed.

(** A string is not above any string it is a prefix of. *)
Lemma le_prefix (a s : string) : String.le a (a +:+ s).
Proof.
  unfold String.le, String.leb.
  pose proof (compare_prefix a s).
  now destruct (String.compare a (a +:+ s)).
Qed.

Lemma ancestor_le a b : is_ancestor a b -> String.le a b.
Proof. intros [rest ->]. apply le_prefix. Qed.

Lemma ancestor_ne a b : is_ancestor a b -> a <> b.
Proof.
  intros [rest ->] H. apply (f_equal String.length) in H.
  rewrite !length_app in H. simpl in H. lia.
Qed.

Context (R : relation string) `{!RelDecision R} `{!Transitive R}
        `{!Total R} `{!AntiSymm (=) R}.

(** In the sorted list, of two distinct related members the smaller one
    comes first. *)
Lemma sorted_before (l : list string) a b :
  a ∈ l -> b ∈ l -> R a b -> a <> b ->
  exists l1 l2 l3, merge_sort R l = l1 ++ a :: l2 ++ b :: l3.
Proof.
  intros Ha Hb Hab Hne.
  pose proof (StronglySorted_merge_sort R l) as Hs.
  apply (elem_of_sorted R) in Ha, Hb.
  destruct (list_elem_of_split _ _ Ha) as (l1 & r & Heq).
  rewrite Heq in Hs, Hb |- *.
  apply elem_of_app in Hb. destruct Hb as [Hb | Hb].
  - exfalso. apply Hne. apply (anti_symm R); [assumption|].
    eapply (StronglySorted_app_1_elem_of R l1 (a :: r)); [exact Hs | exact Hb | left].
  - apply elem_of_cons in Hb. destruct Hb as [-> | Hb]; [congruence|].
    destruct (list_elem_of_split _ _ Hb) as (l2 & l3 & ->).
    now exists l1, l2, l3.
Qed.

End sorted_order.

#[local] Instance flip_le_total : Total (flip String.le).
Proof. intros x y. destruct (total String.le x y); [right | left]; assumption. Qed.

#[local] Instance flip_le_antisymm : AntiSymm (=) (flip String.le).
Proof. intros x y H1 H2. now apply (anti_symm String.le). Qed.

#[local] Instance create_action_inj local_map : Inj (=) (=) (create_action local_map).
Proof.
  intros p q. unfold create_action.
  destruct (local_is_dir local_map p), (local_is_dir local_map q); congruence.
Qed.

#[local] Instance delete_action_inj remote_map : Inj (=) (=) (delete_action remote_map).
Proof.
  intros p q. unfold delete_action.
  destruct (remote_is_dir remote_map p), (remote_is_dir remote_map q); congruence.
Qed.

#[local] Instance Put_inj : Inj (=) (=) Put.
Proof. intros p q. congruence. Qed.

(** No call is issued twice in one pass. *)
Lemma initial_sync_actions_NoDup local_map remote_map allow :
  NoDup (initial_sync_actions local_map remote_map allow).
Proof.
  assert (Hsort : forall (R : relation string) `{!RelDecision R} (X : gset string),
             NoDup (merge_sort R (elements X))).
  { intros R ? X. rewrite merge_sort_Permutation. apply NoDup_elements. }
  unfold initial_sync_actions. apply NoDup_app. split; [|split].
  - unfold create_actions. apply (NoDup_fmap_2 _), Hsort.
  - intros a Ha Hb. apply elem_of_create_actions in Ha as [Ha _].
    unfold to_upload in Ha. apply elem_of_difference in Ha.
    apply elem_of_app in Hb as [Hb | Hb].
    + apply elem_of_update_actions in Hb as [Hb _].
      unfold to_check in Hb. apply elem_of_intersection in Hb. tauto.
    + apply elem_of_delete_actions in Hb as (_ & Hb & _).
      unfold to_delete in Hb. apply elem_of_difference in Hb. tauto.
  - apply NoDup_app. split; [|split].
    + unfold update_actions. apply (NoDup_fmap_2 _).
      apply NoDup_ListNoDup, List.NoDup_filter, NoDup_ListNoDup, NoDup_elements.
    + intros a Ha Hb. apply elem_of_update_actions in Ha as [Ha _].
      unfold to_check in Ha. apply elem_of_intersection in Ha.
      apply elem_of_delete_actions in Hb as (_ & Hb & _).
      unfold to_delete in Hb. apply elem_of_difference in Hb. tauto.
    + unfold delete_actions. destruct allow; [|constructor].
      apply (NoDup_fmap_2 _), Hsort.
Qed.

(** Of two paths of the create set, one a slash-delimited ancestor of the
    other, the ancestor's call comes first in the plan. *)
Lemma create_actions_order local_map remote_map allow a b :
  a ∈ to_upload local_map remote_map ->
  b ∈ to_upload local_map remote_map ->
  is_ancestor a b ->
  exists l1 l2 l3,
    initial_sync_actions local_map remote_map allow
    = l1 ++ create_action local_map a :: l2 ++ create_action local_map b :: l3.
Proof.
  intros Ha Hb Hanc.
  destruct (sorted_before String.le (elements (to_upload local_map remote_map)) a b)
    as (l1 & l2 & l3 & Heq).
  - now apply elem_of_elements.
  - now apply elem_of_elements.
  - now apply ancestor_le.
  - now apply ancestor_ne.
  - exists (create_action local_map <$> l1), (create_action local_map <$> l2),
      ((create_action local_map <$> l3)
         ++ update_actions local_map remote_map
         ++ delete_actions local_map remote_map allow).
    unfold initial_sync_actions, create_actions. rewrite Heq.
    rewrite fmap_app, fmap_cons, fmap_app, fmap_cons.
    repeat (rewrite <- app_assoc; simpl). reflexivity.
Qed.

(** Of two paths of the remove set, one a slash-delimited ancestor of the
    other, the descendant's call comes first in the plan. *)
Lemma delete_actions_order local_map remote_map a b :
  a ∈ to_delete local_map remote_map ->
  b ∈ to_delete local_map remote_map ->
  is_ancestor a b ->
  exists l1 l2 l3,
    initial_sync_actions local_map remote_map true
    = l1 ++ delete_action remote_map b :: l2 ++ delete_action remote_map a :: l3.
Proof.
  intros Ha Hb Hanc.
  destruct (sorted_before (flip String.le)
              (elements (to_delete local_map remote_map)) b a)
    as (l1 & l2 & l3 & Heq).
  - now apply elem_of_elements.
  - now apply elem_of_elements.
  - now apply ancestor_le.
  - intros ->. now apply (ancestor_ne a a).
  - exists (create_actions local_map remote_map
              ++ update_actions local_map remote_map
              ++ (delete_action remote_map <$> l1)),
      (delete_action remote_map <$> l2), (delete_action remote_map <$> l3).
    unfold initial_sync_actions, delete_actions. rewrite Heq.
    rewrite fmap_app, fmap_cons, fmap_app, fmap_cons.
    repeat (rewrite <- app_assoc; simpl). reflexivity.
Qed.

(** ** EventTranslator and ConnectionSupervisor *)

Section event_loop_facts.

Variable cfg : config.
Variable os : os_state.
Variable add_watch : inotify.add_watch_t.
Variable sftp : sftp_t.
Variable fuel : nat.
Variable local_path : string.



End event_loop_facts.

(** *** The watch registry *)

Section registry_facts.

Variable cfg : config.
Variable os : os_state.
Variable add_watch : inotify.add_watch_t.

Lemma watch_children_dom recurse path items :
  (forall p w m r, recurse p w = Some (m, r) -> dom w ⊆ dom m) ->
  forall wd_map m r,
    watch_children os recurse path items wd_map = Some (m, r) ->
    dom wd_map ⊆ dom m.
Proof.
  intros Hrec. induction items as [|item items IH]; intros wd_map m r; simpl.
  - now intros [= <- <-].
  - destruct (isdir os (posixpath.join path item)); [|apply IH].
    destruct (recurse (posixpath.join path item) wd_map)
      as [[m1 [e|]]|] eqn:Hchild; [| |discriminate].
    + apply Hrec in Hchild.
      destruct (is_Exception e); now intros [= <- <-].
    + apply Hrec in Hchild. intros H. apply IH in H.
      now transitivity (dom m1).
Qed.

Lemma add_watch_recursively_dom fuel :
  forall path wd_map m r,
    add_watch_recursively cfg os add_watch fuel path wd_map = Some (m, r) ->
    dom wd_map ⊆ dom m.
Proof.
  induction fuel as [|fuel IH]; intros path wd_map m r; simpl; [discriminate|].
  destruct (negb (exists_ os path)); [now intros [= <- <-]|].
  destruct (posixpath.relpath _ _ _) as [rel|]; [|now intros [= <- <-]].
  destruct (is_excluded _ _ _ _); [now intros [= <- <-]|].
  destruct (add_watch path) as [w|]; [|now intros [= <- <-]].
  assert (Hins : dom wd_map ⊆ dom (<[w := path]> wd_map))
    by (rewrite dom_insert_L; apply union_subseteq_r).
  destruct (listdir os path) as [items|]; [|now intros [= <- <-]].
  intros H. apply (watch_children_dom _ _ _ IH) in H.
  now transitivity (dom (<[w := path]> wd_map)).
Qed.

Hypothesis Hone : one_handle_per_path add_watch.

Lemma insert_agrees w path wd_map :
  add_watch path = Some w -> agrees add_watch wd_map ->
  wd_map ⊆ <[w := path]> wd_map /\ agrees add_watch (<[w := path]> wd_map).
Proof.
  intros Hw Hag. split.
  - destruct (wd_map !! w) as [p'|] eqn:Hl.
    + rewrite (Hag _ _ _ Hw Hl) in Hl. now rewrite insert_id.
    + now apply insert_subseteq.
  - intros p w' p' Hp Hl. destruct (decide (w = w')) as [<- | Hne].
    + rewrite lookup_insert_eq in Hl. injection Hl as <-. now apply (Hone _ _ w).
    + rewrite lookup_insert_ne in Hl by assumption. now apply (Hag _ w').
Qed.

Lemma watch_children_submap recurse path items :
  (forall p w m r, recurse p w = Some (m, r) -> agrees add_watch w ->
                   w ⊆ m /\ agrees add_watch m) ->
  forall wd_map m r,
    watch_children os recurse path items wd_map = Some (m, r) ->
    agrees add_watch wd_map ->
    wd_map ⊆ m /\ agrees add_watch m.
Proof.
  intros Hrec. induction items as [|item items IH]; intros wd_map m r; simpl.
  - intros [= <- <-]. auto.
  - destruct (isdir os (posixpath.join path item)); [|apply IH].
    destruct (recurse (posixpath.join path item) wd_map)
      as [[m1 [e|]]|] eqn:Hchild; [| |discriminate].
    + intros H Hag. apply Hrec in Hchild; [|assumption].
      destruct (is_Exception e); now injection H as <- <-.
    + intros H Hag. destruct (Hrec _ _ _ _ Hchild Hag) as [Hs1 Hag1].
      destruct (IH _ _ _ H Hag1) as [Hs2 Hag2].
      split; [now transitivity m1 | assumption].
Qed.

(** With such an event source, registering watches keeps every entry of
    the registry as it is. *)
Lemma add_watch_recursively_submap fuel :
  forall path wd_map m r,
    add_watch_recursively cfg os add_watch fuel path wd_map = Some (m, r) ->
    agrees add_watch wd_map ->
    wd_map ⊆ m /\ agrees add_watch m.
Proof.
  induction fuel as [|fuel IH]; intros path wd_map m r; simpl; [discriminate|].
  destruct (negb (exists_ os path)); [intros [= <- <-]; auto|].
  destruct (posixpath.relpath _ _ _) as [rel|]; [|intros [= <- <-]; auto].
  destruct (is_excluded _ _ _ _); [intros [= <- <-]; auto|].
  destruct (add_watch path) as [w|] eqn:Hw; [|intros [= <- <-]; auto].
  intros H Hag. destruct (insert_agrees w path wd_map Hw Hag) as [Hs1 Hag1].
  destruct (listdir os path) as [items|].
  - destruct (watch_children_submap _ _ _ IH _ _ _ H Hag1) as [Hs2 Hag2].
    split; [now transitivity (<[w := path]> wd_map) | assumption].
  - injection H as <- <-. auto.
Qed.

Variable sftp : sftp_t.
Variable fuel : nat.
Variable local_path : string.

Lemma process_event_unknown wd_map ev :
  wd_map !! inotify.wd ev = None ->
  process_event cfg os add_watch sftp fuel local_path wd_map ev
  = Some (wd_map, [], None).
Proof. intros H. unfold process_event. now rewrite H. Qed.

(** Only the creation (or move in) of a directory changes the registry. *)
Lemma process_event_same wd_map ev m out r :
  (inotify.has ev (Z.lor inotify.CREATE inotify.MOVED_TO)
   && inotify.has ev inotify.ISDIR)%bool = false ->
  process_event cfg os add_watch sftp fuel local_path wd_map ev = Some (m, out, r) ->
  m = wd_map.
Proof.
  unfold process_event, live_call. intros Hk.
  destruct (wd_map !! inotify.wd ev); [|now intros [= <- <- <-]].
  destruct (posixpath.relpath _ _ _); [|now intros [= <- <- <-]].
  destruct (is_excluded _ _ _ _); [now intros [= <- <- <-]|].
  destruct (inotify.has ev (Z.lor inotify.CREATE inotify.MOVED_TO));
    destruct (inotify.has ev inotify.ISDIR); try discriminate Hk; simpl;
    repeat match goal with
           | |- context [if ?b then _ else _] => destruct b
           end; now intros [= <- <- <-].
Qed.

Lemma process_event_dom wd_map ev m out r :
  process_event cfg os add_watch sftp fuel local_path wd_map ev = Some (m, out, r) ->
  dom wd_map ⊆ dom m.
Proof.
  destruct (inotify.has ev (Z.lor inotify.CREATE inotify.MOVED_TO)
            && inotify.has ev inotify.ISDIR)%bool eqn:Hk.
  - apply andb_true_iff in Hk as [Hc Hd].
    unfold process_event. rewrite Hc, Hd.
    destruct (wd_map !! inotify.wd ev); [|now intros [= <- <- <-]].
    destruct (posixpath.relpath _ _ _); [|now intros [= <- <- <-]].
    destruct (is_excluded _ _ _ _); [now intros [= <- <- <-]|].
    destruct (sftp _); [now intros [= <- <- <-]|].
    destruct (add_watch_recursively _ _ _ _ _ _) as [[m1 r1]|] eqn:Hw;
      [|discriminate].
    intros [= <- <- <-]. eapply add_watch_recursively_dom, Hw.
  - intros H. now rewrite (process_event_same _ _ _ _ _ Hk H).
Qed.

Lemma process_events_dom events :
  forall wd_map m out r,
    process_events cfg os add_watch sftp fuel local_path events wd_map = Some (m, out, r) ->
    dom wd_map ⊆ dom m.
Proof.
  induction events as [|ev events IH]; intros wd_map m out r; simpl.
  - now intros [= <- <- <-].
  - destruct (process_event _ _ _ _ _ _ wd_map ev) as [[[m1 o1] r1]|] eqn:Hev;
      [|discriminate].
    apply process_event_dom in Hev.
    destruct r1; [now intros [= <- <- <-]|].
    destruct (process_events _ _ _ _ _ _ events m1) as [[[m2 o2] r2]|] eqn:Hrest;
      [|discriminate].
    apply IH in Hrest. intros [= <- <- <-]. now transitivity (dom m1).
Qed.

Lemma watching_dom reads :
  forall wd_map m out r,
    watching cfg os add_watch sftp fuel local_path reads wd_map = Some (m, out, r) ->
    dom wd_map ⊆ dom m.
Proof.
  induction reads as [|[events|e] reads IH]; intros wd_map m out r; simpl;
    [now intros [= <- <- <-] | | now intros [= <- <- <-]].
  destruct (process_events _ _ _ _ _ _ events wd_map) as [[[m1 o1] r1]|] eqn:Hev;
    [|discriminate].
  apply process_events_dom in Hev.
  destruct r1; [now intros [= <- <- <-]|].
  destruct (watching _ _ _ _ _ _ reads m1) as [[[m2 o2] r2]|] eqn:Hrest;
    [|discriminate].
  apply IH in Hrest. intros [= <- <- <-]. now transitivity (dom m1).
Qed.

End registry_facts.

(** *** Running the pass twice *)

Section second_pass.

Variable made : string -> SFTPAttributes.
Variable uploaded : string -> SFTPAttributes.

Local Abbreviation outcome := (outcome made uploaded).

Lemma effect_lookup m a :
  effect made uploaded m a !! landed (action_path a) = outcome a.
Proof.
  destruct a; simpl; rewrite ?lookup_insert_eq, ?lookup_delete_eq; reflexivity.
Qed.

Lemma effect_lookup_ne m a p :
  landed (action_path a) <> p -> effect made uploaded m a !! p = m !! p.
Proof.
  intros H. destruct a; simpl in *;
    rewrite ?lookup_insert_ne, ?lookup_delete_ne by assumption; reflexivity.
Qed.

Lemma remote_after_ok sftp calls :
  (forall a, a ∈ calls -> sftp a = None) ->
  forall m, remote_after made uploaded sftp calls m
            = fold_left (effect made uploaded) calls m.
Proof.
  unfold remote_after. induction calls as [|a calls IH]; intros Hok m; simpl.
  - reflexivity.
  - unfold attempt at 2. rewrite (Hok a) by left.
    apply IH. intros b Hb. apply Hok. now right.
Qed.

Lemma effects_lookup_notin calls : forall m p,
  p ∉ (fun a => landed (action_path a)) <$> calls ->
  fold_left (effect made uploaded) calls m !! p = m !! p.
Proof.
  induction calls as [|a calls IH]; intros m p Hp; simpl; [reflexivity|].
  rewrite fmap_cons, not_elem_of_cons in Hp. destruct Hp as [Hne Hp].
  rewrite IH by assumption. apply effect_lookup_ne. congruence.
Qed.

Lemma effects_lookup_in calls : forall m a,
  NoDup ((fun a => landed (action_path a)) <$> calls) -> a ∈ calls ->
  fold_left (effect made uploaded) calls m !! landed (action_path a) = outcome a.
Proof.
  induction calls as [|c calls IH]; intros m a Hnd Ha; [inversion Ha|].
  rewrite fmap_cons in Hnd. apply NoDup_cons in Hnd as [Hc Hnd].
  simpl. apply elem_of_cons in Ha as [-> | Ha].
  - rewrite effects_lookup_notin by assumption. apply effect_lookup.
  - now apply IH.
Qed.

End second_pass.

Section reconcile_paths.

Variable local_map : gmap string local_entry.
Variable remote_map : gmap string SFTPAttributes.

Lemma create_action_path p : action_path (create_action local_map p) = p.
Proof. unfold create_action. now destruct (local_is_dir local_map p). Qed.

Lemma delete_action_path p : action_path (delete_action remote_map p) = p.
Proof. unfold delete_action. now destruct (remote_is_dir remote_map p). Qed.

Lemma fmap_path_id (f : string -> action) (l : list string) :
  (forall p, action_path (f p) = p) -> action_path <$> (f <$> l) = l.
Proof.
  intros H. induction l as [|x l IH]; [reflexivity|].
  rewrite !fmap_cons, H. f_equal. exact IH.
Qed.

(** Each path has at most one call in a pass. *)
Lemma initial_sync_paths_NoDup allow :
  NoDup (action_path <$> initial_sync_actions local_map remote_map allow).
Proof.
  assert (Hin : forall p, p ∈ action_path <$> initial_sync_actions local_map remote_map allow
                -> exists a, a ∈ initial_sync_actions local_map remote_map allow
                             /\ action_path a = p).
  { intros p Hp. apply list_elem_of_fmap in Hp as (a & -> & Ha). eauto. }
  unfold initial_sync_actions in *. rewrite !fmap_app.
  unfold create_actions, update_actions, delete_actions.
  rewrite (fmap_path_id _ _ create_action_path).
  rewrite (fmap_path_id Put) by reflexivity.
  assert (Hsort : forall (R : relation string) `{!RelDecision R} (X : gset string),
             NoDup (merge_sort R (elements X))).
  { intros R ? X. rewrite merge_sort_Permutation. apply NoDup_elements. }
  apply NoDup_app. split; [apply Hsort | split].
  - intros p Hp Hq. apply elem_of_sorted, elem_of_elements in Hp.
    unfold to_upload in Hp. apply elem_of_difference in Hp.
    apply elem_of_app in Hq as [Hq | Hq].
    + apply list_elem_of_In, filter_In in Hq as [Hq _].
      apply list_elem_of_In, elem_of_elements in Hq.
      unfold to_check in Hq. apply elem_of_intersection in Hq. tauto.
    + destruct allow; [|inversion Hq].
      rewrite (fmap_path_id _ _ delete_action_path) in Hq.
      apply elem_of_sorted, elem_of_elements in Hq.
      unfold to_delete in Hq. apply elem_of_difference in Hq. tauto.
  - apply NoDup_app. split; [|split].
    + apply NoDup_ListNoDup, List.NoDup_filter, NoDup_ListNoDup, NoDup_elements.
    + intros p Hp Hq.
      apply list_elem_of_In, filter_In in Hp as [Hp _].
      apply list_elem_of_In, elem_of_elements in Hp.
      unfold to_check in Hp. apply elem_of_intersection in Hp.
      destruct allow; [|inversion Hq].
      rewrite (fmap_path_id _ _ delete_action_path) in Hq.
      apply elem_of_sorted, elem_of_elements in Hq.
      unfold to_delete in Hq. apply elem_of_difference in Hq. tauto.
    + destruct allow; [|constructor].
      rewrite (fmap_path_id _ _ delete_action_path). apply Hsort.
Qed.

End reconcile_paths.

Lemma filter_none {A} (f : A -> bool) (l : list A) :
  (forall x, x ∈ l -> f x = false) -> List.filter f l = [].
Proof.
  induction l as [|x l IH]; intros H; simpl; [reflexivity|].
  rewrite (H x) by left. apply IH. intros y Hy. apply H. now right.
Qed.

Section second_pass_empty.

Variable made : string -> SFTPAttributes.
Variable uploaded : string -> SFTPAttributes.
Variable local_map : gmap string local_entry.
Variable remote_map : gmap string SFTPAttributes.
Variable allow : bool.

Let plan := initial_sync_actions local_map remote_map allow.
Let remote' := fold_left (effect made uploaded) plan remote_map.

(** The uploaded copy is reported with the size of the local file and a
    time the comparison accepts. *)
Hypothesis round_trip : forall p mtime size,
  local_map !! p = Some (LocalFile mtime size) ->
  st_size (uploaded p) = size /\ int_of_float mtime <= st_mtime (uploaded p) + 1.

(** The relative paths of both snapshots are written with [/]: a call on
    one of them lands on the path itself. *)
Hypothesis local_landed : forall p, p ∈ dom local_map -> landed p = p.
Hypothesis remote_landed : forall p, p ∈ dom remote_map -> landed p = p.

(** The calls of the pass on a given path. *)
Lemma plan_cases a :
  a ∈ plan ->
  (action_path a ∈ dom local_map /\ (action_path a ∉ dom remote_map)
   /\ a = create_action local_map (action_path a))
  \/ (action_path a ∈ dom local_map /\ action_path a ∈ dom remote_map
      /\ a = Put (action_path a))
  \/ ((action_path a ∉ dom local_map) /\ action_path a ∈ dom remote_map
      /\ a = delete_action remote_map (action_path a)).
Proof.
  intros Ha. apply elem_of_initial_sync_actions in Ha.
  rewrite elem_of_create_actions, elem_of_update_actions,
    elem_of_delete_actions in Ha.
  unfold to_upload, to_check, to_delete in Ha.
  rewrite !elem_of_difference, elem_of_intersection in Ha.
  intuition.
Qed.

Lemma plan_landed a : a ∈ plan -> landed (action_path a) = action_path a.
Proof.
  intros Ha.
  destruct (plan_cases a Ha) as [(H & _) | [(H & _) | (_ & H & _)]];
    [now apply local_landed.. | now apply remote_landed].
Qed.

Lemma plan_landed_paths :
  (fun a => landed (action_path a)) <$> plan = action_path <$> plan.
Proof.
  apply Forall_fmap_ext, Forall_forall. intros a Ha. now apply plan_landed.
Qed.

Lemma after_in a : a ∈ plan -> remote' !! action_path a = outcome made uploaded a.
Proof.
  intros Ha. rewrite <- (plan_landed a Ha) at 1.
  apply effects_lookup_in; [|exact Ha].
  rewrite plan_landed_paths. apply initial_sync_paths_NoDup.
Qed.

Lemma after_notin p :
  (forall a, a ∈ plan -> action_path a <> p) -> remote' !! p = remote_map !! p.
Proof.
  intros H. apply effects_lookup_notin. rewrite plan_landed_paths.
  intros Hp. apply list_elem_of_fmap in Hp as (a & -> & Ha). now apply (H a).
Qed.

Lemma plan_decide p :
  (exists a, a ∈ plan /\ action_path a = p)
  \/ (forall a, a ∈ plan -> action_path a <> p).
Proof.
  destruct (decide (p ∈ action_path <$> plan)) as [Hin | Hnot].
  - left. apply list_elem_of_fmap in Hin as (a & -> & Ha). eauto.
  - right. intros a Ha <-. apply Hnot. now apply list_elem_of_fmap_2.
Qed.

Lemma outcome_create p : is_Some (outcome made uploaded (create_action local_map p)).
Proof. unfold create_action. destruct (local_is_dir local_map p); simpl; eauto. Qed.

Lemma outcome_delete p : outcome made uploaded (delete_action remote_map p) = None.
Proof. unfold delete_action. now destruct (remote_is_dir remote_map p). Qed.

Lemma after_local p : p ∈ dom local_map -> is_Some (remote' !! p).
Proof.
  intros Hl. destruct (plan_decide p) as [(a & Ha & <-) | Hno].
  - rewrite (after_in a Ha).
    destruct (plan_cases a Ha) as [(_ & _ & ->) | [(_ & _ & ->) | (Hn & _)]].
    + apply outcome_create.
    + simpl. eauto.
    + contradiction.
  - rewrite (after_notin p Hno). apply elem_of_dom.
    destruct (decide (p ∈ dom remote_map)) as [|Hr]; [assumption|].
    exfalso. apply (Hno (create_action local_map p)).
    + apply elem_of_initial_sync_actions. left. apply elem_of_create_actions.
      rewrite create_action_path. split; [|reflexivity].
      unfold to_upload. apply elem_of_difference. auto.
    + apply create_action_path.
Qed.

Lemma after_no_update p : needs_update local_map remote' p = false.
Proof.
  unfold needs_update at 1.
  destruct (local_map !! p) as [[|mtime size]|] eqn:Hl; [reflexivity | | reflexivity].
  assert (Hdl : p ∈ dom local_map) by (apply elem_of_dom; eauto).
  assert (Hup : modified mtime size (uploaded p) = false).
  { destruct (round_trip p mtime size Hl) as [Hs Ht]. unfold modified.
    apply orb_false_iff. split; [rewrite Z.gtb_ltb; apply Z.ltb_ge; lia|].
    apply negb_false_iff, Z.eqb_eq. congruence. }
  destruct (plan_decide p) as [(a & Ha & <-) | Hno].
  - rewrite (after_in a Ha).
    destruct (plan_cases a Ha) as [(_ & _ & Heq) | [(_ & _ & Heq) | (Hn & _)]].
    + rewrite Heq at 1. unfold create_action, local_is_dir. rewrite Hl. exact Hup.
    + rewrite Heq at 1. exact Hup.
    + contradiction.
  - rewrite (after_notin p Hno).
    destruct (remote_map !! p) as [attr|] eqn:Hr; [|reflexivity].
    destruct (modified mtime size attr) eqn:Hm; [|reflexivity].
    exfalso. apply (Hno (Put p)); [|reflexivity].
    apply action_on_common_path; simpl; [assumption | apply elem_of_dom; eauto |].
    split; [reflexivity|]. unfold needs_update. now rewrite Hl, Hr.
Qed.

Lemma after_no_extra p :
  allow = true -> p ∈ dom remote' -> p ∈ dom local_map.
Proof.
  intros Hallow Hr. apply elem_of_dom in Hr.
  destruct (plan_decide p) as [(a & Ha & <-) | Hno].
  - destruct (plan_cases a Ha) as [(H & _) | [(H & _) | (_ & _ & Heq)]];
      [assumption.. |].
    rewrite (after_in a Ha), Heq, outcome_delete in Hr. now destruct Hr.
  - rewrite (after_notin p Hno) in Hr.
    destruct (decide (p ∈ dom local_map)) as [|Hl]; [assumption|].
    exfalso. apply (Hno (delete_action remote_map p)).
    + apply elem_of_initial_sync_actions. right; right.
      apply elem_of_delete_actions. rewrite delete_action_path.
      repeat split; [assumption|].
      unfold to_delete. apply elem_of_difference. split; [|assumption].
      now apply elem_of_dom.
    + apply delete_action_path.
Qed.

Lemma second_pass_nil : initial_sync_actions local_map remote' allow = [].
Proof.
  assert (Hup : to_upload local_map remote' = ∅).
  { apply elem_of_equiv_empty_L. intros p Hp.
    unfold to_upload in Hp. apply elem_of_difference in Hp as [Hl Hr].
    apply Hr, elem_of_dom, after_local, Hl. }
  assert (Hdel : allow = true -> to_delete local_map remote' = ∅).
  { intros Hallow. apply elem_of_equiv_empty_L. intros p Hp.
    unfold to_delete in Hp. apply elem_of_difference in Hp as [Hr Hl].
    apply Hl, after_no_extra; [exact Hallow | exact Hr]. }
  unfold initial_sync_actions, create_actions, update_actions, delete_actions.
  rewrite Hup, elements_empty.
  rewrite (filter_none _ _ (fun p _ => after_no_update p)).
  destruct (bool_decide (allow = true)) eqn:Hb.
  - apply bool_decide_eq_true in Hb. rewrite (Hdel Hb), elements_empty.
    now rewrite Hb.
  - apply bool_decide_eq_false in Hb. apply not_true_is_false in Hb.
    now rewrite Hb.
Qed.

End second_pass_empty.

(** ** RemoteTreeScanner *)

Section string_facts.

Lemma app_nil_s (t : string) : "" +:+ t = t.
Proof. reflexivity. Qed.

Lemma app_cons_s c (s t : string) : String c s +:+ t = String c (s +:+ t).
Proof. reflexivity. Qed.

Lemma app_assoc_s (s t u : string) : (s +:+ t) +:+ u = s +:+ t +:+ u.
Proof.
  induction s as [|c s IH]; [reflexivity|].
  rewrite !app_cons_s. now rewrite IH.
Qed.

Lemma app_inv_head_s (s t u : string) : s +:+ t = s +:+ u -> t = u.
Proof.
  induction s as [|c s IH]; [auto|].
  rewrite !app_cons_s. intros [= H]. auto.
Qed.

Lemma contains_app c (s t : string) :
  Str.contains c (s +:+ t) = (Str.contains c s || Str.contains c t)%bool.
Proof.
  induction s as [|d s IH]; [reflexivity|].
  rewrite app_cons_s. simpl.
  destruct (Ascii.eqb c d); [reflexivity | exact IH].
Qed.

Lemma contains_slash_app (s t : string) :
  Str.contains "/" (s +:+ "/" +:+ t) = true.
Proof. rewrite contains_app, app_cons_s. simpl. apply orb_true_r. Qed.

Lemma replace_backslash_id (s : string) :
  Str.contains "\" s = false -> replace_backslash s = s.
Proof.
  induction s as [|c s IH]; [reflexivity|].
  change (Str.contains "\" (String c s))
    with (if Ascii.eqb "\" c then true else Str.contains "\" s).
  change (replace_backslash (String c s))
    with (String (if Ascii.eqb c "\" then "/"%char else c) (replace_backslash s)).
  rewrite (Ascii.eqb_sym c).
  destruct (Ascii.eqb "\" c); [discriminate|]. intros H. now rewrite IH.
Qed.

Lemma endswith_not_contains c (s : string) :
  Str.contains c s = false -> Str.endswith_char c s = false.
Proof.
  induction s as [|d s IH]; simpl; [reflexivity|].
  destruct (Ascii.eqb c d) eqn:Hc; [discriminate|].
  intros H. destruct s; [reflexivity | now apply IH].
Qed.

Lemma endswith_app c (s t : string) :
  t <> "" -> Str.endswith_char c (s +:+ t) = Str.endswith_char c t.
Proof.
  intros Ht. induction s as [|d s IH]; [reflexivity|].
  rewrite app_cons_s. simpl.
  destruct (s +:+ t) eqn:Hst; [|exact IH].
  destruct s; [now rewrite app_nil_s in Hst | discriminate Hst].
Qed.

(** Where two paths that end in a name agree, the shorter directory part
    is the longer one or a slash-delimited ancestor of it. *)
Lemma split_slash (d : string) : forall q rest n,
  Str.contains "/" n = false ->
  d +:+ "/" +:+ rest = q +:+ "/" +:+ n ->
  (d = q /\ rest = n) \/ (exists rest', q = d +:+ "/" +:+ rest').
Proof.
  induction d as [|c d IH]; intros q rest n Hn.
  - destruct q as [|c' q]; rewrite ?app_cons_s, ?app_nil_s.
    + intros [= ->]. now left.
    + intros [= <- ->]. right. now exists q.
  - destruct q as [|c' q]; rewrite ?app_cons_s, ?app_nil_s.
    + intros [= -> <-]. pose proof (contains_slash_app d rest) as H.
      change (d +:+ "/" +:+ rest) with (d +:+ String "/" rest) in H.
      now rewrite H in Hn.
    + intros [= <- H]. destruct (IH q rest n Hn H) as [[-> ->] | [rest' ->]].
      * now left.
      * right. now exists rest'.
Qed.

End string_facts.

Section path_facts.

Lemma wf_name_spec n :
  wf_name n = true ->
  n <> "" /\ Str.contains "/" n = false /\ Str.contains "\" n = false.
Proof.
  unfold wf_name. rewrite !andb_true_iff, !negb_true_iff.
  intros [[H1 H2] H3]. apply String.eqb_neq in H1. auto.
Qed.

Lemma prefix_slash n : String.prefix "/" n = true -> Str.contains "/" n = true.
Proof.
  destruct n as [|c n]; [discriminate|].
  change (String.prefix "/" (String c n))
    with (match ascii_dec "/" c with
          | left _ => String.prefix "" n
          | right _ => false
          end).
  destruct (ascii_dec "/" c) as [<-|]; intros H; [reflexivity | discriminate H].
Qed.

Lemma clean_empty : clean "".
Proof. split; reflexivity. Qed.

Lemma rel_item_path_child q attr :
  clean q -> wf_name (filename attr) = true ->
  rel_item_path q attr = child q (filename attr).
Proof.
  intros [He Hb] Hn. apply wf_name_spec in Hn as (Hne & Hs & Hbn).
  unfold rel_item_path, posixpath.join, Str.startswith, Str.slash, child.
  destruct (String.prefix "/" (filename attr)) eqn:Hp;
    [apply prefix_slash in Hp; congruence|].
  rewrite He, orb_false_r. destruct (String.eqb q "") eqn:Hq.
  - apply String.eqb_eq in Hq as ->. rewrite app_nil_s.
    now apply replace_backslash_id.
  - apply replace_backslash_id. rewrite !contains_app, Hb, Hbn. reflexivity.
Qed.

Lemma child_clean q n : clean q -> wf_name n = true -> clean (child q n).
Proof.
  intros [He Hb] Hn. apply wf_name_spec in Hn as (Hne & Hs & Hbn).
  unfold child. destruct (String.eqb q ""); split.
  - now apply endswith_not_contains.
  - assumption.
  - rewrite <- app_assoc_s, endswith_app by assumption.
    now apply endswith_not_contains.
  - rewrite !contains_app, Hb, Hbn. reflexivity.
Qed.

Lemma child_not_empty q n : n <> "" -> child q n <> "".
Proof.
  intros Hn. unfold child. destruct (String.eqb q "") eqn:Hq; [assumption|].
  apply String.eqb_neq in Hq. destruct q; [contradiction | discriminate].
Qed.

Lemma child_inj q n q' n' :
  Str.contains "/" n = false -> Str.contains "/" n' = false ->
  child q n = child q' n' -> q = q' /\ n = n'.
Proof.
  intros Hn Hn'. unfold child.
  destruct (String.eqb q "") eqn:Hq; destruct (String.eqb q' "") eqn:Hq'.
  - apply String.eqb_eq in Hq, Hq'. subst. auto.
  - intros ->. now rewrite contains_slash_app in Hn.
  - intros <-. now rewrite contains_slash_app in Hn'.
  - intros H. destruct (split_slash _ _ _ _ Hn' H) as [[-> ->] | [rest ->]]; [auto|].
    rewrite app_assoc_s in H. apply app_inv_head_s in H.
    rewrite !app_cons_s, !app_nil_s in H. injection H as H. subst n.
    pose proof (contains_slash_app rest n') as Hc.
    change (rest +:+ "/" +:+ n') with (rest +:+ String "/" n') in Hc.
    now rewrite Hc in Hn.
Qed.

Lemma ancestor_child d q n :
  Str.contains "/" n = false ->
  is_ancestor d (child q n) -> d = q \/ is_ancestor d q.
Proof.
  intros Hn [rest H]. unfold child in H.
  destruct (String.eqb q "") eqn:Hq.
  - subst n. now rewrite contains_slash_app in Hn.
  - symmetry in H. destruct (split_slash _ _ _ _ Hn H) as [[-> _] | [rest' ->]].
    + now left.
    + right. now exists rest'.
Qed.

End path_facts.

Lemma NoDup_fmap_eq {A B} (f : A -> B) (l : list A) x y :
  NoDup (f <$> l) -> x ∈ l -> y ∈ l -> f x = f y -> x = y.
Proof.
  induction l as [|a l IH]; intros Hnd Hx Hy Hf; [inversion Hx|].
  rewrite fmap_cons in Hnd. apply NoDup_cons in Hnd as [Ha Hnd].
  apply elem_of_cons in Hx as [-> | Hx]; apply elem_of_cons in Hy as [-> | Hy].
  - reflexivity.
  - exfalso. apply Ha. rewrite Hf. now apply list_elem_of_fmap_2.
  - exfalso. apply Ha. rewrite <- Hf. now apply list_elem_of_fmap_2.
  - now apply IH.
Qed.

Section walk_facts.

Variable os : os_state.
Variable listdir_attr : listdir_attr_t.
Variable remote_path : string.
Variable exclude_patterns : list string.
Variable source_code_only : bool.

Hypothesis Hwf : wf_listing listdir_attr.

Local Abbreviation visited := (visited os listdir_attr remote_path exclude_patterns source_code_only).
Local Abbreviation recorded := (recorded os listdir_attr remote_path exclude_patterns source_code_only).
Local Abbreviation remote_directory := (remote_directory listdir_attr remote_path).
Local Abbreviation skipped := (remote_skipped os exclude_patterns source_code_only).
Local Abbreviation listing q := (listdir_attr (current_remote_path remote_path q)).
Local Abbreviation scan_inv :=
  (scan_inv os listdir_attr remote_path exclude_patterns source_code_only).

Lemma entry_name q entries attr :
  listing q = inl entries -> attr ∈ entries -> wf_name (filename attr) = true.
Proof. intros Hl Ha. now apply (Hwf _ _ Hl). Qed.

Lemma visited_clean q : visited q -> clean q.
Proof.
  induction 1 as [|q entries attr _ IH Hl Ha _ _]; [apply clean_empty|].
  pose proof (entry_name _ _ _ Hl Ha) as Hn.
  rewrite rel_item_path_child by assumption. now apply child_clean.
Qed.

Lemma remote_directory_clean q : remote_directory q -> clean q.
Proof.
  induction 1 as [|q entries attr _ IH Hl Ha _]; [apply clean_empty|].
  pose proof (entry_name _ _ _ Hl Ha) as Hn.
  rewrite rel_item_path_child by assumption. now apply child_clean.
Qed.

Lemma not_ancestor_of_empty d : ~ is_ancestor d "".
Proof. intros [rest H]. destruct d; discriminate H. Qed.

(** The scan reaches a directory through its ancestors only. *)
Lemma visited_ancestor q d : visited q -> is_ancestor d q -> visited d.
Proof.
  induction 1 as [|q entries attr Hq IH Hl Ha _ _]; intros Hanc.
  - now apply not_ancestor_of_empty in Hanc.
  - pose proof (entry_name _ _ _ Hl Ha) as Hn.
    rewrite rel_item_path_child in Hanc by (try apply visited_clean; assumption).
    apply wf_name_spec in Hn as (_ & Hs & _).
    apply ancestor_child in Hanc as [-> | Hanc]; auto.
Qed.

(** An entry the filter skips is not a directory the scan lists. *)
Lemma skipped_not_visited q entries attr :
  remote_directory q -> listing q = inl entries -> attr ∈ entries ->
  skipped q attr = true ->
  ~ visited (rel_item_path q attr).
Proof.
  intros Hq Hl Ha Hskip Hv.
  pose proof (entry_name _ _ _ Hl Ha) as Hn.
  pose proof (remote_directory_clean _ Hq) as Hc.
  rewrite rel_item_path_child in Hv by assumption.
  inversion Hv as [Heq | q' entries' attr' Hq' Hl' Ha' _ Hkeep Heq].
  - apply wf_name_spec in Hn as (Hne & _). symmetry in Heq.
    now apply child_not_empty in Heq.
  - pose proof (entry_name _ _ _ Hl' Ha') as Hn'.
    rewrite rel_item_path_child in Heq by (try apply visited_clean; assumption).
    apply child_inj in Heq as [-> Hname];
      [| now apply wf_name_spec in Hn' | now apply wf_name_spec in Hn].
    rewrite Hl in Hl'. injection Hl' as <-.
    assert (attr' = attr) as ->
        by (eapply NoDup_fmap_eq; [apply (Hwf _ _ Hl) | assumption..]).
    congruence.
Qed.

(** Nor is it, or anything beneath it, a path the scan records. *)
Lemma skipped_not_recorded q entries attr p :
  remote_directory q -> listing q = inl entries -> attr ∈ entries ->
  skipped q attr = true ->
  recorded p ->
  p <> rel_item_path q attr /\ ~ is_ancestor (rel_item_path q attr) p.
Proof.
  intros Hq Hl Ha Hskip (q' & entries' & attr' & Hq' & Hl' & Ha' & Hkeep & ->).
  pose proof (entry_name _ _ _ Hl Ha) as Hn.
  pose proof (entry_name _ _ _ Hl' Ha') as Hn'.
  pose proof (remote_directory_clean _ Hq) as Hc.
  pose proof (visited_clean _ Hq') as Hc'.
  split.
  - intros Heq. rewrite !rel_item_path_child in Heq by assumption.
    apply child_inj in Heq as [-> Hname];
      [| now apply wf_name_spec in Hn' | now apply wf_name_spec in Hn].
    rewrite Hl in Hl'. injection Hl' as <-.
    assert (attr' = attr) as ->
        by (eapply NoDup_fmap_eq; [apply (Hwf _ _ Hl) | assumption..]).
    congruence.
  - intros Hanc. apply (skipped_not_visited q entries attr); try assumption.
    rewrite (rel_item_path_child q' attr') in Hanc by assumption.
    apply ancestor_child in Hanc as [-> | Hanc];
      [assumption | now apply (visited_ancestor q') | now apply wf_name_spec in Hn'].
Qed.

Lemma visit_entry_inv q entries attr st :
  visited q -> listing q = inl entries -> attr ∈ entries ->
  scan_inv st ->
  scan_inv (visit_entry os exclude_patterns source_code_only q st attr).
Proof.
  intros Hq Hl Ha [Hm Hs]. unfold visit_entry.
  destruct (skipped q attr) eqn:Hskip; [now split|].
  split; simpl.
  - intros p Hp. rewrite dom_insert_L in Hp.
    apply elem_of_union in Hp as [Hp | Hp]; [|now apply Hm].
    apply elem_of_singleton in Hp as ->.
    exists q, entries, attr. auto.
  - intros s Hin. destruct (S_ISDIR (st_mode attr)) eqn:Hd; [|now apply Hs].
    apply elem_of_cons in Hin as [-> | Hin]; [|now apply Hs].
    now apply (visited_subdir _ _ _ _ _ q entries attr).
Qed.

Lemma fold_visit_inv q entries l :
  visited q -> listing q = inl entries ->
  (forall attr, attr ∈ l -> attr ∈ entries) ->
  forall st, scan_inv st ->
    scan_inv (fold_left (visit_entry os exclude_patterns source_code_only q) l st).
Proof.
  intros Hq Hl. induction l as [|attr l IH]; intros Hsub st Hst; simpl; [assumption|].
  apply IH.
  - intros a Ha. apply Hsub. now right.
  - apply (visit_entry_inv q entries); [assumption.. | apply Hsub; left | assumption].
Qed.

Lemma walk_loop_recorded fuel : forall stack m res,
  scan_inv (m, stack) ->
  walk_loop os listdir_attr remote_path exclude_patterns source_code_only
            fuel stack m = Some (inl res) ->
  forall p, p ∈ dom res -> recorded p.
Proof.
  induction fuel as [|fuel IH]; intros [|q stack] m res Hinv; simpl.
  - intros [= <-]. apply Hinv.
  - discriminate.
  - intros [= <-]. apply Hinv.
  - destruct Hinv as [Hm Hs]. simpl in Hm, Hs.
    assert (Hq : visited q) by (apply Hs; left).
    assert (Hrest : forall s, s ∈ stack -> visited s)
      by (intros s Hin; apply Hs; now right).
    destruct (listing q) as [entries|e] eqn:Hl.
    + pose proof (fold_visit_inv q entries entries Hq Hl (fun _ H => H)
                    (m, stack) (conj Hm Hrest)) as Hfold.
      destruct (fold_left _ entries (m, stack)) as [m' stack'].
      now apply IH.
    + destruct e; try discriminate. now apply IH.
Qed.

Lemma walk_remote_recorded fuel res :
  walk_remote os listdir_attr remote_path exclude_patterns source_code_only fuel
  = Some (inl res) ->
  forall p, p ∈ dom res -> recorded p.
Proof.
  apply walk_loop_recorded. split; simpl.
  - intros p Hp. rewrite dom_empty_L in Hp. now apply not_elem_of_empty in Hp.
  - intros q Hq. apply list_elem_of_singleton in Hq as ->. constructor.
Qed.

End walk_facts.

(** C10, amended: in the remote scan an excluded directory prunes its
    subtree when the listings are those of a directory tree: entry names
    are not empty, hold neither a slash nor a backslash, and are distinct
    within a directory. Then, for a directory of the remote tree that the
    filter excludes, the snapshot the scan returns holds neither the path
    of the directory nor a path beneath it. *)
Theorem excluded_directory_pruned os listdir_attr remote_path exclude_patterns
    source_code_only fuel remote_map q entries attr :
  wf_listing listdir_attr ->
  walk_remote os listdir_attr remote_path exclude_patterns source_code_only fuel
  = Some (inl remote_map) ->
  remote_directory listdir_attr remote_path q ->
  listdir_attr (current_remote_path remote_path q) = inl entries ->
  attr ∈ entries ->
  S_ISDIR (st_mode attr) = true ->
  is_excluded os (rel_item_path q attr +:+ "/") exclude_patterns false = true ->
  forall p, p ∈ dom remote_map ->
    p <> rel_item_path q attr /\ ~ is_ancestor (rel_item_path q attr) p.
Proof.
  intros Hwf Hwalk Hq Hl Ha Hd Hex p Hp.
  apply (skipped_not_recorded os listdir_attr remote_path exclude_patterns
           source_code_only Hwf q entries attr p); try assumption.
  - unfold remote_skipped. now rewrite Hd, andb_false_r.
  - eapply walk_remote_recorded; eassumption.
Qed.

(** *** The scan returns *)

Section walk_returns.

Variable os : os_state.
Variable listdir_attr : listdir_attr_t.
Variable remote_path : string.
Variable exclude_patterns : list string.
Variable source_code_only : bool.

Local Abbreviation skipped := (remote_skipped os exclude_patterns source_code_only).
Local Abbreviation listing q := (listdir_attr (current_remote_path remote_path q)).
Local Abbreviation height_le := (height_le listdir_attr remote_path).
Local Abbreviation tree_size := (tree_size listdir_attr remote_path).
Local Abbreviation kept_dir := (kept_dir os exclude_patterns source_code_only).
Local Abbreviation stack_size := (stack_size listdir_attr remote_path).

Lemma fold_visit_stack q l : forall m stack,
  snd (fold_left (visit_entry os exclude_patterns source_code_only q) l (m, stack))
  = reverse (rel_item_path q <$> List.filter (kept_dir q) l) ++ stack.
Proof.
  induction l as [|attr l IH]; intros m stack; [reflexivity|].
  cbn [fold_left List.filter]. unfold kept_dir at 1.
  destruct (visit_entry os exclude_patterns source_code_only q (m, stack) attr)
    as [m1 st1] eqn:Hv.
  unfold visit_entry in Hv.
  destruct (skipped q attr); cbn [negb andb fst snd] in *.
  - injection Hv as <- <-. apply IH.
  - destruct (S_ISDIR (st_mode attr)); injection Hv as <- <-; rewrite IH;
      [|reflexivity].
    rewrite fmap_cons, reverse_cons, <- app_assoc. reflexivity.
Qed.

Lemma tree_size_S h' q :
  tree_size (S h') q
  = match listing q with
    | inl entries =>
        S (sum_list_with (fun attr => if S_ISDIR (st_mode attr)
                                      then tree_size h' (rel_item_path q attr)
                                      else O) entries)
    | inr _ => 1%nat
    end.
Proof. reflexivity. Qed.

Lemma tree_size_pos h q : (1 <= tree_size h q)%nat.
Proof. destruct h; simpl; [lia|]. destruct (listing q); lia. Qed.

Lemma stack_size_app a b : stack_size (a ++ b) = (stack_size a + stack_size b)%nat.
Proof. apply sum_list_with_app. Qed.

Lemma kept_size h' q l :
  (stack_size (reverse ((fun attr => (h', rel_item_path q attr))
                          <$> List.filter (kept_dir q) l))
   <= sum_list_with (fun attr => if S_ISDIR (st_mode attr)
                                 then tree_size h' (rel_item_path q attr) else O) l)%nat.
Proof.
  induction l as [|attr l IH]; [unfold stack_size; simpl; lia|].
  cbn [List.filter sum_list_with].
  unfold kept_dir at 1.
  destruct (skipped q attr); cbn [negb andb].
  - destruct (S_ISDIR (st_mode attr)); lia.
  - destruct (S_ISDIR (st_mode attr)); [|lia].
    rewrite fmap_cons, reverse_cons, stack_size_app.
    unfold stack_size at 2. simpl. lia.
Qed.

Lemma walk_loop_returns fuel : forall (annot : list (nat * string)) m,
  (forall h q, (h, q) ∈ annot -> height_le h q) ->
  (stack_size annot <= fuel)%nat ->
  exists r, walk_loop os listdir_attr remote_path exclude_patterns source_code_only
                      fuel (snd <$> annot) m = Some r.
Proof.
  induction fuel as [|fuel IH]; intros [|[h q] annot] m Hh Hfuel.
  - simpl. eauto.
  - exfalso. unfold stack_size in Hfuel. cbn [sum_list_with fst snd] in Hfuel.
    pose proof (tree_size_pos h q). lia.
  - simpl. eauto.
  - assert (Hrest : forall h' q', (h', q') ∈ annot -> height_le h' q')
      by (intros h' q' Hin; apply Hh; now right).
    assert (Hq : height_le h q) by (apply Hh; left).
    unfold stack_size in Hfuel. cbn [sum_list_with fst snd] in Hfuel.
    fold (stack_size annot) in Hfuel.
    rewrite fmap_cons. simpl.
    destruct (listing q) as [entries|e] eqn:Hl.
    + pose proof (fold_visit_stack q entries m (snd <$> annot)) as Hst.
      destruct (fold_left _ entries (m, snd <$> annot)) as [m' stack'].
      simpl in Hst. subst stack'.
      destruct h as [|h'].
      * (* no directory among the entries *)
        assert (Hnone : List.filter (kept_dir q) entries = []).
        { apply filter_none. intros attr Ha. unfold kept_dir.
          destruct (S_ISDIR (st_mode attr)) eqn:Hd; [|apply andb_false_r].
          exfalso. simpl in Hq. rewrite Hl in Hq. exact (Hq attr Ha Hd). }
        rewrite Hnone. simpl. apply IH; [assumption|]. simpl in Hfuel. lia.
      * set (pushed := reverse ((fun attr => (h', rel_item_path q attr))
                                  <$> List.filter (kept_dir q) entries)).
        assert (Hsnd : reverse (rel_item_path q <$> List.filter (kept_dir q) entries)
                       ++ (snd <$> annot) = snd <$> (pushed ++ annot)).
        { unfold pushed. rewrite fmap_app, fmap_reverse, <- list_fmap_compose.
          reflexivity. }
        rewrite Hsnd. apply IH.
        -- intros h1 q1 Hin. apply elem_of_app in Hin as [Hin | Hin]; [|now apply Hrest].
           unfold pushed in Hin. rewrite elem_of_reverse in Hin.
           apply list_elem_of_fmap in Hin as (attr & [= -> ->] & Hin).
           apply list_elem_of_In, filter_In in Hin as [Hin Hk].
           unfold kept_dir in Hk. apply andb_true_iff in Hk as [_ Hd].
           simpl in Hq. rewrite Hl in Hq.
           apply (Hq attr); [now apply list_elem_of_In | assumption].
        -- rewrite stack_size_app. pose proof (kept_size h' q entries) as Hk.
           fold pushed in Hk. rewrite tree_size_S, Hl in Hfuel. lia.
    + pose proof (tree_size_pos h q).
      destruct e; eauto; apply IH; (assumption || lia).
Qed.

(** On a remote tree of bounded height the scan returns: its fuel is the
    number of directories. *)
Lemma walk_remote_returns h :
  height_le h "" ->
  exists r, walk_remote os listdir_attr remote_path exclude_patterns source_code_only
                        (tree_size h "") = Some r.
Proof.
  intros Hh. apply (walk_loop_returns (tree_size h "") [(h, "")] ∅).
  - intros h' q' Hin. apply list_elem_of_singleton in Hin as [= -> ->]. exact Hh.
  - unfold stack_size. simpl. lia.
Qed.

End walk_returns.

Lemma listdir_tree_wf : wf_listing Examples.listdir_tree.
Proof.
  intros path entries H. unfold Examples.listdir_tree in H.
  repeat match type of H with
         | (if ?b then _ else _) = _ => destruct b
         end;
    try discriminate H; injection H as <-;
    (split;
     [ apply (bool_decide_unpack _); vm_compute; reflexivity
     | intros attr Ha;
       repeat (apply elem_of_cons in Ha as [-> | Ha]; [reflexivity|]);
       inversion Ha ]).
Qed.

Lemma excluded_directory_pruned_witness :
  "a/x.py" <> rel_item_path "" (Examples.dir_attr "node_modules")
  /\ ~ is_ancestor (rel_item_path "" (Examples.dir_attr "node_modules")) "a/x.py".
Proof.
  apply (excluded_directory_pruned Examples.os_plain Examples.listdir_tree "/srv/proj"
           ["node_modules/"] true 5 Examples.remote_tree_map ""
           [Examples.dir_attr "a"; Examples.dir_attr "node_modules";
            Examples.file_attr "f.py" 7 100]
           (Examples.dir_attr "node_modules")).
  - exact listdir_tree_wf.
  - vm_compute. reflexivity.
  - constructor.
  - reflexivity.
  - right. left.
  - reflexivity.
  - vm_compute. reflexivity.
  - apply elem_of_dom. exists (Examples.file_attr "x.py" 5 100). reflexivity.
Defined.

(** ** Scenarios of the design document *)

(** Scenario 1: local [a/] and [a/x.py], remote empty, deletion disabled. *)
Example scenario_create_in_order :
  initial_sync_actions Examples.local_a ∅ false = [Mkdir "a"; Put "a/x.py"].
Proof. vm_compute. reflexivity. Qed.

(** Scenario 2: equal sizes, local time 2 seconds newer. *)
Example scenario_two_seconds_newer :
  initial_sync_actions (Examples.local_f 13) Examples.remote_f false = [Put "f.txt"].
Proof. vm_compute. reflexivity. Qed.

(** Scenario 4: remote [stale/] with [stale/file], deletion enabled. *)
Example scenario_delete_in_order :
  initial_sync_actions ∅ Examples.remote_stale true
  = [Remove "stale/file"; Rmdir "stale"].
Proof. vm_compute. reflexivity. Qed.

(** Scenario 6: source-code-only with the pattern [*.log]. *)
Example scenario_extension_rule :
  is_excluded Examples.os_plain "notes.txt" ["*.log"] true = true
  /\ is_excluded Examples.os_plain "main.py" ["*.log"] true = false
  /\ is_excluded Examples.os_plain "build.log" ["*.log"] false = true.
Proof. repeat split; vm_compute; reflexivity. Qed.

(** The scan of the example tree with [node_modules/] excluded. *)
Example scenario_remote_scan :
  walk_remote Examples.os_plain Examples.listdir_tree "/srv/proj"
              ["node_modules/"] true 5
  = Some (inl Examples.remote_tree_map).
Proof. vm_compute. reflexivity. Qed.

(** * Further properties *)

(** ** PathFilter *)

Section path_filter_more.

Lemma matches_any_exists path pats :
  matches_any path pats = true <->
  exists pat, pat ∈ pats
              /\ (fnmatch.fnmatch path pat = true
                  \/ fnmatch.fnmatch (posixpath.basename path) pat = true).
Proof.
  unfold matches_any. rewrite existsb_exists. split.
  - intros (pat & Hin & H). exists pat. rewrite list_elem_of_In.
    apply orb_true_iff in H. auto.
  - intros (pat & Hin & H). exists pat. rewrite <- list_elem_of_In.
    split; [assumption|]. now apply orb_true_iff.
Qed.

Lemma is_excluded_no_pattern os path pats sco :
  is_excluded os path pats sco = true ->
  matches_any path pats = true \/ is_excluded os path [] sco = true.
Proof.
  unfold is_excluded. simpl. destruct (matches_any path pats); auto.
Qed.

Lemma is_excluded_split os path pats sco :
  is_excluded os path pats sco
  = (matches_any path pats || is_excluded os path [] sco)%bool.
Proof.
  unfold is_excluded. simpl. now destruct (matches_any path pats).
Qed.

Lemma basename_go_slash cur p : posixpath.basename_go cur (p +:+ "/") = "".
Proof.
  revert cur. induction p as [|c p IH]; intros cur.
  - reflexivity.
  - rewrite app_cons_s. simpl. destruct (Ascii.eqb c Str.slash); apply IH.
Qed.

Lemma basename_slash p : posixpath.basename (p +:+ "/") = "".
Proof. apply basename_go_slash. Qed.

Lemma splitext_go_no_dot seen s :
  Str.contains "." s = false -> posixpath.splitext_go seen s = None.
Proof.
  revert seen. induction s as [|c s IH]; intros seen; [reflexivity|].
  change (Str.contains "." (String c s))
    with (if Ascii.eqb "." c then true else Str.contains "." s).
  change (posixpath.splitext_go seen (String c s))
    with (match posixpath.splitext_go (seen || negb (Ascii.eqb c Str.dot)) s with
          | Some e => Some e
          | None => if (Ascii.eqb c Str.dot && seen)%bool then Some (String c s) else None
          end).
  unfold Str.dot. rewrite (Ascii.eqb_sym c).
  destruct (Ascii.eqb "." c); [discriminate|].
  intros H. now rewrite IH.
Qed.

Lemma splitext_leading_dots n rest :
  Str.contains "." rest = false ->
  posixpath.splitext_ext (dots n +:+ rest) = "".
Proof.
  intros H. unfold posixpath.splitext_ext.
  assert (Hgo : posixpath.splitext_go false (dots n +:+ rest) = None).
  { induction n as [|n IH]; [now apply splitext_go_no_dot|].
    change (dots (S n) +:+ rest) with (String "." (dots n +:+ rest)).
    change (posixpath.splitext_go false (String "." (dots n +:+ rest)))
      with (match posixpath.splitext_go false (dots n +:+ rest) with
            | Some e => Some e
            | None => None
            end).
    now rewrite IH. }
  now rewrite Hgo.
Qed.

End path_filter_more.

(** X1: a pattern of the rule set that matches the path or its base name
    excludes the path, whatever the flag and the local filesystem. *)
Theorem pattern_match_excludes os path pats sco pat :
  pat ∈ pats ->
  fnmatch.fnmatch path pat = true
  \/ fnmatch.fnmatch (posixpath.basename path) pat = true ->
  is_excluded os path pats sco = true.
Proof.
  intros Hin H. apply is_excluded_pattern, matches_any_exists. eauto.
Qed.

Lemma pattern_match_excludes_witness :
  is_excluded Examples.os_build "logs/build.log" ["*.tmp"; "*.log"] false = true.
Proof.
  apply (pattern_match_excludes Examples.os_build "logs/build.log"
           ["*.tmp"; "*.log"] false "*.log").
  - right. left.
  - left. vm_compute. reflexivity.
Defined.

(** X2: the rule set is a set: a path excluded under a rule set is excluded
    under every rule set that holds its patterns, and the result does not
    depend on the order or the repetition of the patterns. *)
Theorem rule_set_monotone os path pats pats' sco :
  (forall pat, pat ∈ pats -> pat ∈ pats') ->
  (is_excluded os path pats sco = true -> is_excluded os path pats' sco = true)
  /\ ((forall pat, pat ∈ pats' -> pat ∈ pats) ->
      is_excluded os path pats sco = is_excluded os path pats' sco).
Proof.
  intros Hsub.
  assert (Hm : forall l l' : list string, (forall pat, pat ∈ l -> pat ∈ l') ->
                 matches_any path l = true -> matches_any path l' = true).
  { intros l l' Hl. rewrite !matches_any_exists.
    intros (pat & Hin & H). exists pat. auto. }
  split.
  - rewrite (is_excluded_split os path pats), (is_excluded_split os path pats').
    rewrite !orb_true_iff. intros [H | H]; [left; now apply (Hm pats) | now right].
  - intros Hsup.
    rewrite (is_excluded_split os path pats), (is_excluded_split os path pats').
    f_equal. destruct (matches_any path pats) eqn:H1.
    + symmetry. now apply (Hm pats).
    + destruct (matches_any path pats') eqn:H2; [|reflexivity].
      apply (Hm pats' pats) in H2; [congruence | assumption].
Qed.

Lemma rule_set_monotone_witness :
  is_excluded Examples.os_plain "a.log" ["*.log"; "*.tmp"] false
  = is_excluded Examples.os_plain "a.log" ["*.tmp"; "*.log"; "*.tmp"] false.
Proof.
  apply (rule_set_monotone Examples.os_plain "a.log" ["*.log"; "*.tmp"]
           ["*.tmp"; "*.log"; "*.tmp"] false).
  - intros pat H. apply list_elem_of_In in H. apply list_elem_of_In. simpl in *. tauto.
  - intros pat H. apply list_elem_of_In in H. apply list_elem_of_In. simpl in *. tauto.
Defined.

(** X3: with source-code-only on, a file whose base name has no dot after
    its leading dots ([Makefile], [.gitignore]) has the empty extension
    and is excluded, unless [os.path.isdir] answers for its path. *)
Theorem no_extension_excluded os path pats n rest :
  posixpath.basename path = dots n +:+ rest ->
  Str.contains "." rest = false ->
  isdir os path = false ->
  is_excluded os path pats true = true.
Proof.
  intros Hb Hrest Hd. rewrite is_excluded_split. apply orb_true_iff. right.
  rewrite is_excluded_flag_on by reflexivity.
  now rewrite Hd, Hb, splitext_leading_dots.
Qed.

Lemma no_extension_excluded_witness :
  is_excluded Examples.os_plain "src/.gitignore" [] true = true.
Proof.
  apply (no_extension_excluded Examples.os_plain "src/.gitignore" [] 1 "gitignore");
    reflexivity.
Defined.

(** X4: the path checked for a directory ends in a slash, so its base name
    is empty: without source-code-only a directory is excluded exactly when
    a pattern matches its whole relative path with the trailing slash, or
    matches the empty string. *)
Theorem directory_check_uses_whole_path os p pats :
  is_excluded os (p +:+ "/") pats false
  = existsb (fun pat => (fnmatch.fnmatch (p +:+ "/") pat
                         || fnmatch.fnmatch "" pat)%bool) pats.
Proof.
  rewrite is_excluded_flag_off. unfold matches_any. now rewrite basename_slash.
Qed.

(** X5: with source-code-only passed as on, a path that ends in a slash and
    that [os.path.isdir] does not confirm is excluded under every rule set:
    its base name, hence its extension, is empty. *)
Theorem unconfirmed_directory_excluded os p pats :
  isdir os (p +:+ "/") = false ->
  is_excluded os (p +:+ "/") pats true = true.
Proof.
  intros Hd. apply (no_extension_excluded os (p +:+ "/") pats 0 "");
    [apply basename_slash | reflexivity | assumption].
Qed.

Lemma unconfirmed_directory_excluded_witness :
  is_excluded Examples.os_proj ("docs" +:+ "/") [] true = true.
Proof.
  apply (unconfirmed_directory_excluded Examples.os_proj "docs" []). reflexivity.
Defined.

(** ** RemoteTreeScanner *)

Section walk_more.

Variable os : os_state.
Variable listdir_attr : listdir_attr_t.
Variable remote_path : string.
Variable exclude_patterns : list string.
Variable source_code_only : bool.

Local Abbreviation visited := (visited os listdir_attr remote_path exclude_patterns source_code_only).
Local Abbreviation recorded := (recorded os listdir_attr remote_path exclude_patterns source_code_only).
Local Abbreviation recorded_entry :=
  (recorded_entry os listdir_attr remote_path exclude_patterns source_code_only).
Local Abbreviation skipped := (remote_skipped os exclude_patterns source_code_only).
Local Abbreviation listing q := (listdir_attr (current_remote_path remote_path q)).
Local Abbreviation visit := (visit_entry os exclude_patterns source_code_only).
Local Abbreviation walk_loop :=
  (walk_loop os listdir_attr remote_path exclude_patterns source_code_only).
Local Abbreviation scan_done :=
  (scan_done os listdir_attr remote_path exclude_patterns source_code_only).
Local Abbreviation entries_inv :=
  (entries_inv os listdir_attr remote_path exclude_patterns source_code_only).

(** *** The stored attributes *)

Lemma visit_entries_inv q entries attr st :
  visited q -> listing q = inl entries -> attr ∈ entries ->
  entries_inv st -> entries_inv (visit q st attr).
Proof.
  intros Hq Hl Ha [Hm Hs]. unfold visit_entry.
  destruct (skipped q attr) eqn:Hskip; [now split|].
  split; simpl.
  - intros p attr' Hp.
    destruct (decide (rel_item_path q attr = p)) as [<- | Hne].
    + rewrite lookup_insert_eq in Hp. injection Hp as <-.
      exists q, entries. auto.
    + rewrite lookup_insert_ne in Hp by assumption. now apply Hm.
  - intros s Hin. destruct (S_ISDIR (st_mode attr)) eqn:Hd; [|now apply Hs].
    apply elem_of_cons in Hin as [-> | Hin]; [|now apply Hs].
    now apply (visited_subdir _ _ _ _ _ q entries attr).
Qed.

Lemma fold_entries_inv q entries l :
  visited q -> listing q = inl entries ->
  (forall attr, attr ∈ l -> attr ∈ entries) ->
  forall st, entries_inv st -> entries_inv (fold_left (visit q) l st).
Proof.
  intros Hq Hl. induction l as [|attr l IH]; intros Hsub st Hst; simpl; [assumption|].
  apply IH.
  - intros a Ha. apply Hsub. now right.
  - apply (visit_entries_inv q entries); [assumption.. | apply Hsub; left | assumption].
Qed.

Lemma walk_loop_entries fuel : forall stack m res,
  entries_inv (m, stack) ->
  walk_loop fuel stack m = Some (inl res) ->
  forall p attr, res !! p = Some attr -> recorded_entry p attr.
Proof.
  induction fuel as [|fuel IH]; intros [|q stack] m res Hinv; simpl.
  - intros [= <-]. apply Hinv.
  - discriminate.
  - intros [= <-]. apply Hinv.
  - destruct Hinv as [Hm Hs]. simpl in Hm, Hs.
    assert (Hq : visited q) by (apply Hs; left).
    assert (Hrest : forall s, s ∈ stack -> visited s)
      by (intros s Hin; apply Hs; now right).
    destruct (listing q) as [entries|e] eqn:Hl.
    + pose proof (fold_entries_inv q entries entries Hq Hl (fun _ H => H)
                    (m, stack) (conj Hm Hrest)) as Hfold.
      destruct (fold_left _ entries (m, stack)) as [m' stack'].
      now apply IH.
    + destruct e; try discriminate. now apply IH.
Qed.

(** *** Nothing the filter keeps is left out *)

Lemma fold_visit_dom q l : forall m stack p,
  p ∈ dom (fst (fold_left (visit q) l (m, stack))) <->
  p ∈ dom m \/ exists attr, attr ∈ l /\ skipped q attr = false /\ p = rel_item_path q attr.
Proof.
  induction l as [|attr l IH]; intros m stack p.
  - simpl. split; [auto | intros [H | (a & Ha & _)]; [assumption | inversion Ha]].
  - cbn [fold_left].
    destruct (visit q (m, stack) attr) as [m1 st1] eqn:Hv.
    rewrite IH. unfold visit_entry in Hv.
    destruct (skipped q attr) eqn:Hskip; cbn [fst snd] in Hv; injection Hv as <- <-.
    + split.
      * intros [H | (a & Ha & Hk & Hp)]; [now left | right].
        exists a. split; [now right | auto].
      * intros [H | (a & Ha & Hk & Hp)]; [now left | right].
        apply elem_of_cons in Ha as [-> | Ha]; [congruence|]. eauto.
    + rewrite dom_insert_L, elem_of_union, elem_of_singleton. split.
      * intros [[-> | H] | (a & Ha & Hk & Hp)].
        -- right. exists attr. split; [left | auto].
        -- now left.
        -- right. exists a. split; [now right | auto].
      * intros [H | (a & Ha & Hk & Hp)]; [now left; right|].
        apply elem_of_cons in Ha as [-> | Ha]; [left; now left | right; eauto].
Qed.

Lemma fold_visit_stack_mem q l m stack s :
  s ∈ snd (fold_left (visit q) l (m, stack)) <->
  s ∈ stack \/ exists attr, attr ∈ l /\ skipped q attr = false
                            /\ S_ISDIR (st_mode attr) = true /\ s = rel_item_path q attr.
Proof.
  rewrite fold_visit_stack, elem_of_app, elem_of_reverse, list_elem_of_fmap.
  split.
  - intros [(attr & -> & Ha) | H]; [right | now left].
    apply list_elem_of_In, filter_In in Ha as [Ha Hk].
    unfold kept_dir in Hk. apply andb_true_iff in Hk as [Hk Hd].
    apply negb_true_iff in Hk. exists attr. rewrite list_elem_of_In. auto.
  - intros [H | (attr & Ha & Hk & Hd & ->)]; [now right | left].
    exists attr. split; [reflexivity|].
    apply list_elem_of_In, filter_In. split; [now apply list_elem_of_In|].
    unfold kept_dir. now rewrite Hk, Hd.
Qed.

Lemma walk_loop_done fuel : forall stack m done res,
  scan_done (m, stack) done ->
  walk_loop fuel stack m = Some (inl res) ->
  exists done', scan_done (res, []) done'.
Proof.
  induction fuel as [|fuel IH]; intros [|q stack] m done res Hinv; simpl.
  - intros [= <-]. eauto.
  - discriminate.
  - intros [= <-]. eauto.
  - destruct Hinv as [Hroot Hdone]. cbn [fst snd] in Hroot, Hdone.
    destruct (listing q) as [entries|e] eqn:Hl.
    + pose proof (fold_visit_dom q entries m stack) as Hdom.
      pose proof (fold_visit_stack_mem q entries m stack) as Hst.
      destruct (fold_left _ entries (m, stack)) as [m' stack'] eqn:Hfold.
      cbn [fst snd] in Hdom, Hst.
      apply (IH _ _ (q :: done)). split; cbn [fst snd].
      * destruct Hroot as [Hr | Hr]; [|right; now right].
        apply elem_of_cons in Hr as [<- | Hr]; [right; left|].
        left. apply Hst. now left.
      * intros q0 entries0 attr Hq0 Hl0 Ha Hk.
        apply elem_of_cons in Hq0 as [-> | Hq0].
        -- rewrite Hl in Hl0. injection Hl0 as <-. split.
           ++ apply Hdom. right. eauto.
           ++ intros Hd. left. apply Hst. right. eauto.
        -- destruct (Hdone q0 entries0 attr Hq0 Hl0 Ha Hk) as [Hin Hdir]. split.
           ++ apply Hdom. now left.
           ++ intros Hd. destruct (Hdir Hd) as [Hs | Hs]; [|right; now right].
              apply elem_of_cons in Hs as [-> | Hs]; [right; left|].
              left. apply Hst. now left.
    + destruct e; try discriminate.
      apply (IH _ _ (q :: done)). split; cbn [fst snd].
      * destruct Hroot as [Hr | Hr]; [|right; now right].
        apply elem_of_cons in Hr as [<- | Hr]; [right; left | now left].
      * intros q0 entries0 attr Hq0 Hl0 Ha Hk.
        apply elem_of_cons in Hq0 as [-> | Hq0]; [congruence|].
        destruct (Hdone q0 entries0 attr Hq0 Hl0 Ha Hk) as [Hin Hdir].
        split; [assumption|].
        intros Hd. destruct (Hdir Hd) as [Hs | Hs]; [|right; now right].
        apply elem_of_cons in Hs as [-> | Hs]; [right; left | now left].
Qed.

Lemma done_visited res done q :
  scan_done (res, []) done -> visited q -> q ∈ done.
Proof.
  intros [Hroot Hdone]. cbn [fst snd] in *.
  induction 1 as [|q entries attr Hq IH Hl Ha Hd Hk].
  - destruct Hroot as [H | H]; [inversion H | assumption].
  - destruct (Hdone q entries attr IH Hl Ha Hk) as [_ Hdir].
    destruct (Hdir Hd) as [H | H]; [inversion H | assumption].
Qed.

Lemma walk_remote_complete fuel res p :
  walk_remote os listdir_attr remote_path exclude_patterns source_code_only fuel
  = Some (inl res) ->
  recorded p -> p ∈ dom res.
Proof.
  intros Hwalk (q & entries & attr & Hq & Hl & Ha & Hk & ->).
  destruct (walk_loop_done fuel [""] ∅ [] res) as [done Hdone].
  - split; cbn [fst snd]; [left; left | intros ? ? ? H; inversion H].
  - exact Hwalk.
  - pose proof (done_visited _ _ _ Hdone Hq) as Hin.
    destruct Hdone as [_ Hdone]. now apply (Hdone q entries attr).
Qed.

(** *** The fuel *)

Lemma walk_loop_more_fuel fuel : forall fuel' stack m r,
  walk_loop fuel stack m = Some r -> (fuel <= fuel')%nat ->
  walk_loop fuel' stack m = Some r.
Proof.
  induction fuel as [|fuel IH]; intros fuel' [|q stack] m r; simpl.
  - intros [= <-] _. now destruct fuel'.
  - discriminate.
  - intros [= <-] _. now destruct fuel'.
  - intros H Hle. destruct fuel' as [|fuel']; [lia|]. simpl.
    destruct (listing q) as [entries|e].
    + destruct (fold_left _ entries (m, stack)) as [m' stack'].
      apply (IH fuel'); [assumption | lia].
    + destruct e; try assumption. apply (IH fuel'); [assumption | lia].
Qed.

Lemma walk_loop_fuel_irrelevant fuel fuel' stack m r r' :
  walk_loop fuel stack m = Some r -> walk_loop fuel' stack m = Some r' -> r' = r.
Proof.
  intros H H'.
  apply (walk_loop_more_fuel _ (Nat.max fuel fuel')) in H; [|lia].
  apply (walk_loop_more_fuel _ (Nat.max fuel fuel')) in H'; [|lia].
  congruence.
Qed.

End walk_more.

(** X6: the keys of the snapshot the scan returns are exactly the entries
    the filter keeps in the directories the scan lists, the root and the
    directories it keeps: nothing else is recorded and nothing kept is left
    out. *)
Theorem snapshot_keys_exact os listdir_attr remote_path exclude_patterns
    source_code_only fuel remote_map :
  walk_remote os listdir_attr remote_path exclude_patterns source_code_only fuel
  = Some (inl remote_map) ->
  forall p, p ∈ dom remote_map <->
            recorded os listdir_attr remote_path exclude_patterns source_code_only p.
Proof.
  intros Hwalk p. split.
  - now apply (walk_remote_recorded _ _ _ _ _ fuel remote_map).
  - now apply (walk_remote_complete _ _ _ _ _ fuel remote_map).
Qed.

Lemma snapshot_keys_exact_witness :
  "a/x.py" ∈ dom Examples.remote_tree_map <->
  recorded Examples.os_plain Examples.listdir_tree "/srv/proj" ["node_modules/"]
           true "a/x.py".
Proof.
  apply (snapshot_keys_exact Examples.os_plain Examples.listdir_tree "/srv/proj"
           ["node_modules/"] true 5 Examples.remote_tree_map).
  vm_compute. reflexivity.
Defined.

(** X7: the attributes stored at a path are those of the listing entry the
    path was built from: an entry the filter keeps, in a directory the scan
    lists. *)
Theorem snapshot_values_from_listing os listdir_attr remote_path exclude_patterns
    source_code_only fuel remote_map p attr :
  walk_remote os listdir_attr remote_path exclude_patterns source_code_only fuel
  = Some (inl remote_map) ->
  remote_map !! p = Some attr ->
  recorded_entry os listdir_attr remote_path exclude_patterns source_code_only p attr.
Proof.
  intros Hwalk. apply (walk_loop_entries _ _ _ _ _ fuel [""] ∅ remote_map);
    [|exact Hwalk].
  split; cbn [fst snd].
  - intros q a H. rewrite lookup_empty in H. discriminate H.
  - intros q Hq. apply list_elem_of_singleton in Hq as ->. constructor.
Qed.

Lemma snapshot_values_from_listing_witness :
  recorded_entry Examples.os_plain Examples.listdir_tree "/srv/proj"
                 ["node_modules/"] true "f.py" (Examples.file_attr "f.py" 7 100).
Proof.
  apply (snapshot_values_from_listing Examples.os_plain Examples.listdir_tree
           "/srv/proj" ["node_modules/"] true 5 Examples.remote_tree_map).
  - vm_compute. reflexivity.
  - reflexivity.
Defined.

(** X8: a directory whose listing raises [FileNotFoundError] is scanned as
    an empty directory: the scan goes on and returns what it returns on the
    server where that directory is there and empty. *)
Theorem missing_directory_scanned_as_empty os listdir_attr remote_path
    exclude_patterns source_code_only fuel :
  walk_remote os (missing_as_empty listdir_attr) remote_path exclude_patterns
              source_code_only fuel
  = walk_remote os listdir_attr remote_path exclude_patterns source_code_only fuel.
Proof.
  unfold walk_remote. generalize (∅ : gmap string SFTPAttributes).
  generalize [""]. induction fuel as [|fuel IH]; intros stack m.
  - now destruct stack.
  - destruct stack as [|q stack]; [reflexivity|]. simpl.
    unfold missing_as_empty at 1.
    destruct (listdir_attr (current_remote_path remote_path q)) as [entries|e].
    + destruct (fold_left _ entries (m, stack)) as [m' stack']. apply IH.
    + destruct e; try reflexivity. simpl. apply IH.
Qed.

(** X9: on a remote tree of bounded height the scan returns with any fuel
    from the number of its directories on, and what it returns does not
    depend on the fuel. *)
Theorem walk_remote_total os listdir_attr remote_path exclude_patterns
    source_code_only h fuel :
  height_le listdir_attr remote_path h "" ->
  (tree_size listdir_attr remote_path h "" <= fuel)%nat ->
  exists r,
    walk_remote os listdir_attr remote_path exclude_patterns source_code_only fuel
    = Some r
    /\ forall fuel' r',
        walk_remote os listdir_attr remote_path exclude_patterns source_code_only fuel'
        = Some r' -> r' = r.
Proof.
  intros Hh Hfuel.
  destruct (walk_remote_returns os listdir_attr remote_path exclude_patterns
              source_code_only h Hh) as [r Hr].
  exists r. split.
  - eapply walk_loop_more_fuel; eassumption.
  - intros fuel' r' H'. eapply walk_loop_fuel_irrelevant; eassumption.
Qed.

Lemma walk_remote_total_witness :
  exists r,
    walk_remote Examples.os_plain Examples.listdir_tree "/srv/proj"
                ["node_modules/"] true 5 = Some r
    /\ forall fuel' r',
        walk_remote Examples.os_plain Examples.listdir_tree "/srv/proj"
                    ["node_modules/"] true fuel' = Some r' -> r' = r.
Proof.
  apply (walk_remote_total Examples.os_plain Examples.listdir_tree "/srv/proj"
           ["node_modules/"] true 1 5).
  - intros attr Ha Hd.
    repeat (apply elem_of_cons in Ha as [-> | Ha]);
      try discriminate Hd; try (inversion Ha; fail);
      intros attr' Ha' Hd';
      repeat (apply elem_of_cons in Ha' as [-> | Ha']);
      try discriminate Hd'; inversion Ha'.
  - vm_compute. lia.
Defined.

Example scenario_local_scan :
  build_local_map Examples.os_proj MoreExamples.fs_proj "/home/u/proj"
                  [".git/"] true 5
  = Some (inl MoreExamples.local_proj_map).
Proof. vm_compute. reflexivity. Qed.

(** ** LocalTreeScanner *)

Section local_scan_facts.

Variable os : os_state.
Variable fs : local_fs.
Variable local_base : string.
Variable exclude_patterns : list string.
Variable source_code_only : bool.

Local Abbreviation rel_path_of := (rel_path_of os local_base).
Local Abbreviation all_justified :=
  (all_justified os fs local_base exclude_patterns source_code_only).
Local Abbreviation justified :=
  (justified os fs local_base exclude_patterns source_code_only).

Lemma filter_dirs_kept root dirs : forall kept,
  filter_dirs os local_base exclude_patterns root dirs = inl kept ->
  forall d, d ∈ kept ->
    exists rel, rel_path_of (posixpath.join root d) = inl rel
                /\ is_excluded os (rel +:+ "/") exclude_patterns false = false.
Proof.
  induction dirs as [|d0 dirs IH]; intros kept; simpl.
  - intros [= <-] d Hd. inversion Hd.
  - destruct (rel_path_of (posixpath.join root d0)) as [rel|e] eqn:Hrel; [|discriminate].
    destruct (filter_dirs os local_base exclude_patterns root dirs) as [kept0|e];
      [|discriminate].
    destruct (is_excluded os (rel +:+ "/") exclude_patterns false) eqn:Hex;
      intros [= <-] d Hd.
    + now apply (IH kept0).
    + apply elem_of_cons in Hd as [-> | Hd]; [eauto | now apply (IH kept0)].
Qed.

Lemma insert_justified m rel e :
  all_justified m -> justified rel e -> all_justified (<[rel := e]> m).
Proof.
  intros Hm He k v Hk. destruct (decide (rel = k)) as [<- | Hne].
  - rewrite lookup_insert_eq in Hk. now injection Hk as <-.
  - rewrite lookup_insert_ne in Hk by assumption. now apply Hm.
Qed.

Lemma record_dirs_justified root dirs : forall m m',
  (forall d, d ∈ dirs ->
     exists rel, rel_path_of (posixpath.join root d) = inl rel
                 /\ is_excluded os (rel +:+ "/") exclude_patterns false = false) ->
  all_justified m ->
  record_dirs os local_base root dirs m = inl m' ->
  all_justified m'.
Proof.
  induction dirs as [|d dirs IH]; intros m m' Hd Hm; simpl.
  - now intros [= <-].
  - destruct (Hd d) as (rel & Hrel & Hex); [left|]. rewrite Hrel.
    apply IH.
    + intros d' Hd'. apply Hd. now right.
    + apply insert_justified; [assumption|]. simpl. eauto.
Qed.

Lemma record_files_justified root files : forall m m',
  all_justified m ->
  record_files os fs local_base exclude_patterns source_code_only root files m = inl m' ->
  all_justified m'.
Proof.
  induction files as [|f files IH]; intros m m' Hm; simpl.
  - now intros [= <-].
  - destruct (rel_path_of (posixpath.join root f)) as [rel|e] eqn:Hrel; [|discriminate].
    destruct (is_excluded os rel exclude_patterns source_code_only) eqn:Hex; simpl;
      [now apply IH|].
    destruct (stat fs (posixpath.join root f)) as [[mtime size]|e] eqn:Hstat.
    + apply IH. apply insert_justified; [assumption|]. simpl. eauto.
    + destruct e; try discriminate. now apply IH.
Qed.

Lemma walk_dirs_justified recurse root dirs :
  (forall p m m', all_justified m -> recurse p m = Some (inl m') -> all_justified m') ->
  forall m m', all_justified m ->
    walk_dirs fs recurse root dirs m = Some (inl m') -> all_justified m'.
Proof.
  intros Hrec. induction dirs as [|d dirs IH]; intros m m' Hm; simpl.
  - now intros [= <-].
  - destruct (islink fs (posixpath.join root d)); [now apply IH|].
    destruct (recurse (posixpath.join root d) m) as [[m1|e]|] eqn:Hr;
      [|discriminate..].
    apply IH. now apply (Hrec _ _ _ Hm Hr).
Qed.

Lemma walk_local_justified fuel : forall root m m',
  all_justified m ->
  walk_local os fs local_base exclude_patterns source_code_only fuel root m
  = Some (inl m') ->
  all_justified m'.
Proof.
  induction fuel as [|fuel IH]; intros root m m' Hm; simpl; [discriminate|].
  destruct (scandir fs root) as [entries|]; [|now intros [= <-]].
  destruct (filter_dirs os local_base exclude_patterns root _) as [dirs|e] eqn:Hf;
    [|discriminate].
  destruct (record_dirs os local_base root dirs m) as [m1|e] eqn:Hd; [|discriminate].
  destruct (record_files os fs local_base exclude_patterns source_code_only root _ m1)
    as [m2|e] eqn:Hfiles; [|discriminate].
  apply (walk_dirs_justified _ _ _ IH).
  assert (Hm1 : all_justified m1)
    by apply (record_dirs_justified _ _ _ _ (filter_dirs_kept _ _ _ Hf) Hm Hd).
  apply (record_files_justified _ _ _ _ Hm1 Hfiles).
Qed.

End local_scan_facts.

(** X10: every entry of the local map passed the filter. A directory
    entry is the relative path of a directory that no pattern excludes,
    checked with the trailing slash and without source-code-only; a file
    entry is the relative path of a file the filter keeps, with the
    modification time and size [os.stat] gave for it. *)
Theorem local_map_justified os fs local_base exclude_patterns source_code_only
    fuel local_map :
  build_local_map os fs local_base exclude_patterns source_code_only fuel
  = Some (inl local_map) ->
  all_justified os fs local_base exclude_patterns source_code_only local_map.
Proof.
  apply walk_local_justified. intros k v H. rewrite lookup_empty in H. discriminate H.
Qed.

Lemma local_map_justified_witness :
  all_justified Examples.os_proj MoreExamples.fs_proj "/home/u/proj" [".git/"] true
                MoreExamples.local_proj_map.
Proof.
  apply (local_map_justified Examples.os_proj MoreExamples.fs_proj "/home/u/proj"
           [".git/"] true 5).
  vm_compute. reflexivity.
Defined.

(** ** Reconciler: the plan and its execution *)

(** X11: the calls of a pass are exactly these: for a path present only
    locally, the creation of the directory or the upload of the file; for
    a path on both sides, the upload of a local file that the comparison
    finds modified; and, when deletion is permitted, for a path present
    only remotely, the removal of the directory or of the file. *)
Theorem plan_exact local_map remote_map allow a :
  a ∈ initial_sync_actions local_map remote_map allow <->
  (action_path a ∈ dom local_map /\ (action_path a ∉ dom remote_map)
   /\ a = create_action local_map (action_path a))
  \/ (action_path a ∈ dom local_map /\ action_path a ∈ dom remote_map
      /\ needs_update local_map remote_map (action_path a) = true
      /\ a = Put (action_path a))
  \/ (allow = true /\ (action_path a ∉ dom local_map)
      /\ action_path a ∈ dom remote_map
      /\ a = delete_action remote_map (action_path a)).
Proof.
  rewrite elem_of_initial_sync_actions, elem_of_create_actions,
    elem_of_update_actions, elem_of_delete_actions.
  unfold to_upload, to_check, to_delete.
  rewrite !elem_of_difference, elem_of_intersection. tauto.
Qed.

(** X12: a path that is a directory locally and is present remotely gets no
    call, whatever the remote entry is, a file of the same name included. *)
Theorem common_directory_untouched local_map remote_map allow p a :
  local_map !! p = Some LocalDir ->
  p ∈ dom remote_map ->
  a ∈ initial_sync_actions local_map remote_map allow ->
  action_path a <> p.
Proof.
  intros Hl Hr Ha Hp. subst p.
  apply action_on_common_path in Ha; [|apply elem_of_dom; eauto | assumption].
  destruct Ha as [_ Ha]. unfold needs_update in Ha. rewrite Hl in Ha. discriminate Ha.
Qed.

Lemma common_directory_untouched_witness :
  action_path (Put "f.txt") <> "docs".
Proof.
  apply (common_directory_untouched
           {[ "docs" := LocalDir; "f.txt" := LocalFile 13 10 ]}
           {[ "docs" := Examples.file_attr "docs" 3 0;
              "f.txt" := Examples.file_attr "f.txt" 10 11 ]}
           false "docs" (Put "f.txt")).
  - reflexivity.
  - apply elem_of_dom. eexists. reflexivity.
  - apply list_elem_of_In. vm_compute. left. reflexivity.
Defined.

Section run_actions_more.

Variable sftp : sftp_t.

Lemma calls_of_cons_call a out : calls_of (Call a :: out) = a :: calls_of out.
Proof. reflexivity. Qed.

Lemma calls_of_cons_log l out : calls_of (Log l :: out) = calls_of out.
Proof. reflexivity. Qed.

Lemma last_cons_some {A} (x a : A) (l : list A) :
  last l = Some a -> last (x :: l) = Some a.
Proof. destruct l; [discriminate | auto]. Qed.

Lemma run_actions_prefix calls : forall out r,
  run_actions sftp calls = (out, r) ->
  calls_of out `prefix_of` calls
  /\ (r = None -> calls_of out = calls)
  /\ (forall e, r = Some e ->
        is_Exception e = false
        /\ exists a, last (calls_of out) = Some a /\ sftp a = Some e).
Proof.
  induction calls as [|c calls IH]; intros out r; simpl.
  - intros [= <- <-]. split; [reflexivity | split; [reflexivity | discriminate]].
  - destruct (sftp c) as [e|] eqn:Hc.
    + destruct (is_Exception e) eqn:He.
      * destruct (run_actions sftp calls) as [out' r'] eqn:Hrun.
        intros [= <- <-]. destruct (IH _ _ eq_refl) as (Hp & Hn & Hs).
        rewrite calls_of_cons_call, calls_of_cons_log. split; [|split].
        -- now apply prefix_cons.
        -- intros ->. now rewrite Hn.
        -- intros e' He'. destruct (Hs _ He') as (Hx & a & Hl & Ha).
           split; [assumption|]. exists a. split; [|assumption].
           now apply last_cons_some.
      * intros [= <- <-]. rewrite calls_of_cons_call. split; [|split].
        -- apply prefix_cons, prefix_nil.
        -- discriminate.
        -- intros e' [= <-]. split; [assumption|]. now exists c.
    + destruct (run_actions sftp calls) as [out' r'] eqn:Hrun.
      intros [= <- <-]. destruct (IH _ _ eq_refl) as (Hp & Hn & Hs).
      rewrite calls_of_cons_call. split; [|split].
      * now apply prefix_cons.
      * intros ->. now rewrite Hn.
      * intros e' He'. destruct (Hs _ He') as (Hx & a & Hl & Ha).
        split; [assumption|]. exists a. split; [|assumption].
        now apply last_cons_some.
Qed.

Lemma run_actions_logged calls : forall out r a e,
  run_actions sftp calls = (out, r) ->
  Call a ∈ out -> sftp a = Some e -> is_Exception e = true ->
  Log (ActionError a e) ∈ out.
Proof.
  induction calls as [|c calls IH]; intros out r a e; simpl.
  - intros [= <- <-] H. inversion H.
  - destruct (sftp c) as [e'|] eqn:Hc.
    + destruct (is_Exception e') eqn:He'.
      * destruct (run_actions sftp calls) as [out' r'] eqn:Hrun.
        intros [= <- <-] Hin Ha He.
        rewrite !elem_of_cons in Hin. destruct Hin as [[= ->] | [[=] | Hin]].
        -- rewrite Hc in Ha. injection Ha as ->. right. left.
        -- right. right. now apply (IH _ _ _ _ eq_refl).
      * intros [= <- <-] Hin Ha He.
        apply list_elem_of_singleton in Hin as [= ->]. congruence.
    + destruct (run_actions sftp calls) as [out' r'] eqn:Hrun.
      intros [= <- <-] Hin Ha He.
      apply elem_of_cons in Hin as [[= ->] | Hin]; [congruence|].
      right. now apply (IH _ _ _ _ eq_refl).
Qed.

End run_actions_more.

(** X13: the calls of a pass are attempted in the order of the plan, none
    passed over. A call that raises an [Exception] is logged and the pass
    goes on, so that when nothing else is raised every call of the plan is
    attempted; only an exception that is not an [Exception] stops the
    pass, at the call that raised it. *)
Theorem pass_is_best_effort sftp calls out r :
  run_actions sftp calls = (out, r) ->
  calls_of out `prefix_of` calls
  /\ (r = None -> calls_of out = calls)
  /\ (forall e, r = Some e ->
        is_Exception e = false
        /\ exists a, last (calls_of out) = Some a /\ sftp a = Some e)
  /\ (forall a e, Call a ∈ out -> sftp a = Some e -> is_Exception e = true ->
        Log (ActionError a e) ∈ out).
Proof.
  intros H. destruct (run_actions_prefix sftp calls out r H) as (H1 & H2 & H3).
  split; [assumption | split; [assumption | split; [assumption|]]].
  intros a e. now apply (run_actions_logged sftp calls out r).
Qed.

Lemma pass_is_best_effort_witness :
  calls_of [Call (Put "a.py"); Log (ActionError (Put "a.py") PermissionError);
            Call (Put "b.py")]
  = [Put "a.py"; Put "b.py"].
Proof.
  refine (proj1 (proj2 (pass_is_best_effort Examples.sftp_deny
                          [Put "a.py"; Put "b.py"] _ None _)) eq_refl).
  reflexivity.
Defined.

Lemma perform_initial_sync_calls os listdir_attr sftp cfg local_map fuel out r a :
  perform_initial_sync os listdir_attr sftp cfg local_map fuel = Some (out, r) ->
  Call a ∈ out ->
  exists remote_map,
    walk_remote os listdir_attr (remote_path cfg) (exclude_patterns cfg)
                (source_code_only cfg) fuel = Some (inl remote_map)
    /\ a ∈ initial_sync_actions local_map remote_map (initial_sync_delete cfg).
Proof.
  unfold perform_initial_sync.
  destruct (walk_remote _ _ _ _ _ _) as [[remote_map|e]|]; [| |discriminate].
  - destruct (run_actions sftp _) as [out0 r0] eqn:Hrun.
    intros Hsync Ha. exists remote_map. split; [reflexivity|].
    apply (run_actions_calls _ _ _ _ _ Hrun).
    destruct r0; injection Hsync as <- <-; [assumption|].
    rewrite !elem_of_app in Ha. destruct Ha as [Ha | [Ha | Ha]]; [assumption | |].
    + unfold report_output in Ha. destruct (extra_report _ _ _); [|inversion Ha].
      apply list_elem_of_singleton in Ha. discriminate Ha.
    + apply list_elem_of_singleton in Ha. discriminate Ha.
  - intros [= <- <-] Ha. inversion Ha.
Qed.

(** X14: reconciliation sends nothing the filter excludes. In a pass that
    starts from the scan of the local root, every upload is of a file the
    filter keeps, for which [os.stat] succeeded, and every directory
    created is one that no pattern excludes; a removal is issued only when
    deletion is permitted, and never on a path of the local map. *)
Theorem pass_sends_only_kept os fs listdir_attr sftp cfg fuel out r a :
  perform_initial_sync_scan os fs listdir_attr sftp cfg fuel = Some (out, r) ->
  Call a ∈ out ->
  exists local_map,
    build_local_map os fs (expanduser os (local_path cfg)) (exclude_patterns cfg)
                    (source_code_only cfg) fuel = Some (inl local_map)
    /\ match a with
       | Put p =>
           exists mtime size,
             local_map !! p = Some (LocalFile mtime size)
             /\ justified os fs (expanduser os (local_path cfg)) (exclude_patterns cfg)
                          (source_code_only cfg) p (LocalFile mtime size)
       | Mkdir p =>
           local_map !! p = Some LocalDir
           /\ justified os fs (expanduser os (local_path cfg)) (exclude_patterns cfg)
                        (source_code_only cfg) p LocalDir
       | Rmdir p | Remove p =>
           initial_sync_delete cfg = true /\ local_map !! p = None
       end.
Proof.
  unfold perform_initial_sync_scan.
  destruct (build_local_map _ _ _ _ _ _) as [[local_map|e]|] eqn:Hscan;
    [| intros [= <- <-] Ha; inversion Ha | discriminate].
  intros Hsync Ha. exists local_map. split; [reflexivity|].
  pose proof (local_map_justified _ _ _ _ _ _ _ Hscan) as Hj.
  destruct (perform_initial_sync_calls _ _ _ _ _ _ _ _ _ Hsync Ha)
    as (remote_map & _ & Hplan).
  apply plan_exact in Hplan.
  destruct Hplan as [(Hl & _ & Heq) | [(Hl & _ & Hn & Heq) | (Hallow & Hl & _ & Heq)]].
  - apply elem_of_dom in Hl as [e Hl].
    unfold create_action, local_is_dir in Heq. rewrite Hl in Heq.
    destruct a as [p|p|p|p]; simpl in *; destruct e as [|mtime size];
      simpl in Heq; try discriminate Heq.
    + split; [assumption | exact (Hj _ _ Hl)].
    + exists mtime, size. split; [assumption | exact (Hj _ _ Hl)].
  - destruct a as [p|p|p|p]; try discriminate Heq.
    unfold needs_update in Hn. cbn [action_path] in Hn.
    destruct (local_map !! p) as [[|mtime size]|] eqn:Hl';
      try discriminate Hn.
    exists mtime, size. split; [reflexivity | exact (Hj _ _ Hl')].
  - apply not_elem_of_dom in Hl. unfold delete_action in Heq.
    destruct a as [p|p|p|p]; simpl in *;
      destruct (remote_is_dir remote_map p); try discriminate Heq; auto.
Qed.

Lemma pass_sends_only_kept_witness :
  exists local_map,
    build_local_map Examples.os_proj MoreExamples.fs_proj
                    (expanduser Examples.os_proj (local_path MoreExamples.cfg_git))
                    (exclude_patterns MoreExamples.cfg_git)
                    (source_code_only MoreExamples.cfg_git) 5
    = Some (inl local_map)
    /\ exists mtime size,
        local_map !! "src/app.py" = Some (LocalFile mtime size)
        /\ justified Examples.os_proj MoreExamples.fs_proj
                     (expanduser Examples.os_proj (local_path MoreExamples.cfg_git))
                     (exclude_patterns MoreExamples.cfg_git)
                     (source_code_only MoreExamples.cfg_git)
                     "src/app.py" (LocalFile mtime size).
Proof.
  apply (pass_sends_only_kept Examples.os_proj MoreExamples.fs_proj
           (fun _ => inl []) Examples.sftp_ok MoreExamples.cfg_git 5
           [Call (Put "main.py"); Call (Mkdir "src"); Call (Put "src/app.py");
            Log InitialSyncCompleted] None (Put "src/app.py")).
  - vm_compute. reflexivity.
  - right. right. left.
Defined.

(** ** EventTranslator *)

Section event_facts.

Variable cfg : config.
Variable os : os_state.
Variable add_watch : inotify.add_watch_t.
Variable sftp : sftp_t.
Variable fuel : nat.
Variable local_path : string.

(** The path the filter is asked about for an event. *)
Lemma process_event_call wd_map ev m out r a :
  process_event cfg os add_watch sftp fuel local_path wd_map ev = Some (m, out, r) ->
  Call a ∈ out ->
  out = [Call a]
  /\ exists parent rel,
      wd_map !! inotify.wd ev = Some parent
      /\ posixpath.relpath (cwd os) (posixpath.join parent (inotify.name ev)) local_path
         = Some rel
      /\ action_path a = rel
      /\ is_excluded os (rel +:+ (if inotify.has ev inotify.ISDIR then "/" else ""))
                     (exclude_patterns cfg) (source_code_only cfg) = false
      /\ (if inotify.has ev inotify.ISDIR
          then a = Mkdir rel \/ a = Rmdir rel
          else a = Put rel \/ a = Remove rel).
Proof.
  unfold process_event, live_call.
  destruct (wd_map !! inotify.wd ev) as [parent|]; [|intros [= <- <- <-] H; inversion H].
  destruct (posixpath.relpath _ _ _) as [rel|] eqn:Hrel;
    [|intros [= <- <- <-] H; inversion H].
  destruct (is_excluded _ _ _ _) eqn:Hex; [intros [= <- <- <-] H; inversion H|].
  intros Hres Hin.
  assert (Hgoal : forall a0, out = [Call a0] ->
            (if inotify.has ev inotify.ISDIR
             then a0 = Mkdir rel \/ a0 = Rmdir rel
             else a0 = Put rel \/ a0 = Remove rel) ->
            action_path a0 = rel ->
            out = [Call a]
            /\ exists parent0 rel0,
                Some parent = Some parent0
                /\ posixpath.relpath (cwd os)
                     (posixpath.join parent0 (inotify.name ev)) local_path = Some rel0
                /\ action_path a = rel0
                /\ is_excluded os (rel0 +:+ (if inotify.has ev inotify.ISDIR
                                             then "/" else ""))
                               (exclude_patterns cfg) (source_code_only cfg) = false
                /\ (if inotify.has ev inotify.ISDIR
                    then a = Mkdir rel0 \/ a = Rmdir rel0
                    else a = Put rel0 \/ a = Remove rel0)).
  { intros a0 Hout Hkind Hpath. rewrite Hout in Hin.
    apply list_elem_of_singleton in Hin as [= ->].
    split; [assumption|]. exists parent, rel. auto. }
  destruct (inotify.has ev (Z.lor inotify.CREATE inotify.MOVED_TO));
    destruct (inotify.has ev inotify.ISDIR) eqn:Hd; simpl in Hres.
  - destruct (sftp (Mkdir rel)).
    + injection Hres as <- <- <-. apply (Hgoal (Mkdir rel)); auto.
    + destruct (add_watch_recursively _ _ _ _ _ _) as [[m1 r1]|]; [|discriminate].
      injection Hres as <- <- <-. apply (Hgoal (Mkdir rel)); auto.
  - injection Hres as <- <- <-. apply (Hgoal (Put rel)); auto.
  - destruct (inotify.has ev inotify.MODIFY); simpl in Hres.
    + destruct (inotify.has ev (Z.lor inotify.DELETE inotify.MOVED_FROM));
        injection Hres as <- <- <-; [apply (Hgoal (Rmdir rel)); auto | inversion Hin].
    + destruct (inotify.has ev (Z.lor inotify.DELETE inotify.MOVED_FROM));
        injection Hres as <- <- <-; [apply (Hgoal (Rmdir rel)); auto | inversion Hin].
  - destruct (inotify.has ev inotify.MODIFY); simpl in Hres.
    + injection Hres as <- <- <-. apply (Hgoal (Put rel)); auto.
    + destruct (inotify.has ev (Z.lor inotify.DELETE inotify.MOVED_FROM));
        injection Hres as <- <- <-; [apply (Hgoal (Remove rel)); auto | inversion Hin].
Qed.

Lemma process_event_ignored wd_map ev m out r :
  inotify.has ev (Z.lor inotify.CREATE inotify.MOVED_TO) = false ->
  inotify.has ev (Z.lor inotify.DELETE inotify.MOVED_FROM) = false ->
  (inotify.has ev inotify.MODIFY && negb (inotify.has ev inotify.ISDIR))%bool = false ->
  process_event cfg os add_watch sftp fuel local_path wd_map ev = Some (m, out, r) ->
  m = wd_map /\ out = [].
Proof.
  intros Hc Hdel Hm. unfold process_event, live_call.
  rewrite Hc, Hdel, Hm.
  destruct (wd_map !! inotify.wd ev); [|now intros [= <- <- <-]].
  destruct (posixpath.relpath _ _ _); [|now intros [= <- <- <-]].
  destruct (is_excluded _ _ _ _); now intros [= <- <- <-].
Qed.


End event_facts.

(** X15: an event is translated to at most one call. The call is on the
    relative path of the entry the event names, under the directory its
    handle is registered for; the filter has kept that path, asked with a
    trailing slash when the event is flagged as a directory; and a
    directory event gives [mkdir] or [rmdir] only, a file event [put] or
    [remove] only. *)
Theorem event_call_provenance cfg os add_watch sftp fuel local_path wd_map ev m out r a :
  process_event cfg os add_watch sftp fuel local_path wd_map ev = Some (m, out, r) ->
  Call a ∈ out ->
  out = [Call a]
  /\ exists parent rel,
      wd_map !! inotify.wd ev = Some parent
      /\ posixpath.relpath (cwd os) (posixpath.join parent (inotify.name ev)) local_path
         = Some rel
      /\ action_path a = rel
      /\ is_excluded os (rel +:+ (if inotify.has ev inotify.ISDIR then "/" else ""))
                     (exclude_patterns cfg) (source_code_only cfg) = false
      /\ (if inotify.has ev inotify.ISDIR
          then a = Mkdir rel \/ a = Rmdir rel
          else a = Put rel \/ a = Remove rel).
Proof. apply process_event_call. Qed.

Lemma event_call_provenance_witness :
  [Call (Put "a.py")] = [Call (Put "a.py")]
  /\ exists parent rel,
      Examples.wd_root !! inotify.wd (Examples.created_file "a.py") = Some parent
      /\ posixpath.relpath (cwd Examples.os_proj)
           (posixpath.join parent (inotify.name (Examples.created_file "a.py")))
           "/home/u/proj" = Some rel
      /\ action_path (Put "a.py") = rel
      /\ is_excluded Examples.os_proj
           (rel +:+ (if inotify.has (Examples.created_file "a.py") inotify.ISDIR
                     then "/" else ""))
           (exclude_patterns (Examples.cfg_proj true))
           (source_code_only (Examples.cfg_proj true)) = false
      /\ (if inotify.has (Examples.created_file "a.py") inotify.ISDIR
          then Put "a.py" = Mkdir rel \/ Put "a.py" = Rmdir rel
          else Put "a.py" = Put rel \/ Put "a.py" = Remove rel).
Proof.
  apply (event_call_provenance (Examples.cfg_proj true) Examples.os_proj
           Examples.add_watch_proj Examples.sftp_ok 5 "/home/u/proj"
           Examples.wd_root (Examples.created_file "a.py")
           Examples.wd_root [Call (Put "a.py")] None (Put "a.py")).
  - vm_compute. reflexivity.
  - left.
Defined.

(** X16: an event that is neither a creation or move in, nor a deletion or
    move out, nor the modification of a file, is passed over: the
    modification of a directory and the events of the watched directory
    itself ([DELETE_SELF], [MOVE_SELF]) give no call and leave the registry
    as it is. *)
Theorem other_events_ignored cfg os add_watch sftp fuel local_path wd_map ev m out r :
  inotify.has ev (Z.lor inotify.CREATE inotify.MOVED_TO) = false ->
  inotify.has ev (Z.lor inotify.DELETE inotify.MOVED_FROM) = false ->
  (inotify.has ev inotify.MODIFY && negb (inotify.has ev inotify.ISDIR))%bool = false ->
  process_event cfg os add_watch sftp fuel local_path wd_map ev = Some (m, out, r) ->
  m = wd_map /\ out = [].
Proof. apply process_event_ignored. Qed.

Lemma other_events_ignored_witness :
  Examples.wd_root = Examples.wd_root /\ @nil output = [].
Proof.
  apply (other_events_ignored (Examples.cfg_proj false) Examples.os_proj
           Examples.add_watch_proj Examples.sftp_ok 5 "/home/u/proj" Examples.wd_root
           {| inotify.wd := 1; inotify.mask := Z.lor inotify.MODIFY inotify.ISDIR;
              inotify.name := "new" |}
           Examples.wd_root [] None);
    vm_compute; reflexivity.
Defined.



(** ** The watch registry *)

Section registry_more.

Variable cfg : config.
Variable os : os_state.
Variable add_watch : inotify.add_watch_t.

Local Abbreviation watchable := (watchable cfg os add_watch).

Local Abbreviation from_or_registered := (from_or_registered cfg os add_watch).

Lemma watch_children_sound base recurse path items :
  (forall p w m r, recurse p w = Some (m, r) ->
                   from_or_registered base w -> from_or_registered base m) ->
  forall wd_map m r,
    watch_children os recurse path items wd_map = Some (m, r) ->
    from_or_registered base wd_map -> from_or_registered base m.
Proof.
  intros Hrec. induction items as [|item items IH]; intros wd_map m r; simpl.
  - now intros [= <- <-].
  - destruct (isdir os (posixpath.join path item)); [|apply IH].
    destruct (recurse (posixpath.join path item) wd_map)
      as [[m1 [e|]]|] eqn:Hchild; [| |discriminate].
    + intros H Hs. apply (Hrec _ _ _ _ Hchild) in Hs.
      destruct (is_Exception e); now injection H as <- <-.
    + intros H Hs. apply (IH _ _ _ H). now apply (Hrec _ _ _ _ Hchild).
Qed.

Lemma add_watch_recursively_sound base fuel :
  forall path wd_map m r,
    add_watch_recursively cfg os add_watch fuel path wd_map = Some (m, r) ->
    from_or_registered base wd_map -> from_or_registered base m.
Proof.
  induction fuel as [|fuel IH]; intros path wd_map m r; simpl; [discriminate|].
  destruct (negb (exists_ os path)) eqn:Hex; [now intros [= <- <-]|].
  destruct (posixpath.relpath _ _ _) as [rel|] eqn:Hrel; [|now intros [= <- <-]].
  destruct (is_excluded _ _ _ _) eqn:Hfilter; [now intros [= <- <-]|].
  destruct (add_watch path) as [w|] eqn:Hw; [|now intros [= <- <-]].
  intros H Hs.
  assert (Hs1 : from_or_registered base (<[w := path]> wd_map)).
  { intros w' p Hl. destruct (decide (w = w')) as [<- | Hne].
    - rewrite lookup_insert_eq in Hl. injection Hl as <-. right.
      apply negb_false_iff in Hex. repeat split; try assumption. eauto.
    - rewrite lookup_insert_ne in Hl by assumption. now apply Hs. }
  destruct (listdir os path) as [items|].
  - now apply (watch_children_sound base _ _ _ IH _ _ _ H).
  - now injection H as <- <-.
Qed.



Hypothesis Hone : one_handle_per_path add_watch.


End registry_more.

(** X18: every entry of the registry after [add_watch_recursively] was
    there before or was registered by it: its path exists, passed the
    filter of the watch registration, and has the handle the event source
    gave for it. *)
Theorem registry_entries_registered cfg os add_watch fuel path wd_map m r w p :
  add_watch_recursively cfg os add_watch fuel path wd_map = Some (m, r) ->
  m !! w = Some p ->
  wd_map !! w = Some p \/ watchable cfg os add_watch p w.
Proof.
  intros H Hl.
  apply (add_watch_recursively_sound cfg os add_watch wd_map fuel path wd_map m r H);
    [|exact Hl].
  intros w' p' H'. now left.
Qed.

Lemma registry_entries_registered_witness :
  (∅ : gmap Z string) !! 2 = Some "/home/u/proj/new"
  \/ watchable (Examples.cfg_proj false) Examples.os_proj Examples.add_watch_proj
               "/home/u/proj/new" 2.
Proof.
  apply (registry_entries_registered (Examples.cfg_proj false) Examples.os_proj
           Examples.add_watch_proj 3 "/home/u/proj/new" ∅
           {[ 2 := "/home/u/proj/new" ]} None).
  - vm_compute. reflexivity.
  - reflexivity.
Defined.






Section containment.

Variable cfg : config.
Variable os : os_state.
Variable add_watch : inotify.add_watch_t.



End containment.



(** X22: a batch of events ends at the first exception: when the events
    [l1] end with an exception, the events that follow them in the same
    batch are not looked at, whatever they are. *)
Theorem batch_stops_at_first_exception cfg os add_watch sftp fuel local_path
    l1 l2 wd_map m out e :
  process_events cfg os add_watch sftp fuel local_path l1 wd_map = Some (m, out, Some e) ->
  process_events cfg os add_watch sftp fuel local_path (l1 ++ l2) wd_map
  = Some (m, out, Some e).
Proof.
  revert wd_map m out. induction l1 as [|ev l1 IH]; intros wd_map m out; simpl.
  - discriminate.
  - destruct (process_event _ _ _ _ _ _ wd_map ev) as [[[m1 o1] [e1|]]|];
      [trivial | | discriminate].
    destruct (process_events _ _ _ _ _ _ l1 m1) as [[[m2 o2] r2]|] eqn:Hrest;
      [|discriminate].
    intros [= <- <- ->]. now rewrite (IH _ _ _ Hrest).
Qed.

Lemma batch_stops_at_first_exception_witness :
  process_events (Examples.cfg_proj false) Examples.os_proj Examples.add_watch_proj
                 sftp_no_mkdir 5 "/home/u/proj"
                 ([Examples.created_dir "new"] ++ [Examples.created_file "a.py"])
                 Examples.wd_root
  = Some (Examples.wd_root, [Call (Mkdir "new")], Some PermissionError).
Proof.
  apply (batch_stops_at_first_exception (Examples.cfg_proj false) Examples.os_proj
           Examples.add_watch_proj sftp_no_mkdir 5 "/home/u/proj"
           [Examples.created_dir "new"] [Examples.created_file "a.py"]
           Examples.wd_root Examples.wd_root [Call (Mkdir "new")] PermissionError).
  vm_compute. reflexivity.
Defined.

(** ** The connection as a context manager *)

Local Abbreviation quiet := (Forall (fun o => is_connection_lost o = false)).

Lemma run_actions_quiet sftp calls : quiet (run_actions sftp calls).1.
Proof.
  induction calls as [|a calls IH]; simpl; [constructor|].
  destruct (sftp a) as [e|].
  - destruct (is_Exception e).
    + destruct (run_actions sftp calls) as [out r]. simpl in *.
      repeat constructor. exact IH.
    + repeat constructor.
  - destruct (run_actions sftp calls) as [out r]. simpl in *.
    repeat constructor. exact IH.
Qed.

Lemma perform_initial_sync_quiet os listdir_attr sftp cfg local_map fuel out r :
  perform_initial_sync os listdir_attr sftp cfg local_map fuel = Some (out, r) ->
  quiet out.
Proof.
  unfold perform_initial_sync.
  destruct (walk_remote _ _ _ _ _ _) as [[remote_map|e]|]; [| |discriminate].
  - pose proof (run_actions_quiet sftp
      (initial_sync_actions local_map remote_map (initial_sync_delete cfg))) as Hq.
    destruct (run_actions sftp _) as [out0 [e|]]; simpl in Hq.
    + now intros [= <- <-].
    + intros [= <- <-]. rewrite !Forall_app. split; [exact Hq|]. split.
      * destruct (extra_report _ _ _); repeat constructor.
      * repeat constructor.
  - intros [= <- <-]. constructor.
Qed.

Lemma initial_phase_quiet cfg i out r :
  initial_phase cfg i = Some (out, r) -> quiet out.
Proof.
  unfold initial_phase. destruct (initial_sync_enabled cfg).
  - apply perform_initial_sync_quiet.
  - intros [= <- <-]. repeat constructor.
Qed.

Section quiet_events.

Variable cfg : config.
Variable os : os_state.
Variable add_watch : inotify.add_watch_t.
Variable sftp : sftp_t.
Variable fuel : nat.
Variable local_path : string.

Lemma process_event_quiet wd_map ev m out r :
  process_event cfg os add_watch sftp fuel local_path wd_map ev = Some (m, out, r) ->
  quiet out.
Proof.
  unfold process_event, live_call.
  destruct (wd_map !! inotify.wd ev); [|intros [= <- <- <-]; constructor].
  destruct (posixpath.relpath _ _ _); [|intros [= <- <- <-]; constructor].
  destruct (is_excluded _ _ _ _); [intros [= <- <- <-]; constructor|].
  repeat match goal with
         | |- context [if ?b then _ else _] => destruct b
         | |- context [match sftp ?a with _ => _ end] => destruct (sftp a)
         | |- context [match add_watch_recursively ?c ?o ?a ?f ?p ?w with _ => _ end] =>
             destruct (add_watch_recursively c o a f p w) as [[? ?]|]
         end;
    try discriminate; intros [= <- <- <-]; repeat constructor.
Qed.

Lemma process_events_quiet events : forall wd_map m out r,
  process_events cfg os add_watch sftp fuel local_path events wd_map = Some (m, out, r) ->
  quiet out.
Proof.
  induction events as [|ev events IH]; intros wd_map m out r; simpl.
  - intros [= <- <- <-]. constructor.
  - destruct (process_event _ _ _ _ _ _ wd_map ev) as [[[m1 o1] r1]|] eqn:Hev;
      [|discriminate].
    apply process_event_quiet in Hev. destruct r1 as [e|].
    + now intros [= <- <- <-].
    + destruct (process_events _ _ _ _ _ _ events m1) as [[[m2 o2] r2]|] eqn:Hrest;
        [|discriminate].
      intros [= <- <- <-]. apply Forall_app. split; [exact Hev|].
      exact (IH _ _ _ _ Hrest).
Qed.

Lemma watching_quiet reads : forall wd_map m out r,
  watching cfg os add_watch sftp fuel local_path reads wd_map = Some (m, out, r) ->
  quiet out.
Proof.
  induction reads as [|rd reads IH]; intros wd_map m out r; simpl.
  - intros [= <- <- <-]. constructor.
  - destruct rd as [events|e]; [|intros [= <- <- <-]; constructor].
    destruct (process_events _ _ _ _ _ _ events wd_map) as [[[m1 o1] r1]|] eqn:Hev;
      [|discriminate].
    apply process_events_quiet in Hev. destruct r1 as [e|].
    + now intros [= <- <- <-].
    + destruct (watching _ _ _ _ _ _ reads m1) as [[[m2 o2] r2]|] eqn:Hrest;
        [|discriminate].
      intros [= <- <- <-]. apply Forall_app. split; [exact Hev|].
      exact (IH _ _ _ _ Hrest).
Qed.

End quiet_events.

Lemma worker_part_clients l : worker_part (map Client l) = [].
Proof. induction l as [|x l IH]; [reflexivity|exact IH]. Qed.

Lemma worker_part_workers l : worker_part (map Worker l) = l.
Proof. induction l as [|x l IH]; [reflexivity|]. simpl. unfold worker_part in IH. simpl. now f_equal. Qed.

Lemma worker_part_app l1 l2 : worker_part (l1 ++ l2) = worker_part l1 ++ worker_part l2.
Proof. apply omap_app. Qed.

Lemma worker_part_client c l : worker_part (Client c :: l) = worker_part l.
Proof. reflexivity. Qed.

Ltac worker_part_simpl :=
  rewrite ?worker_part_client, ?worker_part_app, ?worker_part_clients,
    ?worker_part_workers.


(** What leaves the [with] statement when the body raised while the
    session was held. *)
Lemma exit_held connect e :
  sftp_client.exit_ connect sftp_client.AtYieldSftp (Some e)
  = if is_Exception e then ([SFTPConnectionError e], Some RuntimeError)
    else ([], Some e).
Proof. unfold sftp_client.exit_, sftp_client.throw. now destruct (is_Exception e). Qed.

Lemma leave_held connect wd_map out e :
  leave connect sftp_client.AtYieldSftp wd_map out (Some e)
  = if is_Exception e
    then (wd_map, out ++ [Client (SFTPConnectionError e);
                          Worker (Log (UnexpectedError RuntimeError));
                          Worker (Sleep RECONNECT_DELAY)], Connecting)
    else (wd_map, out ++ [Worker (Log ShuttingDown)], Stopped).
Proof.
  unfold leave. rewrite exit_held. destruct e; reflexivity.
Qed.

Lemma enter_cases connect :
  match connect with
  | None => sftp_client.enter connect
            = ([ConnectingTo; ConnectionEstablished], inl sftp_client.AtYieldSftp)
  | Some e =>
      if is_Exception e
      then sftp_client.enter connect
           = ([ConnectingTo; SFTPConnectionError e], inl sftp_client.AtYieldNone)
      else sftp_client.enter connect = ([ConnectingTo], inr e)
  end.
Proof.
  destruct connect as [e|]; [|reflexivity].
  unfold sftp_client.enter, sftp_client.next. now destruct (is_Exception e).
Qed.

Lemma quiet_worker_part out e :
  quiet (worker_part out) -> Worker (Log (ConnectionLost e)) ∉ out.
Proof.
  intros Hq Hin. rewrite Forall_forall in Hq.
  specialize (Hq (Log (ConnectionLost e))). simpl in Hq.
  assert (Log (ConnectionLost e) ∈ worker_part out) as H.
  { apply list_elem_of_omap. exists (Worker (Log (ConnectionLost e))). now split. }
  apply Hq in H. discriminate.
Qed.

Lemma session_cm_quiet cfg local_path connect i wd_map m out st :
  session_cm cfg local_path connect i wd_map = Some (m, out, st) ->
  quiet (worker_part out).
Proof.
  unfold session_cm. pose proof (enter_cases connect) as He.
  destruct connect as [err|].
  - destruct (is_Exception err) eqn:Herr; rewrite He.
    + simpl. intros [= <- <- <-]. repeat constructor.
    + destruct err; try discriminate Herr. simpl. intros [= <- <- <-].
      repeat constructor.
  - rewrite He. cbn [sftp_client.is_session negb].
    destruct (initial_phase cfg i) as [[out1 [e|]]|] eqn:Hinit; [| |discriminate].
    + apply initial_phase_quiet in Hinit. rewrite leave_held.
      destruct (is_Exception e); intros [= <- <- <-];
        worker_part_simpl; simpl;
        (apply Forall_app; split; [exact Hinit | repeat constructor]).
    + apply initial_phase_quiet in Hinit.
      destruct (watching _ _ _ _ _ _ _ _) as [[[m1 out2] [e|]]|] eqn:Hw; [| |discriminate].
      * apply watching_quiet in Hw. rewrite leave_held.
        destruct (is_Exception e); intros [= <- <- <-];
          worker_part_simpl; simpl;
          (apply Forall_app; split; [|repeat constructor]);
          (apply Forall_app; split; [exact Hinit|]);
          (constructor; [reflexivity | exact Hw]).
      * apply watching_quiet in Hw. intros [= <- <- <-].
        worker_part_simpl. simpl.
        apply Forall_app; split; [exact Hinit|].
        constructor; [reflexivity | exact Hw].
Qed.

(** X23: no turn of the outer loop reports a lost connection. An exception
    raised inside the [with] statement is thrown into the generator of
    [sftp_client], whose [except Exception] clause catches it and yields a
    second time; what leaves the statement is the [RuntimeError] of
    [contextlib], which only the last [except] clause of the worker
    matches. *)
Theorem connection_lost_never_reported cfg local_path connect i wd_map m out st e :
  session_cm cfg local_path connect i wd_map = Some (m, out, st) ->
  Worker (Log (ConnectionLost e)) ∉ out.
Proof. intros H. apply quiet_worker_part. exact (session_cm_quiet _ _ _ _ _ _ _ _ H). Qed.

Lemma connection_lost_never_reported_witness :
  Worker (Log (ConnectionLost PermissionError))
  ∉ [Client ConnectingTo; Client ConnectionEstablished;
     Worker (Log InitialSyncSkipped); Worker (Log NowMonitoring);
     Worker (Call (Put "a.py")); Client (SFTPConnectionError PermissionError);
     Worker (Log (UnexpectedError RuntimeError)); Worker (Sleep RECONNECT_DELAY)].
Proof.
  apply (connection_lost_never_reported (Examples.cfg_proj true) "/home/u/proj" None
           (Examples.session_two_files Examples.sftp_deny) Examples.wd_root
           Examples.wd_root _ Connecting PermissionError).
  vm_compute. reflexivity.
Defined.

(** X24: a failure of the live loop as the worker reports it. When a call
    of the event loop raises an [Exception] of any class, [sftp_client]
    prints it as a connection error, the worker prints the unexpected
    error with the [RuntimeError] of [contextlib], sleeps for the
    reconnect delay and connects again; the registry is the one the loop
    had reached. *)
Theorem live_failure_reported_as_unexpected cfg local_path i wd_map out1 m out2 e :
  initial_phase cfg i = Some (out1, None) ->
  watching cfg (s_os i) (s_add_watch i) (s_sftp i) (s_fuel i) local_path
           (s_reads i) wd_map = Some (m, out2, Some e) ->
  is_Exception e = true ->
  session_cm cfg local_path None i wd_map
  = Some (m,
          [Client ConnectingTo; Client ConnectionEstablished]
            ++ map Worker (out1 ++ Log NowMonitoring :: out2)
            ++ [Client (SFTPConnectionError e);
                Worker (Log (UnexpectedError RuntimeError));
                Worker (Sleep RECONNECT_DELAY)],
          Connecting).
Proof.
  intros Hinit Hw He. unfold session_cm.
  pose proof (enter_cases None) as Hen. cbv beta iota in Hen. rewrite Hen.
  cbn [sftp_client.is_session negb]. rewrite Hinit, Hw, leave_held, He.
  now rewrite <- app_assoc.
Qed.

Lemma live_failure_reported_as_unexpected_witness :
  session_cm (Examples.cfg_proj true) "/home/u/proj" None
             (Examples.session_two_files Examples.sftp_deny) Examples.wd_root
  = Some (Examples.wd_root,
          [Client ConnectingTo; Client ConnectionEstablished]
            ++ map Worker ([Log InitialSyncSkipped] ++ Log NowMonitoring
                             :: [Call (Put "a.py")])
            ++ [Client (SFTPConnectionError PermissionError);
                Worker (Log (UnexpectedError RuntimeError));
                Worker (Sleep RECONNECT_DELAY)],
          Connecting).
Proof.
  apply (live_failure_reported_as_unexpected (Examples.cfg_proj true) "/home/u/proj"
           (Examples.session_two_files Examples.sftp_deny) Examples.wd_root
           [Log InitialSyncSkipped] Examples.wd_root [Call (Put "a.py")]
           PermissionError);
    vm_compute; reflexivity.
Defined.

(** X26: how a turn of the outer loop ends. When the worker goes back to
    connecting, the last thing it did was to sleep for the reconnect
    delay; when it stops, the last thing it did was to print that it is
    shutting down; it is still watching only after a connection was made;
    no exception leaves the loop. *)
Theorem session_cm_end cfg local_path connect i wd_map m out st :
  session_cm cfg local_path connect i wd_map = Some (m, out, st) ->
  match st with
  | Connecting => last out = Some (Worker (Sleep RECONNECT_DELAY))
  | Stopped => last out = Some (Worker (Log ShuttingDown))
  | Watching => connect = None
  | Died _ => False
  end.
Proof.
  unfold session_cm. pose proof (enter_cases connect) as He.
  destruct connect as [err|].
  - destruct (is_Exception err) eqn:Herr; rewrite He.
    + simpl. now intros [= <- <- <-].
    + destruct err; try discriminate Herr. simpl. now intros [= <- <- <-].
  - rewrite He. cbn [sftp_client.is_session negb].
    destruct (initial_phase cfg i) as [[out1 [e|]]|]; [| |discriminate].
    + rewrite leave_held.
      destruct (is_Exception e); intros [= <- <- <-];
        rewrite !last_cons, last_app; reflexivity.
    + destruct (watching _ _ _ _ _ _ _ _) as [[[m1 out2] [e|]]|]; [| |discriminate].
      * rewrite leave_held.
        destruct (is_Exception e); intros [= <- <- <-];
          rewrite !last_cons, last_app; reflexivity.
      * now intros [= <- <- <-].
Qed.

Lemma session_cm_end_witness :
  last [Client ConnectingTo; Client (SFTPConnectionError OSError);
        Worker (Log ConnectionFailed); Worker (Sleep RECONNECT_DELAY)]
  = Some (Worker (Sleep RECONNECT_DELAY)).
Proof.
  apply (session_cm_end (Examples.cfg_proj true) "/home/u/proj" (Some OSError)
           (Examples.session_two_files Examples.sftp_deny) Examples.wd_root
           Examples.wd_root _ Connecting).
  vm_compute. reflexivity.
Defined.


(** * The supervisor *)

(** ** A failure of the live loop *)




(** ** The watch registry through the sessions *)

Ltac registry_kept :=
  intros [= <- <- <-] ?; split; [reflexivity | assumption].

Section registry_entries.

Variable cfg : config.
Variable os : os_state.
Variable add_watch : inotify.add_watch_t.
Hypothesis Hone : one_handle_per_path add_watch.
Variable sftp : sftp_t.
Variable fuel : nat.
Variable local_path : string.

Lemma process_event_submap wd_map ev m out r :
  process_event cfg os add_watch sftp fuel local_path wd_map ev = Some (m, out, r) ->
  agrees add_watch wd_map -> wd_map ⊆ m /\ agrees add_watch m.
Proof.
  destruct (inotify.has ev (Z.lor inotify.CREATE inotify.MOVED_TO)
            && inotify.has ev inotify.ISDIR)%bool eqn:Hk.
  - apply andb_true_iff in Hk as [Hc Hd].
    unfold process_event. rewrite Hc, Hd.
    destruct (wd_map !! inotify.wd ev); [|registry_kept].
    destruct (posixpath.relpath _ _ _); [|registry_kept].
    destruct (is_excluded _ _ _ _); [registry_kept|].
    destruct (sftp _); [registry_kept|].
    destruct (add_watch_recursively _ _ _ _ _ _) as [[m1 r1]|] eqn:Hw;
      [|discriminate].
    intros [= <- <- <-] Hag.
    exact (add_watch_recursively_submap cfg os add_watch Hone _ _ _ _ _ Hw Hag).
  - intros H Hag. rewrite (process_event_same _ _ _ _ _ _ _ _ _ _ _ Hk H).
    split; [reflexivity | assumption].
Qed.

Lemma process_events_submap events : forall wd_map m out r,
  process_events cfg os add_watch sftp fuel local_path events wd_map = Some (m, out, r) ->
  agrees add_watch wd_map -> wd_map ⊆ m /\ agrees add_watch m.
Proof.
  induction events as [|ev events IH]; intros wd_map m out r; simpl.
  - registry_kept.
  - destruct (process_event _ _ _ _ _ _ wd_map ev) as [[[m1 o1] r1]|] eqn:Hev;
      [|discriminate].
    intros H Hag. destruct (process_event_submap _ _ _ _ _ Hev Hag) as [Hs1 Hag1].
    destruct r1; [now injection H as <- <- <-|].
    destruct (process_events _ _ _ _ _ _ events m1) as [[[m2 o2] r2]|] eqn:Hrest;
      [|discriminate].
    injection H as <- <- <-. destruct (IH _ _ _ _ Hrest Hag1) as [Hs2 Hag2].
    split; [now transitivity m1 | assumption].
Qed.

Lemma watching_submap reads : forall wd_map m out r,
  watching cfg os add_watch sftp fuel local_path reads wd_map = Some (m, out, r) ->
  agrees add_watch wd_map -> wd_map ⊆ m /\ agrees add_watch m.
Proof.
  induction reads as [|[events|e] reads IH]; intros wd_map m out r; simpl;
    [registry_kept | | registry_kept].
  destruct (process_events _ _ _ _ _ _ events wd_map) as [[[m1 o1] r1]|] eqn:Hev;
    [|discriminate].
  intros H Hag. destruct (process_events_submap _ _ _ _ _ Hev Hag) as [Hs1 Hag1].
  destruct r1; [now injection H as <- <- <-|].
  destruct (watching _ _ _ _ _ _ reads m1) as [[[m2 o2] r2]|] eqn:Hrest;
    [|discriminate].
  injection H as <- <- <-. destruct (IH _ _ _ _ Hrest Hag1) as [Hs2 Hag2].
  split; [now transitivity m1 | assumption].
Qed.

End registry_entries.

Section supervisor_facts.

Variable cfg : config.
Variable local_path : string.

(** The registry after a turn of the outer loop is the one the turn started
    with, or the one the event loop left. *)
Lemma session_cm_registry connect i wd_map m out st :
  session_cm cfg local_path connect i wd_map = Some (m, out, st) ->
  m = wd_map
  \/ exists out1 out2 r,
      connect = None
      /\ initial_phase cfg i = Some (out1, None)
      /\ watching cfg (s_os i) (s_add_watch i) (s_sftp i) (s_fuel i) local_path
                  (s_reads i) wd_map = Some (m, out2, r).
Proof.
  unfold session_cm. pose proof (enter_cases connect) as He.
  destruct connect as [err|].
  - destruct (is_Exception err) eqn:Herr; rewrite He.
    + simpl. intros [= <- <- <-]. now left.
    + destruct err; try discriminate Herr. simpl. intros [= <- <- <-]. now left.
  - rewrite He. cbn [sftp_client.is_session negb].
    destruct (initial_phase cfg i) as [[out1 [e|]]|]; [| |discriminate].
    + rewrite leave_held. destruct (is_Exception e); intros [= <- <- <-]; now left.
    + destruct (watching _ _ _ _ _ _ _ _) as [[[m1 out2] [e|]]|] eqn:Hw;
        [| |discriminate].
      * rewrite leave_held.
        destruct (is_Exception e); intros [= <- <- <-]; right; eauto 6.
      * intros [= <- <- <-]. right. eauto 6.
Qed.

Lemma session_dom i wd_map m out st :
  session cfg local_path i wd_map = Some (m, out, st) -> dom wd_map ⊆ dom m.
Proof.
  intros H. apply session_cm_registry in H as [-> | (out1 & out2 & r & _ & _ & Hw)];
    [reflexivity|].
  now apply watching_dom in Hw.
Qed.

Lemma sessions_dom inputs :
  forall wd_map m out st,
    sessions cfg local_path inputs wd_map = Some (m, out, st) -> dom wd_map ⊆ dom m.
Proof.
  induction inputs as [|i inputs IH]; intros wd_map m out st; simpl.
  - now intros [= <- <- <-].
  - destruct (session cfg local_path i wd_map) as [[[m1 o1] st1]|] eqn:Hs;
      [|discriminate].
    apply session_dom in Hs.
    destruct st1; try (now intros [= <- <- <-]).
    destruct (sessions cfg local_path inputs m1) as [[[m2 o2] st2]|] eqn:Hrest;
      [|discriminate].
    apply IH in Hrest. intros [= <- <- <-]. now transitivity (dom m1).
Qed.

Lemma session_submap add_watch i wd_map m out st :
  one_handle_per_path add_watch -> s_add_watch i = add_watch ->
  session cfg local_path i wd_map = Some (m, out, st) ->
  agrees add_watch wd_map -> wd_map ⊆ m /\ agrees add_watch m.
Proof.
  intros Hone <- H Hag.
  apply session_cm_registry in H as [-> | (out1 & out2 & r & _ & _ & Hw)].
  - split; [reflexivity | assumption].
  - exact (watching_submap cfg _ _ Hone _ _ _ _ _ _ _ _ Hw Hag).
Qed.

Lemma sessions_submap add_watch inputs :
  one_handle_per_path add_watch ->
  Forall (fun i => s_add_watch i = add_watch) inputs ->
  forall wd_map m out st,
    sessions cfg local_path inputs wd_map = Some (m, out, st) ->
    agrees add_watch wd_map -> wd_map ⊆ m /\ agrees add_watch m.
Proof.
  intros Hone. induction inputs as [|i inputs IH]; intros Hall wd_map m out st; simpl.
  - intros [= <- <- <-] Hag. split; [reflexivity | assumption].
  - apply Forall_cons in Hall as [Hi Hall].
    destruct (session cfg local_path i wd_map) as [[[m1 o1] st1]|] eqn:Hs;
      [|discriminate].
    intros H Hag. destruct (session_submap _ _ _ _ _ _ Hone Hi Hs Hag) as [Hs1 Hag1].
    destruct st1; try (now injection H as <- <- <-).
    destruct (sessions cfg local_path inputs m1) as [[[m2 o2] st2]|] eqn:Hrest;
      [|discriminate].
    injection H as <- <- <-. destruct (IH Hall _ _ _ _ Hrest Hag1) as [Hs2 Hag2].
    split; [now transitivity m1 | assumption].
Qed.

(** A connection that fails leaves the registry as it is. *)
Lemma session_connect_failed i wd_map m out st e :
  s_connect i = Some e ->
  session cfg local_path i wd_map = Some (m, out, st) -> m = wd_map.
Proof.
  intros Hc H. unfold session in H. rewrite Hc in H.
  apply session_cm_registry in H as [-> | (out1 & out2 & r & Hn & _)];
    [reflexivity | discriminate Hn].
Qed.

(** Handling the exception that ends a session leaves the registry as
    the event loop left it. *)
Lemma session_failure_keeps_registry i wd_map out1 m out e :
  s_connect i = None ->
  initial_phase cfg i = Some (out1, None) ->
  watching cfg (s_os i) (s_add_watch i) (s_sftp i) (s_fuel i) local_path
           (s_reads i) wd_map = Some (m, out, Some e) ->
  exists out' st, session cfg local_path i wd_map = Some (m, out', st).
Proof.
  intros Hc Hi Hw. unfold session, session_cm. rewrite Hc.
  pose proof (enter_cases None) as Hen. cbv beta iota in Hen. rewrite Hen.
  cbn [sftp_client.is_session negb]. rewrite Hi, Hw, leave_held.
  destruct (is_Exception e); eauto.
Qed.

(** Connecting, reconciling and entering the event loop register
    nothing. *)
Lemma session_enter_watching i wd_map m out st :
  s_reads i = [] ->
  session cfg local_path i wd_map = Some (m, out, st) -> m = wd_map.
Proof.
  intros Hr H.
  apply session_cm_registry in H as [-> | (out1 & out2 & r & _ & _ & Hw)];
    [reflexivity|].
  rewrite Hr in Hw. simpl in Hw. now injection Hw as <- <- <-.
Qed.

Lemma sessions_reconnect i rest wd_map m out :
  session cfg local_path i wd_map = Some (m, out, Connecting) ->
  sessions cfg local_path (i :: rest) wd_map
  = match sessions cfg local_path rest m with
    | None => None
    | Some (m', out', st) => Some (m', out ++ out', st)
    end.
Proof. intros H. cbn [sessions]. now rewrite H. Qed.

End supervisor_facts.

(** C9, as stated, fails: an entry of the registry can be replaced. The
    directory [real], registered under the handle 2, is renamed to
    [moved]; the watch follows the directory, so registering [moved] on
    the event of its arrival gives the handle 2 again and
    [wd_map[wd] = path] re-points it. The handle is still registered, the
    entry for [real] is gone. *)
Lemma renamed_directory_entry_replaced :
  exists m out,
    sessions (Examples.cfg_proj false) "/home/u/proj" [Cases.session_renamed]
             Cases.wd_real
    = Some (m, out, Watching)
    /\ Cases.wd_real !! 2 = Some "/home/u/proj/real"
    /\ m !! 2 = Some "/home/u/proj/moved"
    /\ ~ Cases.wd_real ⊆ m.
Proof.
  exists {[ 1 := "/home/u/proj"; 2 := "/home/u/proj/moved" ]},
    [Client ConnectingTo; Client ConnectionEstablished;
     Worker (Log InitialSyncSkipped); Worker (Log NowMonitoring);
     Worker (Call (Rmdir "real")); Worker (Call (Mkdir "moved"))].
  split; [vm_compute; reflexivity|].
  split; [reflexivity|]. split; [reflexivity|].
  intros Hsub.
  pose proof (lookup_weaken _ _ 2 "/home/u/proj/real" (eq_refl : Cases.wd_real !! 2 = _) Hsub)
    as H.
  vm_compute in H. discriminate H.
Qed.

(** C9, amended: the watch registry never loses a handle and survives
    transport failure. Registering watches, and any run of the supervisor
    over any number of sessions, keep every handle that was registered;
    when the event source gives one handle to one directory and the
    registry agrees with it, they keep every entry as it is; an event on a
    handle the registry does not know is discarded; an event other than
    the creation of a directory, a deletion among them, leaves the
    registry as it is; a failed connection attempt and the handling of the
    exception that ends a session leave it as it is; the next session
    starts with it; and connecting, reconciling and entering the event loop
    register nothing. *)
Theorem watch_registry_monotone cfg local_path :
  (forall os add_watch fuel path wd_map m r,
      add_watch_recursively cfg os add_watch fuel path wd_map = Some (m, r) ->
      dom wd_map ⊆ dom m)
  /\ (forall inputs wd_map m out st,
        sessions cfg local_path inputs wd_map = Some (m, out, st) ->
        dom wd_map ⊆ dom m)
  /\ (forall os add_watch fuel path wd_map m r,
        one_handle_per_path add_watch -> agrees add_watch wd_map ->
        add_watch_recursively cfg os add_watch fuel path wd_map = Some (m, r) ->
        wd_map ⊆ m)
  /\ (forall add_watch inputs wd_map m out st,
        one_handle_per_path add_watch -> agrees add_watch wd_map ->
        Forall (fun i => s_add_watch i = add_watch) inputs ->
        sessions cfg local_path inputs wd_map = Some (m, out, st) ->
        wd_map ⊆ m)
  /\ (forall os add_watch sftp fuel wd_map ev,
        wd_map !! inotify.wd ev = None ->
        process_event cfg os add_watch sftp fuel local_path wd_map ev
        = Some (wd_map, [], None))
  /\ (forall os add_watch sftp fuel wd_map ev m out r,
        (inotify.has ev (Z.lor inotify.CREATE inotify.MOVED_TO)
         && inotify.has ev inotify.ISDIR)%bool = false ->
        process_event cfg os add_watch sftp fuel local_path wd_map ev
        = Some (m, out, r) ->
        m = wd_map)
  /\ (forall i wd_map m out st e,
        s_connect i = Some e ->
        session cfg local_path i wd_map = Some (m, out, st) -> m = wd_map)
  /\ (forall i wd_map out1 m out e,
        s_connect i = None ->
        initial_phase cfg i = Some (out1, None) ->
        watching cfg (s_os i) (s_add_watch i) (s_sftp i) (s_fuel i) local_path
                 (s_reads i) wd_map = Some (m, out, Some e) ->
        exists out' st, session cfg local_path i wd_map = Some (m, out', st))
  /\ (forall i rest wd_map m out,
        session cfg local_path i wd_map = Some (m, out, Connecting) ->
        sessions cfg local_path (i :: rest) wd_map
        = match sessions cfg local_path rest m with
          | None => None
          | Some (m', out', st) => Some (m', out ++ out', st)
          end)
  /\ (forall i wd_map m out st,
        s_reads i = [] ->
        session cfg local_path i wd_map = Some (m, out, st) -> m = wd_map).
Proof.
  repeat split.
  - intros *. apply add_watch_recursively_dom.
  - intros *. apply sessions_dom.
  - intros * Hone Hag H.
    now apply (add_watch_recursively_submap _ _ _ Hone _ _ _ _ _ H).
  - intros * Hone Hag Hall H.
    now apply (sessions_submap _ _ _ _ Hone Hall _ _ _ _ H).
  - intros *. apply process_event_unknown.
  - intros *. apply process_event_same.
  - intros *. apply session_connect_failed.
  - intros *. apply session_failure_keeps_registry.
  - intros *. apply sessions_reconnect.
  - intros *. apply session_enter_watching.
Qed.

Lemma watch_registry_monotone_witness :
  Examples.wd_root ⊆ <[2 := "/home/u/proj/new"]> Examples.wd_root.
Proof.
  apply (proj1 (proj2 (proj2 (proj2 (watch_registry_monotone (Examples.cfg_proj false)
                                                             "/home/u/proj"))))
           Examples.add_watch_proj [Examples.session_new_dir] Examples.wd_root
           (<[2 := "/home/u/proj/new"]> Examples.wd_root)
           [Client ConnectingTo; Client ConnectionEstablished;
            Worker (Log InitialSyncSkipped); Worker (Log NowMonitoring);
            Worker (Call (Mkdir "new")); Worker (Call (Put "a.py"));
            Client (SFTPConnectionError PermissionError);
            Worker (Log (UnexpectedError RuntimeError)); Worker (Sleep 30)]
           Connecting).
  - intros p q w. unfold Examples.add_watch_proj.
    destruct (String.eqb_spec p "/home/u/proj") as [Hp1|_];
      destruct (String.eqb_spec q "/home/u/proj") as [Hq1|_];
      destruct (String.eqb_spec p "/home/u/proj/new") as [Hp2|_];
      destruct (String.eqb_spec q "/home/u/proj/new") as [Hq2|_];
      congruence.
  - intros p w p'. unfold Examples.add_watch_proj, Examples.wd_root.
    destruct (String.eqb_spec p "/home/u/proj") as [->|_].
    + intros [= <-]. rewrite lookup_singleton_eq. congruence.
    + destruct (String.eqb_spec p "/home/u/proj/new") as [->|_]; [|discriminate].
      intros [= <-]. rewrite lookup_singleton_ne by discriminate. discriminate.
  - repeat constructor.
  - vm_compute. reflexivity.
Defined.


(** * The calls of a pass, as they are issued *)

Lemma NoDup_split_unique {A} (x : A) (l1 l2 k1 k2 : list A) :
  NoDup (l1 ++ x :: l2) -> l1 ++ x :: l2 = k1 ++ x :: k2 -> l1 = k1 /\ l2 = k2.
Proof.
  revert k1. induction l1 as [|y l1 IH]; intros k1 Hnd Heq.
  - destruct k1 as [|z k1]; simpl in *.
    + injection Heq as ->. auto.
    + injection Heq as <- ->. apply NoDup_cons in Hnd as [Hx _].
      exfalso. apply Hx, elem_of_app. right. left.
  - destruct k1 as [|z k1]; simpl in *.
    + injection Heq as -> <-. apply NoDup_cons in Hnd as [Hx _].
      exfalso. apply Hx, elem_of_app. right. left.
    + injection Heq as <- Heq. apply NoDup_cons in Hnd as [_ Hnd].
      destruct (IH k1 Hnd Heq) as [-> ->]. auto.
Qed.

(** A pass that was stopped has issued a prefix of the plan: the call of
    the plan that comes second was issued only after the first. *)
Lemma prefix_keeps_order {A} (x y : A) (calls l1 l2 l3 plan : list A) :
  NoDup plan -> plan = l1 ++ x :: l2 ++ y :: l3 ->
  calls `prefix_of` plan -> y ∈ calls ->
  exists l3', calls = l1 ++ x :: l2 ++ y :: l3'.
Proof.
  intros Hnd -> [k Hk] Hy.
  apply list_elem_of_split in Hy as (c1 & c2 & ->).
  assert (Heq : (l1 ++ x :: l2) ++ y :: l3 = c1 ++ y :: (c2 ++ k)).
  { rewrite <- app_assoc. simpl. rewrite Hk, <- app_assoc. reflexivity. }
  apply NoDup_split_unique in Heq as [<- _].
  - exists c2. rewrite <- app_assoc. reflexivity.
  - rewrite <- app_assoc. exact Hnd.
Qed.

(** The calls of a pass are those of running its plan. *)
Lemma perform_initial_sync_run os listdir_attr sftp cfg local_map fuel remote_map out r :
  walk_remote os listdir_attr (remote_path cfg) (exclude_patterns cfg)
              (source_code_only cfg) fuel = Some (inl remote_map) ->
  perform_initial_sync os listdir_attr sftp cfg local_map fuel = Some (out, r) ->
  exists out0,
    run_actions sftp (initial_sync_actions local_map remote_map (initial_sync_delete cfg))
    = (out0, r)
    /\ calls_of out = calls_of out0.
Proof.
  intros Hwalk. unfold perform_initial_sync. rewrite Hwalk.
  destruct (run_actions sftp _) as [out0 [e|]] eqn:Hrun.
  - intros [= <- <-]. eauto.
  - intros [= <- <-]. exists out0. split; [reflexivity|].
    unfold calls_of. rewrite !omap_app.
    destruct (extra_report _ _ _); simpl; rewrite ?app_nil_r; reflexivity.
Qed.

(** When no call that was issued raised, the whole plan was issued. *)
Lemma run_all_succeed sftp calls out r :
  run_actions sftp calls = (out, r) ->
  (forall a, a ∈ calls_of out -> sftp a = None) ->
  r = None /\ calls_of out = calls.
Proof.
  intros Hrun Hok. destruct (run_actions_prefix sftp calls out r Hrun) as (_ & Hn & Hs).
  destruct r as [e|]; [|auto].
  destruct (Hs e eq_refl) as (_ & a & Hl & Ha).
  apply last_Some_elem_of, Hok in Hl. congruence.
Qed.

(** C5: of two paths of the create set, one a slash-delimited ancestor of
    the other, the ancestor's call is issued before the descendant's. In
    the calls the pass issues, the descendant's call, when it is there, is
    preceded by the ancestor's, and it is there when the pass completes;
    the ancestor's call is the create-directory call when the ancestor is
    a local directory; and no call is issued twice. *)
Theorem create_order os listdir_attr sftp cfg local_map fuel remote_map out r a b :
  walk_remote os listdir_attr (remote_path cfg) (exclude_patterns cfg)
              (source_code_only cfg) fuel = Some (inl remote_map) ->
  perform_initial_sync os listdir_attr sftp cfg local_map fuel = Some (out, r) ->
  a ∈ to_upload local_map remote_map ->
  b ∈ to_upload local_map remote_map ->
  is_ancestor a b ->
  (r = None -> create_action local_map b ∈ calls_of out)
  /\ (create_action local_map b ∈ calls_of out ->
      exists l1 l2 l3,
        calls_of out
        = l1 ++ create_action local_map a :: l2 ++ create_action local_map b :: l3)
  /\ (local_map !! a = Some LocalDir -> create_action local_map a = Mkdir a)
  /\ NoDup (calls_of out).
Proof.
  intros Hwalk Hsync Ha Hb Hanc.
  destruct (perform_initial_sync_run _ _ _ _ _ _ _ _ _ Hwalk Hsync)
    as (out0 & Hrun & ->).
  destruct (run_actions_prefix sftp _ _ _ Hrun) as (Hpre & Hall & _).
  destruct (create_actions_order local_map remote_map (initial_sync_delete cfg)
              a b Ha Hb Hanc) as (l1 & l2 & l3 & Hplan).
  pose proof (initial_sync_actions_NoDup local_map remote_map
                (initial_sync_delete cfg)) as Hnd.
  split; [|split; [|split]].
  - intros ->. rewrite (Hall eq_refl), Hplan.
    apply elem_of_app. right. right. apply elem_of_app. right. left.
  - intros Hin.
    destruct (prefix_keeps_order _ _ _ _ _ _ _ Hnd Hplan Hpre Hin) as [l3' ->].
    eauto.
  - intros Hl. unfold create_action, local_is_dir. now rewrite Hl.
  - destruct Hpre as [k Hk]. rewrite Hk in Hnd. now apply NoDup_app in Hnd as [Hnd _].
Qed.

Lemma create_order_witness :
  exists l1 l2 l3,
    calls_of [Call (Mkdir "a"); Call (Put "a/x.py"); Log InitialSyncCompleted]
    = l1 ++ create_action Examples.local_a "a"
         :: l2 ++ create_action Examples.local_a "a/x.py" :: l3.
Proof.
  refine (proj1 (proj2 (create_order Examples.os_plain Cases.listdir_empty
                          Examples.sftp_ok (Examples.cfg_proj false) Examples.local_a
                          3 ∅
                          [Call (Mkdir "a"); Call (Put "a/x.py");
                           Log InitialSyncCompleted]
                          None "a" "a/x.py" _ _ _ _ _)) _).
  - vm_compute. reflexivity.
  - vm_compute. reflexivity.
  - vm_compute. reflexivity.
  - vm_compute. reflexivity.
  - exists "x.py". reflexivity.
  - vm_compute. repeat constructor.
Defined.

(** C6: when deletion is permitted, of two paths of the remove set, one a
    slash-delimited ancestor of the other, the descendant's call is issued
    before the ancestor's. In the calls the pass issues, the ancestor's
    call, when it is there, is preceded by the descendant's, and it is
    there when the pass completes; the ancestor's call is the
    remove-directory call when the ancestor is a remote directory; and no
    call is issued twice. *)
Theorem delete_order os listdir_attr sftp cfg local_map fuel remote_map out r a b :
  initial_sync_delete cfg = true ->
  walk_remote os listdir_attr (remote_path cfg) (exclude_patterns cfg)
              (source_code_only cfg) fuel = Some (inl remote_map) ->
  perform_initial_sync os listdir_attr sftp cfg local_map fuel = Some (out, r) ->
  a ∈ to_delete local_map remote_map ->
  b ∈ to_delete local_map remote_map ->
  is_ancestor a b ->
  (r = None -> delete_action remote_map a ∈ calls_of out)
  /\ (delete_action remote_map a ∈ calls_of out ->
      exists l1 l2 l3,
        calls_of out
        = l1 ++ delete_action remote_map b :: l2 ++ delete_action remote_map a :: l3)
  /\ (remote_is_dir remote_map a = true -> delete_action remote_map a = Rmdir a)
  /\ NoDup (calls_of out).
Proof.
  intros Hallow Hwalk Hsync Ha Hb Hanc.
  destruct (perform_initial_sync_run _ _ _ _ _ _ _ _ _ Hwalk Hsync)
    as (out0 & Hrun & ->).
  rewrite Hallow in Hrun.
  destruct (run_actions_prefix sftp _ _ _ Hrun) as (Hpre & Hall & _).
  destruct (delete_actions_order local_map remote_map a b Ha Hb Hanc)
    as (l1 & l2 & l3 & Hplan).
  pose proof (initial_sync_actions_NoDup local_map remote_map true) as Hnd.
  split; [|split; [|split]].
  - intros ->. rewrite (Hall eq_refl), Hplan.
    apply elem_of_app. right. right. apply elem_of_app. right. left.
  - intros Hin.
    destruct (prefix_keeps_order _ _ _ _ _ _ _ Hnd Hplan Hpre Hin) as [l3' ->].
    eauto.
  - intros Hd. unfold delete_action. now rewrite Hd.
  - destruct Hpre as [k Hk]. rewrite Hk in Hnd. now apply NoDup_app in Hnd as [Hnd _].
Qed.

Lemma delete_order_witness :
  exists l1 l2 l3,
    calls_of [Call (Remove "stale/file"); Call (Rmdir "stale");
              Log InitialSyncCompleted]
    = l1 ++ delete_action Examples.remote_stale "stale/file"
         :: l2 ++ delete_action Examples.remote_stale "stale" :: l3.
Proof.
  refine (proj1 (proj2 (delete_order Examples.os_plain Cases.listdir_stale_file
                          Examples.sftp_ok Cases.cfg_mirror ∅ 5 Examples.remote_stale
                          [Call (Remove "stale/file"); Call (Rmdir "stale");
                           Log InitialSyncCompleted]
                          None "stale" "stale/file" _ _ _ _ _ _)) _).
  - reflexivity.
  - vm_compute. reflexivity.
  - vm_compute. reflexivity.
  - vm_compute. reflexivity.
  - vm_compute. reflexivity.
  - exists "file". reflexivity.
  - vm_compute. repeat constructor.
Defined.

(** * Running the pass twice *)

Lemma replace_backslash_idem (s : string) :
  replace_backslash (replace_backslash s) = replace_backslash s.
Proof.
  induction s as [|c s IH]; [reflexivity|].
  change (replace_backslash (String c s))
    with (String (if Ascii.eqb c "\" then "/"%char else c) (replace_backslash s)).
  change (replace_backslash (String ?d ?t))
    with (String (if Ascii.eqb d "\" then "/"%char else d) (replace_backslash t)).
  rewrite IH. f_equal.
  destruct (Ascii.eqb c "\") eqn:Hc; [reflexivity | now rewrite Hc].
Qed.

(** The keys of a remote snapshot are written with [/]. *)
Lemma walk_remote_keys_landed os listdir_attr remote_path exclude_patterns
    source_code_only fuel remote_map :
  walk_remote os listdir_attr remote_path exclude_patterns source_code_only fuel
  = Some (inl remote_map) ->
  forall p, p ∈ dom remote_map -> landed p = p.
Proof.
  intros Hwalk p Hp.
  destruct (walk_remote_recorded _ _ _ _ _ _ _ Hwalk p Hp)
    as (q & entries & attr & _ & _ & _ & _ & ->).
  apply replace_backslash_idem.
Qed.


(** C8, as stated, fails: the remote directory [stale] is absent locally
    and holds the excluded file [x.log], so the scan records [stale] alone
    and the pass asks for its removal, which the transport refuses because
    the directory is not empty. Nothing has changed, and the second pass
    issues the same call again. *)
Lemma second_pass_repeats_failed_removal :
  walk_remote Examples.os_plain Examples.listdir_stale "/srv/proj" ["*.log"] false 5
  = Some (inl Examples.remote_stale_dir)
  /\ initial_sync_actions ∅ Examples.remote_stale_dir true = [Rmdir "stale"]
  /\ remote_after Examples.made Examples.uploaded Examples.sftp_not_empty
                  (initial_sync_actions ∅ Examples.remote_stale_dir true)
                  Examples.remote_stale_dir
     = Examples.remote_stale_dir
  /\ initial_sync_actions ∅
       (remote_after Examples.made Examples.uploaded Examples.sftp_not_empty
                     (initial_sync_actions ∅ Examples.remote_stale_dir true)
                     Examples.remote_stale_dir) true
     <> [].
Proof.
  assert (H1 : initial_sync_actions ∅ Examples.remote_stale_dir true = [Rmdir "stale"])
    by (vm_compute; reflexivity).
  assert (H2 : remote_after Examples.made Examples.uploaded Examples.sftp_not_empty
                            [Rmdir "stale"] Examples.remote_stale_dir
               = Examples.remote_stale_dir)
    by reflexivity.
  split; [|split; [|split]].
  - vm_compute. reflexivity.
  - exact H1.
  - rewrite H1. exact H2.
  - rewrite H1, H2, H1. discriminate.
Qed.

(** A local file whose name holds a backslash is uploaded again by every
    pass: the upload lands on the path written with [/], which the scan
    records under another key than the local one, so the next pass sees
    the local file as missing remotely and the uploaded copy as extra. *)
Example backslash_name_uploaded_again :
  initial_sync_actions Cases.local_backslash ∅ true = [Mkdir "a"; Put "a\b"]
  /\ dom (remote_after Examples.made Examples.uploaded Examples.sftp_ok
                       [Mkdir "a"; Put "a\b"] ∅)
     = {[ "a"; "a/b" ]}
  /\ initial_sync_actions Cases.local_backslash
       (remote_after Examples.made Examples.uploaded Examples.sftp_ok
                     [Mkdir "a"; Put "a\b"] ∅) true
     = [Put "a\b"; Remove "a/b"].
Proof.
  split; [vm_compute; reflexivity|]. split; [|vm_compute; reflexivity].
  unfold remote_after. simpl. unfold attempt, effect, landed. simpl.
  rewrite dom_insert_L, dom_insert_L, dom_empty_L.
  change (replace_backslash "a") with "a".
  change (replace_backslash "a\b") with "a/b".
  apply set_eq. intros x.
  rewrite !elem_of_union, !elem_of_singleton, elem_of_empty. tauto.
Qed.

(** C8, amended: when every call of the first pass succeeds, no local
    path is written with a backslash, and the server reports each uploaded
    file with the size of the local file and a modification time the
    comparison accepts, the first pass completes and a second pass over
    the resulting remote snapshot issues no call. *)
Theorem second_pass_empty made uploaded os listdir_attr sftp cfg local_map fuel
    remote_map out1 r1 :
  walk_remote os listdir_attr (remote_path cfg) (exclude_patterns cfg)
              (source_code_only cfg) fuel = Some (inl remote_map) ->
  perform_initial_sync os listdir_attr sftp cfg local_map fuel = Some (out1, r1) ->
  (forall a, a ∈ calls_of out1 -> sftp a = None) ->
  (forall p, p ∈ dom local_map -> Str.contains "\" p = false) ->
  (forall p mtime size,
      local_map !! p = Some (LocalFile mtime size) ->
      st_size (uploaded p) = size /\ int_of_float mtime <= st_mtime (uploaded p) + 1) ->
  r1 = None
  /\ calls_of out1 = initial_sync_actions local_map remote_map (initial_sync_delete cfg)
  /\ initial_sync_actions local_map
       (remote_after made uploaded sftp (calls_of out1) remote_map)
       (initial_sync_delete cfg)
     = []
  /\ forall os' listdir_attr' sftp' fuel' out2 r2,
       walk_remote os' listdir_attr' (remote_path cfg) (exclude_patterns cfg)
                   (source_code_only cfg) fuel'
       = Some (inl (remote_after made uploaded sftp (calls_of out1) remote_map)) ->
       perform_initial_sync os' listdir_attr' sftp' cfg local_map fuel'
       = Some (out2, r2) ->
       calls_of out2 = [] /\ r2 = None.
Proof.
  intros Hwalk Hsync Hok Hlocal Hrt.
  destruct (perform_initial_sync_run _ _ _ _ _ _ _ _ _ Hwalk Hsync)
    as (out0 & Hrun & Hcalls).
  rewrite Hcalls in Hok |- *.
  destruct (run_all_succeed _ _ _ _ Hrun Hok) as [-> Hplan].
  rewrite Hplan in Hok |- *.
  assert (Hnil : initial_sync_actions local_map
                   (remote_after made uploaded sftp
                      (initial_sync_actions local_map remote_map (initial_sync_delete cfg))
                      remote_map)
                   (initial_sync_delete cfg) = []).
  { rewrite remote_after_ok by exact Hok.
    apply second_pass_nil; [exact Hrt | |].
    - intros p Hp. apply replace_backslash_id. now apply Hlocal.
    - exact (walk_remote_keys_landed _ _ _ _ _ _ _ Hwalk). }
  split; [reflexivity|]. split; [reflexivity|]. split; [exact Hnil|].
  intros os' listdir_attr' sftp' fuel' out2 r2 Hwalk' Hsync'.
  destruct (perform_initial_sync_run _ _ _ _ _ _ _ _ _ Hwalk' Hsync')
    as (out0' & Hrun' & ->).
  rewrite Hnil in Hrun'. simpl in Hrun'. now injection Hrun' as <- <-.
Qed.

Lemma second_pass_empty_witness :
  initial_sync_actions Examples.local_a
    (remote_after Examples.made Examples.uploaded Examples.sftp_ok
       (calls_of [Call (Mkdir "a"); Call (Put "a/x.py"); Call (Remove "old.log");
                  Log InitialSyncCompleted])
       {[ "old.log" := Examples.file_attr "old.log" 5 100 ]})
    (initial_sync_delete Cases.cfg_mirror)
  = [].
Proof.
  refine (proj1 (proj2 (proj2 (second_pass_empty Examples.made Examples.uploaded
                   Examples.os_plain Examples.listdir_old_log Examples.sftp_ok
                   Cases.cfg_mirror Examples.local_a 3
                   {[ "old.log" := Examples.file_attr "old.log" 5 100 ]}
                   [Call (Mkdir "a"); Call (Put "a/x.py"); Call (Remove "old.log");
                    Log InitialSyncCompleted]
                   None _ _ _ _ _)))).
  - vm_compute. reflexivity.
  - vm_compute. reflexivity.
  - intros a _. reflexivity.
  - intros p Hp. unfold Examples.local_a in Hp.
    rewrite dom_insert_L, dom_singleton_L in Hp.
    apply elem_of_union in Hp as [Hp | Hp]; apply elem_of_singleton in Hp as ->;
      reflexivity.
  - intros p mtime size H.
    destruct (decide (p = "a/x.py")) as [-> | Hne].
    + vm_compute in H. injection H as <- <-. vm_compute. split; [reflexivity|discriminate].
    + destruct (decide (p = "a")) as [-> | Hne'].
      * vm_compute in H. discriminate H.
      * unfold Examples.local_a in H.
        rewrite lookup_insert_ne in H by congruence.
        rewrite lookup_singleton_ne in H by congruence.
        discriminate H.
Defined.

(** * The remote scan and names written with a backslash *)

(** C10, as stated, fails: the remote root holds the directory
    [node_modules], which the filter excludes, and beside it a file whose
    name is written with a backslash. The scan replaces the backslash and
    records the file under a path beneath the excluded directory. *)
Lemma backslash_name_recorded_beneath_excluded :
  S_ISDIR (st_mode (Examples.dir_attr "node_modules")) = true
  /\ is_excluded Examples.os_plain "node_modules/" ["node_modules/"] false = true
  /\ walk_remote Examples.os_plain Cases.listdir_backslash "/srv/proj"
                 ["node_modules/"] false 5
     = Some (inl {[ "node_modules/evil.js" := Cases.backslash_attr ]})
  /\ is_ancestor "node_modules" "node_modules/evil.js".
Proof.
  split; [reflexivity|]. split; [vm_compute; reflexivity|].
  split; [vm_compute; reflexivity|]. exists "evil.js". reflexivity.
Qed.
